(** * felix/commands: a shallow embedding of the command tree, the
    dispatcher and the help renderer, with the properties of its
    specification.

    Source files: [command.go] (Command, Execute, RegisterChild,
    commandNameRegex), [help.go] (getNames, showHelp, helpForCommand,
    flagHelp, isZeroValue) and the parts of Go's standard packages [flag],
    [regexp], [strings], [strconv] and [fmt] that these functions call.
    Of the typed accessors of [flag.go], [FlagString] and [FlagBool] are
    embedded; [FlagInt] and [FlagFloat64] are not: what they return is the
    number syntax of [strconv].

    Conventions.
    - Go strings are byte strings: [string] with [ascii] as the byte.
    - A [*Command] is an address into a store of commands; an address that
      the store does not list denotes a zero-valued [Command{}].  The same
      holds for [*flag.FlagSet].
    - An [io.Reader] / [io.Writer] interface value is [None] (nil) or
      [Some] stream identity; what is written ends up in the trace.
    - A Go call returns, panics, calls [os.Exit] or overflows the stack:
      the four constructors of [Result]. *)

From Stdlib Require Import ZArith Ascii String List Bool Lia.
From stdpp Require Import base option list strings gmap fin_maps sorting.

#[local] Set Warnings "-clear-no-such-hyp".

(** ** Package [regexp]: the fragment of RE2 syntax used by
    [commandNameRegex], matched with Brzozowski derivatives.  [RBol] and
    [REol] are the anchors [^] and [$] (no multi-line flag: begin and end
    of text).  The text is matched byte by byte; the classes and the
    literal of [commandNameRegex] are ASCII, so a byte of a longer UTF-8
    sequence matches nothing, as the rune it belongs to matches nothing. *)
Module Regexp.

Inductive regex : Type :=
| RNone
| REps
| RBol
| REol
| RLit (c : ascii)
| RClass (ranges : list (ascii * ascii))
| RCat (r1 r2 : regex)
| RAlt (r1 r2 : regex)
| RStar (r : regex).

(** [x+] and [x?] *)
Definition RPlus (r : regex) : regex := RCat r (RStar r).
Definition ROpt (r : regex) : regex := RAlt r REps.

Definition in_range (c : ascii) (lh : ascii * ascii) : bool :=
  (nat_of_ascii lh.1 <=? nat_of_ascii c)%nat &&
  (nat_of_ascii c <=? nat_of_ascii lh.2)%nat.

Definition in_class (c : ascii) (l : list (ascii * ascii)) : bool :=
  existsb (in_range c) l.

Definition is_nil {A} (l : list A) : bool :=
  match l with [] => true | _ => false end.

(** Does [r] match the empty string at a position that is at the beginning
    of the text iff [bol], at its end iff [eol]? *)
Fixpoint nullable (bol eol : bool) (r : regex) : bool :=
  match r with
  | RNone => false
  | REps => true
  | RBol => bol
  | REol => eol
  | RLit _ | RClass _ => false
  | RCat r1 r2 => nullable bol eol r1 && nullable bol eol r2
  | RAlt r1 r2 => nullable bol eol r1 || nullable bol eol r2
  | RStar _ => true
  end.

(** What remains of [r] once the byte [c] is consumed at a position that is
    at the beginning of the text iff [bol]. *)
Fixpoint deriv (bol : bool) (c : ascii) (r : regex) : regex :=
  match r with
  | RNone | REps | RBol | REol => RNone
  | RLit d => if Ascii.eqb c d then REps else RNone
  | RClass l => if in_class c l then REps else RNone
  | RCat r1 r2 =>
      RAlt (RCat (deriv bol c r1) r2)
           (if nullable bol false r1 then deriv bol c r2 else RNone)
  | RAlt r1 r2 => RAlt (deriv bol c r1) (deriv bol c r2)
  | RStar r1 => RCat (deriv bol c r1) (RStar r1)
  end.

(** Some prefix of [s] matches [r]. *)
Fixpoint prefix_match (bol : bool) (r : regex) (s : list ascii) : bool :=
  nullable bol (is_nil s) r ||
  match s with
  | [] => false
  | c :: s' => prefix_match false (deriv bol c r) s'
  end.

(** Some substring of [s] matches [r]. *)
Fixpoint search (bol : bool) (r : regex) (s : list ascii) : bool :=
  prefix_match bol r s ||
  match s with
  | [] => false
  | _ :: s' => search false r s'
  end.

(** The method [MatchString] of a compiled expression: the string contains
    a match of [r]. *)
Definition MatchString (r : regex) (s : string) : bool :=
  search true r (list_ascii_of_string s).

(** The declarative reading of a regular expression: [matches b e r s] when
    [r] matches exactly [s], [s] starting at the beginning of the text iff
    [b] and stopping at its end iff [e]. *)
Inductive matches : bool -> bool -> regex -> list ascii -> Prop :=
| MEps b e : matches b e REps []
| MBol e : matches true e RBol []
| MEol b : matches b true REol []
| MLit b e c : matches b e (RLit c) [c]
| MClass b e l c : in_class c l = true -> matches b e (RClass l) [c]
| MCat b e r1 r2 s1 s2 :
    matches b (e && is_nil s2) r1 s1 ->
    matches (b && is_nil s1) e r2 s2 ->
    matches b e (RCat r1 r2) (s1 ++ s2)
| MAltL b e r1 r2 s : matches b e r1 s -> matches b e (RAlt r1 r2) s
| MAltR b e r1 r2 s : matches b e r2 s -> matches b e (RAlt r1 r2) s
| MStarNil b e r : matches b e (RStar r) []
| MStarApp b e r c s1 s2 :
    matches b (e && is_nil s2) r (c :: s1) ->
    matches false e (RStar r) s2 ->
    matches b e (RStar r) (c :: s1 ++ s2).

Fixpoint anchor_free (r : regex) : bool :=
  match r with
  | RBol | REol => false
  | RCat r1 r2 | RAlt r1 r2 => anchor_free r1 && anchor_free r2
  | RStar r1 => anchor_free r1
  | _ => true
  end.

End Regexp.

Import Regexp.

(** ** Bytes and strings: the functions of [strings], [strconv] and [fmt]
    that the package calls. *)
Module GoString.

Definition TAB : ascii := ascii_of_nat 9.
Definition NL : ascii := ascii_of_nat 10.
Definition tab : string := String TAB "".
Definition nl : string := String NL "".

Definition len (s : string) : nat := String.length s.

(** [strings.Join] *)
Fixpoint Join (elems : list string) (sep : string) : string :=
  match elems with
  | [] => ""
  | [x] => x
  | x :: rest => x +:+ sep +:+ Join rest sep
  end.

(** [strings.HasSuffix] and [strings.TrimSuffix] *)
Definition HasSuffix (s suffix : string) : bool :=
  (len suffix <=? len s)%nat &&
  String.eqb (substring (len s - len suffix) (len suffix) s) suffix.

Definition TrimSuffix (s suffix : string) : string :=
  if HasSuffix s suffix then substring 0 (len s - len suffix) s else s.

(** ** UTF-8, as package [unicode/utf8] decodes it: which bytes begin a
    valid encoding of two, three and four bytes.  Overlong encodings,
    surrogates and code points above U+10FFFF are not valid; a byte that
    begins no valid encoding is decoded on its own, as the rune
    [RuneError] of width 1. *)
Definition between (lo hi : nat) (c : ascii) : bool :=
  ((lo <=? nat_of_ascii c) && (nat_of_ascii c <=? hi))%nat.

(** A continuation byte, 0x80 to 0xBF. *)
Definition cont (c : ascii) : bool := between 128 191 c.

Definition utf8_two (c0 c1 : ascii) : bool := between 194 223 c0 && cont c1.

Definition utf8_three (c0 c1 c2 : ascii) : bool :=
  ((between 224 224 c0 && between 160 191 c1) ||
   ((between 225 236 c0 || between 238 239 c0) && cont c1) ||
   (between 237 237 c0 && between 128 159 c1)) && cont c2.

Definition utf8_four (c0 c1 c2 c3 : ascii) : bool :=
  ((between 240 240 c0 && between 144 191 c1) ||
   (between 241 243 c0 && cont c1) ||
   (between 244 244 c0 && between 128 143 c1)) && cont c2 && cont c3.

(** [utf8.RuneCountInString]: a byte that begins no valid encoding counts
    as one rune. *)
Fixpoint RuneCountInString (s : string) : nat :=
  match s with
  | EmptyString => 0
  | String c0 s1 =>
      S (match s1 with
         | String c1 s2 =>
             if utf8_two c0 c1 then RuneCountInString s2
             else
               match s2 with
               | String c2 s3 =>
                   if utf8_three c0 c1 c2 then RuneCountInString s3
                   else
                     match s3 with
                     | String c3 s4 =>
                         if utf8_four c0 c1 c2 c3 then RuneCountInString s4
                         else RuneCountInString s1
                     | EmptyString => RuneCountInString s1
                     end
               | EmptyString => RuneCountInString s1
               end
         | EmptyString => RuneCountInString s1
         end)
  end.

(** [unicode.IsSpace] on the encodings of the runes: the white space of
    the ASCII range (tab, line feed, vertical tab, form feed, carriage
    return, space); U+0085 and U+00A0, of two bytes; and U+1680, U+2000 to
    U+200A, U+2028, U+2029, U+202F, U+205F and U+3000, of three. *)
Definition isSpace (c : ascii) : bool :=
  let n := nat_of_ascii c in
  ((9 <=? n) && (n <=? 13))%nat || (n =? 32)%nat.

Definition isSpace2 (c0 c1 : ascii) : bool :=
  between 194 194 c0 && (between 133 133 c1 || between 160 160 c1).

Definition isSpace3 (c0 c1 c2 : ascii) : bool :=
  (between 225 225 c0 && between 154 154 c1 && between 128 128 c2) ||
  (between 226 226 c0 && between 128 128 c1 &&
     (between 128 138 c2 || between 168 169 c2 || between 175 175 c2)) ||
  (between 226 226 c0 && between 129 129 c1 && between 159 159 c2) ||
  (between 227 227 c0 && between 128 128 c1 && between 128 128 c2).

(** The runes of white space are dropped from the front of [s]; [two] and
    [three] recognise those of two and of three bytes. *)
Fixpoint trimLeading (two : ascii -> ascii -> bool) (three : ascii -> ascii -> ascii -> bool)
    (s : string) : string :=
  match s with
  | EmptyString => EmptyString
  | String c0 s1 =>
      if isSpace c0 then trimLeading two three s1
      else
        match s1 with
        | String c1 s2 =>
            if two c0 c1 then trimLeading two three s2
            else
              match s2 with
              | String c2 s3 =>
                  if three c0 c1 c2 then trimLeading two three s3 else s
              | EmptyString => s
              end
        | EmptyString => s
        end
  end.

Fixpoint rev_append (s acc : string) : string :=
  match s with
  | EmptyString => acc
  | String c s' => rev_append s' (String c acc)
  end.

(** The bytes of [s] in the opposite order. *)
Definition reverse (s : string) : string := rev_append s EmptyString.

(** [strings.TrimSpace]: the white space is cut from the front, then from
    the end.  A rune at the end of the text is white space when its
    encoding is the end of the text, read here from the last byte
    backwards. *)
Definition TrimLeft (s : string) : string := trimLeading isSpace2 isSpace3 s.

Definition TrimRight (s : string) : string :=
  reverse (trimLeading (fun c1 c0 => isSpace2 c0 c1)
             (fun c2 c1 c0 => isSpace3 c0 c1 c2) (reverse s)).

Definition TrimSpace (s : string) : string := TrimRight (TrimLeft s).

(** [strings.ReplaceAll s old new] for a one-byte [old]. *)
Fixpoint ReplaceAll (s : string) (old : ascii) (new : string) : string :=
  match s with
  | String c s' =>
      (if Ascii.eqb c old then new else String c "") +:+ ReplaceAll s' old new
  | EmptyString => EmptyString
  end.

(** The verb [%-Ns] of [fmt]: left-justified in a field of [n] columns,
    a column per rune. *)
Fixpoint spaces (n : nat) : string :=
  match n with
  | O => ""
  | S n' => String " " (spaces n')
  end.

Definition padRight (n : nat) (s : string) : string :=
  s +:+ spaces (n - RuneCountInString s).

Definition hexdigit (n : nat) : ascii :=
  match n with
  | 0 => "0" | 1 => "1" | 2 => "2" | 3 => "3" | 4 => "4" | 5 => "5"
  | 6 => "6" | 7 => "7" | 8 => "8" | 9 => "9" | 10 => "a" | 11 => "b"
  | 12 => "c" | 13 => "d" | 14 => "e" | _ => "f"
  end%char.

(** [strconv.Quote], the verb [%q]: a double-quoted Go string literal,
    rune by rune.  A byte of the ASCII range is escaped as Go does.  A byte
    that begins no valid encoding is written as [\x] and two hexadecimal
    digits.  A rune of two bytes up to U+00FF is copied when
    [strconv.IsPrint] holds of it (U+00A1 to U+00FF without U+00AD) and is
    written as [\u00] and two digits otherwise.  A rune above U+00FF is
    copied, which is what Go does when [strconv.IsPrint] holds of it; the
    table that decides this for those runes is not part of the model. *)
Definition esc (c : ascii) : string := String (ascii_of_nat 92) (String c "").

Definition hex2 (n : nat) : string :=
  String (hexdigit (n / 16)) (String (hexdigit (n mod 16)) "").

Definition quoteByte (c : ascii) : string :=
  let n := nat_of_ascii c in
  if (n =? 34)%nat || (n =? 92)%nat then esc c
  else if (n =? 7)%nat then esc "a"
  else if (n =? 8)%nat then esc "b"
  else if (n =? 12)%nat then esc "f"
  else if (n =? 10)%nat then esc "n"
  else if (n =? 13)%nat then esc "r"
  else if (n =? 9)%nat then esc "t"
  else if (n =? 11)%nat then esc "v"
  else if (n <? 32)%nat || (n =? 127)%nat then esc "x" +:+ hex2 n
  else String c "".

(** The rune that the two bytes encode, and its text in a literal. *)
Definition rune2 (c0 c1 : ascii) : nat :=
  (nat_of_ascii c0 - 192) * 64 + (nat_of_ascii c1 - 128).

Definition quoteRune2 (c0 c1 : ascii) : string :=
  let r := rune2 c0 c1 in
  if (r <? 256)%nat && negb ((161 <=? r)%nat && negb (r =? 173)%nat) then
    esc "u" +:+ "00" +:+ hex2 r
  else String c0 (String c1 "").

Definition quoteInvalid (c : ascii) : string := esc "x" +:+ hex2 (nat_of_ascii c).

Fixpoint quoteBody (s : string) : string :=
  match s with
  | EmptyString => EmptyString
  | String c0 s1 =>
      if (nat_of_ascii c0 <? 128)%nat then quoteByte c0 +:+ quoteBody s1
      else
        match s1 with
        | String c1 s2 =>
            if utf8_two c0 c1 then quoteRune2 c0 c1 +:+ quoteBody s2
            else
              match s2 with
              | String c2 s3 =>
                  if utf8_three c0 c1 c2 then
                    String c0 (String c1 (String c2 "")) +:+ quoteBody s3
                  else
                    match s3 with
                    | String c3 s4 =>
                        if utf8_four c0 c1 c2 c3 then
                          String c0 (String c1 (String c2 (String c3 ""))) +:+ quoteBody s4
                        else quoteInvalid c0 +:+ quoteBody s1
                    | EmptyString => quoteInvalid c0 +:+ quoteBody s1
                    end
              | EmptyString => quoteInvalid c0 +:+ quoteBody s1
              end
        | EmptyString => quoteInvalid c0 +:+ quoteBody s1
        end
  end.

Definition DQ : string := String (ascii_of_nat 34) "".


Definition Quote (s : string) : string := DQ +:+ quoteBody s +:+ DQ.

End GoString.

Import GoString.

(** ** Streams.  [os.Stdin], [os.Stdout] and [os.Stderr] are the streams 0,
    1 and 2. *)
Definition Stream : Type := nat.
Definition Writer : Type := option Stream.
Definition Reader : Type := option Stream.
Definition os_Stdin : Stream := 0.
Definition os_Stdout : Stream := 1.
Definition os_Stderr : Stream := 2.

(** Go's [error] values that the package meets: the sentinel
    [flag.ErrHelp] and the errors made by [errors.New] and [fmt.Errorf]. *)
Inductive error : Type :=
| ErrHelp
| ErrorString (msg : string).

Definition error_Error (e : error) : string :=
  match e with
  | ErrHelp => "flag: help requested"
  | ErrorString msg => msg
  end.

(** ** Package [flag] *)

Inductive ErrorHandling : Type :=
| ContinueOnError
| ExitOnError
| PanicOnError.

(** The dynamic type and the state of a [flag.Value]: the values behind
    [FlagSet.Bool] and [FlagSet.String] of package [flag], and the
    [stringValue] that [help.go] declares for itself (a type of package
    [commands], distinct from the one of package [flag]).  Flags of the
    other types of package [flag] ([Int], [Float64], [Duration] and so on,
    whose [Set] parses the text and can fail) are outside the model: what
    is proved of flags is proved of boolean and string flags. *)
Inductive Value : Type :=
| flag_boolValue (b : bool)
| flag_stringValue (s : string)
| commands_stringValue (s : string).

Definition FormatBool (b : bool) : string := if b then "true" else "false".

Definition ParseBool (s : string) : option bool :=
  if existsb (String.eqb s) ["1"; "t"; "T"; "TRUE"; "true"; "True"] then Some true
  else if existsb (String.eqb s) ["0"; "f"; "F"; "FALSE"; "false"; "False"] then Some false
  else None.

Definition Value_String (v : Value) : string :=
  match v with
  | flag_boolValue b => FormatBool b
  | flag_stringValue s => s
  | commands_stringValue s => s
  end.

(** [Set] stores through the pointer and returns an error; [boolValue.Set]
    stores [false] when the text does not parse. *)
Definition Value_Set (v : Value) (s : string) : Value * option error :=
  match v with
  | flag_boolValue _ =>
      match ParseBool s with
      | Some b => (flag_boolValue b, None)
      | None => (flag_boolValue false, Some (ErrorString "parse error"))
      end
  | flag_stringValue _ => (flag_stringValue s, None)
  | commands_stringValue _ => (commands_stringValue s, None)
  end.

(** The interface [boolFlag]: only [*flag.boolValue] has [IsBoolFlag]. *)
Definition IsBoolFlag (v : Value) : bool :=
  match v with
  | flag_boolValue _ => true
  | _ => false
  end.


(** [reflect.New(typ.Elem())]: a zero value of the same dynamic type. *)
Definition zero_Value (v : Value) : Value :=
  match v with
  | flag_boolValue _ => flag_boolValue false
  | flag_stringValue _ => flag_stringValue ""
  | commands_stringValue _ => commands_stringValue ""
  end.

(** A [flag.Flag]; its [Name] is the key under which [formal] holds it. *)
Record Flag : Type := mkFlag {
  Flag_Usage : string;
  Flag_Value : Value;
  Flag_DefValue : string
}.

Definition Flag_set_Value (fl : Flag) (v : Value) : Flag :=
  {| Flag_Usage := Flag_Usage fl; Flag_Value := v; Flag_DefValue := Flag_DefValue fl |}.

(** A [flag.FlagSet]: [fs_args] are the arguments left after the flags. *)
Record FlagSet : Type := mkFlagSet {
  fs_name : string;
  fs_errorHandling : ErrorHandling;
  fs_formal : gmap string Flag;
  fs_args : list string;
  fs_output : Writer
}.

Definition FlagSet_set_args (f : FlagSet) (a : list string) : FlagSet :=
  {| fs_name := fs_name f; fs_errorHandling := fs_errorHandling f;
     fs_formal := fs_formal f; fs_args := a; fs_output := fs_output f |}.

Definition FlagSet_set_formal (f : FlagSet) (m : gmap string Flag) : FlagSet :=
  {| fs_name := fs_name f; fs_errorHandling := fs_errorHandling f;
     fs_formal := m; fs_args := fs_args f; fs_output := fs_output f |}.

(** The effect of [flag.Value.Set] through the pointer that [formal] holds. *)
Definition FlagSet_set_Value (f : FlagSet) (name : string) (flag : Flag) (v : Value) : FlagSet :=
  FlagSet_set_formal f (<[name := Flag_set_Value flag v]> (fs_formal f)).

(** The zero [FlagSet]: no name, [ContinueOnError]. *)
#[global] Instance FlagSet_inhabited : Inhabited FlagSet :=
  populate (mkFlagSet "" ContinueOnError ∅ [] None).

Definition NewFlagSet (name : string) (errorHandling : ErrorHandling) : FlagSet :=
  mkFlagSet name errorHandling ∅ [] None.

(** [FlagSet.Bool] / [BoolVar] and [FlagSet.String] / [StringVar], for a
    name that the flag set does not define yet ([Var] panics on a second
    definition).  The value of each flag has a storage of its own. *)
Definition FlagSet_Var (f : FlagSet) (value : Value) (name usage : string) : FlagSet :=
  FlagSet_set_formal f
    (<[name := mkFlag usage value (Value_String value)]> (fs_formal f)).

Definition FlagSet_Bool (f : FlagSet) (name : string) (value : bool) (usage : string) : FlagSet :=
  FlagSet_Var f (flag_boolValue value) name usage.

Definition FlagSet_String (f : FlagSet) (name value usage : string) : FlagSet :=
  FlagSet_Var f (flag_stringValue value) name usage.

Definition FlagSet_Args (f : FlagSet) : list string := fs_args f.

#[global] Instance Flag_inhabited : Inhabited Flag :=
  populate (mkFlag "" (flag_stringValue "") "").

(** The flags in lexicographical order of their names, as [VisitAll]
    visits them. *)
Definition sortFlags (formal : gmap string Flag) : list (string * Flag) :=
  (fun name => (name, formal !!! name)) <$>
    merge_sort String.le ((map_to_list formal).*1).

(** Position of the first [=] of [s], counted from [i]. *)
Fixpoint index_equals (s : string) (i : nat) : option nat :=
  match s with
  | EmptyString => None
  | String c s' => if Ascii.eqb c "=" then Some i else index_equals s' (S i)
  end.

Definition string_drop (n : nat) (s : string) : string :=
  substring n (len s - n) s.

(** [name], [hasValue], [value]: the split of [-name=value] at the first
    [=] that is not the first byte. *)
Definition split_value (name : string) : string * bool * string :=
  match name with
  | EmptyString => (name, false, "")
  | String _ rest =>
      match index_equals rest 1 with
      | Some i => (substring 0 i name, true, string_drop (S i) name)
      | None => (name, false, "")
      end
  end.

Definition failf (msg : string) : option error := Some (ErrorString msg).

(** [FlagSet.parseOne]: the flag set after the call, whether a flag was
    seen, and the error.  A failure made by [failf] prints the message to
    the output of the flag set and calls [usage]; the help request
    [-h] / [-help] of an undefined flag calls [usage] only.  Both happen in
    [FlagSet_Parse] below. *)
Definition parseOne (f : FlagSet) : FlagSet * bool * option error :=
  match fs_args f with
  | [] => (f, false, None)
  | s :: rest =>
      match s with
      | String "-" (String c1 _) =>
          let numMinuses := if Ascii.eqb c1 "-" then 2 else 1 in
          if Ascii.eqb c1 "-" && (len s =? 2)%nat then
            (FlagSet_set_args f rest, false, None)
          else
            let name := string_drop numMinuses s in
            match name with
            | EmptyString => (f, false, failf ("bad flag syntax: " +:+ s))
            | String n0 _ =>
                if Ascii.eqb n0 "-" || Ascii.eqb n0 "=" then
                  (f, false, failf ("bad flag syntax: " +:+ s))
                else
                  let f := FlagSet_set_args f rest in
                  let '(name, hasValue, value) := split_value name in
                  match fs_formal f !! name with
                  | None =>
                      if String.eqb name "help" || String.eqb name "h" then
                        (f, false, Some ErrHelp)
                      else
                        (f, false, failf ("flag provided but not defined: -" +:+ name))
                  | Some flag =>
                      if IsBoolFlag (Flag_Value flag) then
                        if hasValue then
                          let '(v, err) := Value_Set (Flag_Value flag) value in
                          let f := FlagSet_set_Value f name flag v in
                          match err with
                          | Some e =>
                              (f, false,
                               failf ("invalid boolean value " +:+ Quote value +:+
                                      " for -" +:+ name +:+ ": " +:+ error_Error e))
                          | None => (f, true, None)
                          end
                        else
                          let '(v, err) := Value_Set (Flag_Value flag) "true" in
                          let f := FlagSet_set_Value f name flag v in
                          match err with
                          | Some e =>
                              (f, false,
                               failf ("invalid boolean flag " +:+ name +:+ ": " +:+ error_Error e))
                          | None => (f, true, None)
                          end
                      else
                        let '(f, hasValue, value) :=
                          match hasValue, fs_args f with
                          | false, v :: rest' => (FlagSet_set_args f rest', true, v)
                          | _, _ => (f, hasValue, value)
                          end in
                        if negb hasValue then
                          (f, false, failf ("flag needs an argument: -" +:+ name))
                        else
                          let '(v, err) := Value_Set (Flag_Value flag) value in
                          let f := FlagSet_set_Value f name flag v in
                          match err with
                          | Some e =>
                              (f, false,
                               failf ("invalid value " +:+ Quote value +:+ " for flag -" +:+
                                      name +:+ ": " +:+ error_Error e))
                          | None => (f, true, None)
                          end
                  end
            end
      | _ => (f, false, None)
      end
  end.

(** The loop of [FlagSet.Parse]: [parseOne] until no flag is seen. *)
Fixpoint parseLoop (fuel : nat) (f : FlagSet) : FlagSet * option error :=
  match fuel with
  | O => (f, None)
  | S fuel' =>
      match parseOne f with
      | (f', true, _) => parseLoop fuel' f'
      | (f', false, err) => (f', err)
      end
  end.

(** Every round that sees a flag consumes an argument, so one round more
    than there are arguments is enough ([parseLoop_fuel] below). *)
Definition parseAll (f : FlagSet) (arguments : list string) : FlagSet * option error :=
  parseLoop (S (length arguments)) (FlagSet_set_args f arguments).

(** [flag.UnquoteUsage]: a back-quoted name in the usage text, or else a
    name for the type of the value. *)
Definition BQ : ascii := ascii_of_nat 96.

Fixpoint index_byte (s : string) (c : ascii) (i : nat) : option nat :=
  match s with
  | EmptyString => None
  | String d s' => if Ascii.eqb d c then Some i else index_byte s' c (S i)
  end.

Definition UnquoteUsage (fl : Flag) : string * string :=
  let usage := Flag_Usage fl in
  let byType :=
    match Flag_Value fl with
    | flag_boolValue _ => ""
    | flag_stringValue _ => "string"
    | commands_stringValue _ => "value"
    end in
  match index_byte usage BQ 0 with
  | Some i =>
      match index_byte (string_drop (S i) usage) BQ (S i) with
      | Some j =>
          let name := substring (S i) (j - S i) usage in
          (name, substring 0 i usage +:+ name +:+ string_drop (S j) usage)
      | None => (byType, usage)
      end
  | None => (byType, usage)
  end.

(** ** Package [commands]: [command.go] *)

Definition ExitCodeSuccess : Z := 0.
Definition ExitCodeFailure : Z := 1.
Definition ExitCodeSerious : Z := 2.

(** How a Go call ends. *)
Inductive Result (A : Type) : Type :=
| Ok (a : A)
| Panic (v : string)
| Exit (code : Z)
| StackOverflow.
Arguments Ok {A} a.
Arguments Panic {A} v.
Arguments Exit {A} code.
Arguments StackOverflow {A}.

Definition nilDereference : string :=
  "runtime error: invalid memory address or nil pointer dereference".

(** What a handler receives besides [context.TODO()] and [os.Getenv], which
    are the same at every call: [cmd.stdout], the parsed flag set,
    [cmd.stdin] and [cmd.stderr].  A handler is a function of these to the
    way its call ends; what it reads and writes on the streams is outside
    the model, and it does not call back into the package. *)
Record HandlerInput : Type := mkHandlerInput {
  h_stdout : Writer;
  h_fs : FlagSet;
  h_stdin : Reader;
  h_stderr : Writer
}.

Definition CommandFunc : Type := HandlerInput -> Result (Z * option error).

(** The struct [Command].  [Flags], [parent] and the values of [children]
    are pointers: addresses into the stores of [World]. *)
Record Command : Type := mkCommand {
  Name : string;
  Func : option CommandFunc;
  Usage : string;
  Short : string;
  Long : string;
  Flags : option nat;
  parent : option nat;
  children : gmap string nat;
  longestName : nat;
  stdin : Reader;
  stdout : Writer;
  stderr : Writer
}.

(** [Command{}] *)
#[global] Instance Command_inhabited : Inhabited Command :=
  populate (mkCommand "" None "" "" "" None None ∅ 0 None None None).

Definition Command_set_streams (c : Command) (i : Reader) (o e : Writer) : Command :=
  {| Name := Name c; Func := Func c; Usage := Usage c; Short := Short c;
     Long := Long c; Flags := Flags c; parent := parent c;
     children := children c; longestName := longestName c;
     stdin := i; stdout := o; stderr := e |}.

Definition Command_set_parent (c : Command) (p : option nat) : Command :=
  {| Name := Name c; Func := Func c; Usage := Usage c; Short := Short c;
     Long := Long c; Flags := Flags c; parent := p;
     children := children c; longestName := longestName c;
     stdin := stdin c; stdout := stdout c; stderr := stderr c |}.

Definition Command_set_children (c : Command) (m : gmap string nat) (n : nat) : Command :=
  {| Name := Name c; Func := Func c; Usage := Usage c; Short := Short c;
     Long := Long c; Flags := Flags c; parent := parent c;
     children := m; longestName := n;
     stdin := stdin c; stdout := stdout c; stderr := stderr c |}.

Definition Command_set_text (c : Command) (short long : string) : Command :=
  {| Name := Name c; Func := Func c; Usage := Usage c; Short := short;
     Long := long; Flags := Flags c; parent := parent c;
     children := children c; longestName := longestName c;
     stdin := stdin c; stdout := stdout c; stderr := stderr c |}.

(** What the program does to the outside, newest first: a write of
    [fmt.Fprint] / [fmt.Fprintln] to a stream, and the call of a handler. *)
Inductive Event : Type :=
| EvWrite (w : Stream) (text : string)
| EvCall (cmd : nat) (input : HandlerInput).

Record World : Type := mkWorld {
  cmds : gmap nat Command;
  fsets : gmap nat FlagSet;
  trace : list Event;
  os_Args : list string
}.

Definition World_set_cmds (w : World) (m : gmap nat Command) : World :=
  {| cmds := m; fsets := fsets w; trace := trace w; os_Args := os_Args w |}.
Definition World_set_fsets (w : World) (m : gmap nat FlagSet) : World :=
  {| cmds := cmds w; fsets := m; trace := trace w; os_Args := os_Args w |}.
Definition World_emit (w : World) (e : Event) : World :=
  {| cmds := cmds w; fsets := fsets w; trace := e :: trace w; os_Args := os_Args w |}.

(** Computations over the world. *)
Definition M (A : Type) : Type := World -> Result A * World.

Definition ret {A} (a : A) : M A := fun w => (Ok a, w).

Definition bind {A B} (m : M A) (k : A -> M B) : M B := fun w =>
  match m w with
  | (Ok a, w') => k a w'
  | (Panic v, w') => (Panic v, w')
  | (Exit code, w') => (Exit code, w')
  | (StackOverflow, w') => (StackOverflow, w')
  end.

Notation "'let!' x ':=' m 'in' k" := (bind m (fun x => k))
  (at level 10, x pattern, m at level 100, k at level 200).
Notation "m ';;;' k" := (bind m (fun _ => k))
  (at level 100, k at level 200, right associativity).

Definition panic {A} (v : string) : M A := fun w => (Panic v, w).
Definition os_Exit {A} (code : Z) : M A := fun w => (Exit code, w).
Definition getCommand (cmd : nat) : M Command := fun w => (Ok (cmds w !!! cmd), w).
Definition putCommand (cmd : nat) (c : Command) : M unit := fun w =>
  (Ok tt, World_set_cmds w (<[cmd := c]> (cmds w))).
Definition emit (e : Event) : M unit := fun w => (Ok tt, World_emit w e).

(** [fmt.Fprint(w, text)]: a nil writer is a nil dereference. *)
Definition Fprint (w : Writer) (text : string) : M unit :=
  match w with
  | None => panic nilDereference
  | Some s => emit (EvWrite s text)
  end.

(** The singleton [root]. *)
Definition root : nat := 0.

(** ** [help.go] *)

(** [getNames] follows the parent pointers.  A chain of parents that does
    not end makes the Go function recurse until the stack overflows: that
    is the result [None].  A chain that ends visits no command twice, so it
    is no longer than the store has commands, plus one
    ([getNames_fuel_enough] below). *)
Fixpoint getNames_fuel (fuel : nat) (h : gmap nat Command) (cmd : nat) : option (list string) :=
  match fuel with
  | O => None
  | S fuel' =>
      match parent (h !!! cmd) with
      | None => Some [Name (h !!! cmd)]
      | Some p => (fun l => l ++ [Name (h !!! cmd)]) <$> getNames_fuel fuel' h p
      end
  end.

Definition getNames (h : gmap nat Command) (cmd : nat) : option (list string) :=
  getNames_fuel (S (size h)) h cmd.

(** [isZeroValue] *)
Definition isZeroValue (fl : Flag) (value : string) : bool :=
  String.eqb value (Value_String (zero_Value (Flag_Value fl))).

(** The type assertion of [flagHelp] on [fl.Value]: a pointer to
    [stringValue], and the [stringValue] in scope is the one declared in
    [help.go]. *)
Definition is_commands_stringValue (v : Value) : bool :=
  match v with
  | commands_stringValue _ => true
  | _ => false
  end.

(** The suffix that [flagHelp] writes after the usage text of a flag. *)
Definition defaultSuffix (fl : Flag) : string :=
  if negb (isZeroValue fl (Flag_DefValue fl)) then
    if is_commands_stringValue (Flag_Value fl) then
      " (default " +:+ Quote (Flag_DefValue fl) +:+ ")"
    else
      " (default " +:+ Flag_DefValue fl +:+ ")"
  else "".

(** The body of the closure given to [VisitAll]; [b] is the builder.
    [flagHelp_head] is what the closure writes before the suffix. *)
Definition flagHelp_head (b : string) (flName : string) (fl : Flag) : string :=
  let b := b +:+ "  -" +:+ flName in
  let '(name, usage) := UnquoteUsage fl in
  let b := if (0 <? len name)%nat then b +:+ " " +:+ name else b in
  let b := if (len b <=? 4)%nat then b +:+ tab else b +:+ "    " +:+ tab in
  b +:+ ReplaceAll usage NL (nl +:+ "    " +:+ tab).

Definition flagHelp_visit (b : string) (nf : string * Flag) : string :=
  let '(flName, fl) := nf in
  let b := flagHelp_head b flName fl in
  let b := b +:+ defaultSuffix fl in
  b +:+ nl.

Definition flagHelp (f : option FlagSet) : string :=
  match f with
  | None => ""
  | Some fs => foldl flagHelp_visit "" (sortFlags (fs_formal fs))
  end.

(** [sort.Strings] *)
Definition sort_Strings (l : list string) : list string := merge_sort String.le l.

(** One line of the commands block; [None] when [cmd.children[k]] is nil. *)
Definition commandLine (h : gmap nat Command) (c : Command) (k : string) : option string :=
  match children c !! k with
  | None => None
  | Some a =>
      let child := h !!! a in
      let short := TrimSuffix (Short child) "." in
      Some ("  " +:+ padRight (longestName c) (Name child) +:+ " " +:+ short +:+ nl)
  end.

Fixpoint commandLines (h : gmap nat Command) (c : Command) (keys : list string) : option string :=
  match keys with
  | [] => Some ""
  | k :: rest =>
      match commandLine h c k, commandLines h c rest with
      | Some l, Some ls => Some (l +:+ ls)
      | _, _ => None
      end
  end.

(** The text that [showHelp] builds; [keys] is the slice filled by
    [for k := range cmd.children], in the order of that iteration, and
    [fs] the flag set behind [cmd.Flags]. *)
Definition helpResult (h : gmap nat Command) (fs : option FlagSet) (names : string)
    (c : Command) (keys : list string) : option string :=
  let result := Short c +:+ nl +:+ nl +:+ "Usage:" +:+ nl +:+ "  " +:+ names in
  let result := if negb (String.eqb (Usage c) "") then result +:+ " " +:+ Usage c else result in
  let result := if (0 <? length keys)%nat then result +:+ " <command>" else result in
  let result := result +:+ nl in
  let help := flagHelp fs in
  let result :=
    if negb (String.eqb help "") then result +:+ nl +:+ "Flags:" +:+ nl +:+ help
    else result in
  let helpText := TrimSpace (Long c) in
  let tail :=
    if negb (String.eqb helpText "") then nl +:+ helpText +:+ nl else "" in
  if (0 <? length keys)%nat then
    match commandLines h c (sort_Strings keys) with
    | None => None
    | Some ls =>
        Some (result +:+ nl +:+ "Commands:" +:+ nl +:+ ls +:+ nl +:+ "Use '" +:+ names +:+
              " help <command>' for more information about a command." +:+ nl +:+ tail)
    end
  else Some (result +:+ tail).

Definition showHelp_range (keys : list string) (cmd : nat) : M unit := fun w =>
  let c := cmds w !!! cmd in
  match getNames (cmds w) cmd with
  | None => (StackOverflow, w)
  | Some ns =>
      let fs := (fun a => fsets w !!! a) <$> Flags c in
      match helpResult (cmds w) fs (Join ns " ") c keys with
      | None => (Panic nilDereference, w)
      | Some result => Fprint (stdout c) result w
      end
  end.

(** [showHelp]: the keys come out of the map in an order that Go leaves
    open; the order in which the model lists them is immaterial
    ([helpResult_range_order] below). *)
Definition showHelp (cmd : nat) : M unit := fun w =>
  showHelp_range ((map_to_list (children (cmds w !!! cmd))).*1) cmd w.

Definition helpForCommand (cmd : nat) (fl : FlagSet) : M (Z * option error) :=
  let args := FlagSet_Args fl in
  let args :=
    match args with
    | a0 :: rest => if String.eqb a0 "help" then rest else args
    | [] => args
    end in
  if (2 <? length args)%nat then
    showHelp cmd ;;;
    ret (ExitCodeSerious, Some (ErrorString "can only give help with one command"))
  else
    match args with
    | [] => showHelp cmd ;;; ret (ExitCodeSuccess, None)
    | a0 :: _ =>
        let! c := getCommand cmd in
        match children c !! a0 with
        | None =>
            showHelp cmd ;;;
            ret (ExitCodeSerious, Some (ErrorString ("unknown command: " +:+ a0)))
        | Some subcommand =>
            showHelp subcommand ;;; ret (ExitCodeSuccess, None)
        end
    end.

(** ** [FlagSet.Parse] on the world.  [ref] is where the flag set lives
    ([None] for a flag set that only the caller holds) and [usage] the
    function installed as [fs.Usage]. *)
Definition getFlagSet (a : nat) : M FlagSet := fun w => (Ok (fsets w !!! a), w).

Definition putFlagSet (ref : option nat) (f : FlagSet) : M unit := fun w =>
  match ref with
  | Some a => (Ok tt, World_set_fsets w (<[a := f]> (fsets w)))
  | None => (Ok tt, w)
  end.

(** [FlagSet.Output]: [os.Stderr] unless an output was set. *)
Definition FlagSet_Output (f : FlagSet) : Stream := default os_Stderr (fs_output f).

Definition FlagSet_Parse (usage : M unit) (ref : option nat) (f : FlagSet)
    (arguments : list string) : M (FlagSet * option error) :=
  let '(f', err) := parseAll f arguments in
  putFlagSet ref f' ;;;
  match err with
  | None => ret (f', None)
  | Some e =>
      match e with
      | ErrorString msg => emit (EvWrite (FlagSet_Output f') (msg +:+ nl))
      | ErrHelp => ret tt
      end ;;;
      usage ;;;
      match fs_errorHandling f' with
      | ContinueOnError => ret (f', Some e)
      | ExitOnError =>
          match e with
          | ErrHelp => os_Exit 0%Z
          | ErrorString _ => os_Exit 2%Z
          end
      | PanicOnError => panic (error_Error e)
      end
  end.

(** ** [command.go] *)

(** [var commandNameRegex]: the pattern is the alternation of
    [^[a-z0-9]$] and [^G+[a-z0-9]$], where [G] stands for the
    parenthesised group [[a-z0-9]+-?[a-z0-9]*]. *)
Definition lower_alnum : regex := RClass [("a", "z"); ("0", "9")]%char.

Definition name_group : regex :=
  RCat (RPlus lower_alnum) (RCat (ROpt (RLit "-")) (RStar lower_alnum)).

Definition commandNameRegex : regex :=
  RAlt (RCat RBol (RCat lower_alnum REol))
       (RCat RBol (RCat (RPlus name_group) (RCat lower_alnum REol))).

(** The assignments [cmd.stdin = cmd.parent.stdin] and so on. *)
Definition inheritStreams (cmd : nat) : M unit :=
  let! c := getCommand cmd in
  match parent c with
  | None => ret tt
  | Some p =>
      let! pc := getCommand p in
      putCommand cmd (Command_set_streams c (stdin pc) (stdout pc) (stderr pc))
  end.

(** [cmd.Func(context.TODO(), cmd.stdout, fs, os.Getenv, cmd.stdin, cmd.stderr)] *)
Definition callFunc (cmd : nat) (f : CommandFunc) (fs : FlagSet) : M (Z * option error) :=
  let! c := getCommand cmd in
  let input := mkHandlerInput (stdout c) fs (stdin c) (stderr c) in
  emit (EvCall cmd input) ;;;
  fun w => (f input, w).

Definition hasNoFunc (c : Command) : bool :=
  match Func c with
  | None => true
  | Some _ => false
  end.

(** Lines 126 to 133 of [Execute]: the flag set of the node, or an empty
    one made for the call, gets [showHelp] of the node as its [Usage] and
    parses the arguments. *)
Definition parseFlags (cmd : nat) (arguments : list string) : M (FlagSet * option error) :=
  let! c := getCommand cmd in
  match Flags c with
  | Some a =>
      let! fs := getFlagSet a in
      FlagSet_Parse (showHelp cmd) (Some a) fs arguments
  | None =>
      FlagSet_Parse (showHelp cmd) None (NewFlagSet (Name c) ExitOnError) arguments
  end.

(** [Execute]: the recursive call is on [args[1:]]. *)
Fixpoint Execute (args : list string) (cmd : nat) {struct args} : M (Z * option error) :=
  match args with
  | [] =>
      let! c := getCommand cmd in
      panic ("invalid execute " +:+ Quote (Name c))
  | _ :: args1 =>
      let! c := getCommand cmd in
      if (size (children c) =? 0)%nat && hasNoFunc c then
        panic ("invalid command " +:+ Quote (Name c))
      else
        inheritStreams cmd ;;;
        let! r := parseFlags cmd args1 in
        match r with
        | (_, Some err) => ret (ExitCodeSerious, Some err)
        | (fs, None) =>
            match args1 with
            | [] =>
                match Func c with
                | Some f => callFunc cmd f fs
                | None => helpForCommand cmd fs
                end
            | a1 :: _ =>
                if String.eqb a1 "help" then helpForCommand cmd fs
                else
                  match children c !! a1 with
                  | None =>
                      match Func c with
                      | Some f => callFunc cmd f fs
                      | None => helpForCommand cmd fs
                      end
                  | Some subcommand => Execute args1 subcommand
                  end
            end
        end
  end.

(** [(c *Command) RegisterChild(cmd)].  A nil [children] map reads as the
    empty map, so [make] shows only in the insertion. *)
Definition RegisterChild (c cmd : nat) : M unit :=
  let! child := getCommand cmd in
  if String.eqb (Name child) "" then panic "command name is required"
  else if String.eqb (Short child) "" then panic "command short string is required"
  else
    let! p := getCommand c in
    match children p !! Name child with
    | Some _ => panic ("command already registered: " +:+ Name child)
    | None =>
        if negb (MatchString commandNameRegex (Name child)) then
          panic "invalid command name"
        else
          putCommand cmd (Command_set_parent child (Some c)) ;;;
          let! p := getCommand c in
          putCommand c
            (Command_set_children p (<[Name child := cmd]> (children p))
               (if (longestName p <? len (Name child))%nat then len (Name child)
                else longestName p))
    end.

Definition Command_set_Short (c : Command) (s : string) : Command :=
  Command_set_text c s (Long c).
Definition Command_set_Long (c : Command) (s : string) : Command :=
  Command_set_text c (Short c) s.

(** The functions of the package that act on [root]. *)
Module Root.

Definition Short (s : string) : M unit :=
  let! r := getCommand root in putCommand root (Command_set_Short r s).

Definition Long (s : string) : M unit :=
  let! r := getCommand root in putCommand root (Command_set_Long r s).

Definition Stdin (r : Reader) : M unit :=
  let! c := getCommand root in
  putCommand root (Command_set_streams c r (stdout c) (stderr c)).

Definition Stdout (w : Writer) : M unit :=
  let! c := getCommand root in
  putCommand root (Command_set_streams c (stdin c) w (stderr c)).

Definition Stderr (w : Writer) : M unit :=
  let! c := getCommand root in
  putCommand root (Command_set_streams c (stdin c) (stdout c) w).

Definition Run (args : list string) : M (Z * option error) := fun w =>
  Execute (if (length args =? 0)%nat then os_Args w else args) root w.

Definition RegisterChild (cmd : nat) : M unit := RegisterChild root cmd.

End Root.

(** ** [flag.go] *)

(** [FlagSet.Lookup]: nil for a name that the flag set does not define. *)
Definition FlagSet_Lookup (f : FlagSet) (name : string) : option Flag :=
  fs_formal f !! name.

(** [FlagString]: [f.Lookup(name).Value.String()]; the field access on the
    nil flag of an undefined name is a nil dereference. *)
Definition FlagString (f : FlagSet) (name : string) : Result string :=
  match FlagSet_Lookup f name with
  | None => Panic nilDereference
  | Some fl => Ok (Value_String (Flag_Value fl))
  end.

(** [FlagBool]: the error of [strconv.ParseBool] is dropped, and the value
    that comes with an error is [false]. *)
Definition FlagBool (f : FlagSet) (name : string) : Result bool :=
  match FlagString f name with
  | Ok s => Ok (default false (ParseBool s))
  | Panic v => Panic v
  | Exit code => Exit code
  | StackOverflow => StackOverflow
  end.

(** ** Notions used to state the properties *)

(** The name-format rule in the words of the specification: one lowercase
    alphanumeric character, or a run of lowercase alphanumeric characters
    and hyphens that neither starts nor ends with a hyphen and has no two
    hyphens next to each other. *)
Definition is_lower_alnum (c : ascii) : bool :=
  in_class c [("a", "z"); ("0", "9")]%char.

Definition is_hyphen (c : ascii) : bool := Ascii.eqb c "-".

Definition name_char (c : ascii) : Prop :=
  is_lower_alnum c = true \/ c = "-"%char.

Definition no_adjacent_hyphens (s : list ascii) : Prop :=
  forall i, ~ (s !! i = Some "-"%char /\ s !! S i = Some "-"%char).

Definition hyphen_run (s : list ascii) : Prop :=
  s <> [] /\ Forall name_char s /\
  head s <> Some "-"%char /\ last s <> Some "-"%char /\
  no_adjacent_hyphens s.

Definition valid_name (name : string) : Prop :=
  (exists c, name = String c EmptyString /\ is_lower_alnum c = true) \/
  hyphen_run (list_ascii_of_string name).

(** The automaton of the name format: nothing read yet, an alphanumeric
    character read last, a hyphen read last. *)
Inductive nstate : Type := NStart | NAlnum | NHyphen.

Definition nstep (q : nstate) (c : ascii) : option nstate :=
  if is_lower_alnum c then Some NAlnum
  else if is_hyphen c then
    match q with
    | NAlnum => Some NHyphen
    | _ => None
    end
  else None.

Fixpoint nrun (q : nstate) (s : list ascii) : option nstate :=
  match s with
  | [] => Some q
  | c :: s' =>
      match nstep q c with
      | Some q' => nrun q' s'
      | None => None
      end
  end.

Definition start_ok (q : nstate) (s : list ascii) : Prop :=
  match q with
  | NAlnum => True
  | _ => s <> [] /\ head s <> Some "-"%char
  end.

(** The handler calls of a trace, newest first. *)
Fixpoint calls (t : list Event) : list (nat * HandlerInput) :=
  match t with
  | [] => []
  | EvCall c i :: t' => (c, i) :: calls t'
  | EvWrite _ _ :: t' => calls t'
  end.

(** The texts written to a stream, newest first. *)
Fixpoint written (s : Stream) (t : list Event) : list string :=
  match t with
  | [] => []
  | EvWrite s' text :: t' => if (s' =? s)%nat then text :: written s t' else written s t'
  | EvCall _ _ :: t' => written s t'
  end.

(** The stream fields of a command. *)
Definition streams (c : Command) : Reader * Writer * Writer :=
  (stdin c, stdout c, stderr c).

Definition input_streams (i : HandlerInput) : Reader * Writer * Writer :=
  (h_stdin i, h_stdout i, h_stderr i).

(** Everything of a command but its streams. *)
Definition same_but_streams (c c' : Command) : Prop :=
  Command_set_streams c' (stdin c) (stdout c) (stderr c) = c.

(** The parent pointers agree with the children maps. *)
Definition linked (h : gmap nat Command) : Prop :=
  forall a k b, children (h !!! a) !! k = Some b -> parent (h !!! b) = Some a.

(** The precondition that [Execute] checks on the node. *)
Definition runnable (c : Command) : bool :=
  negb ((size (children c) =? 0)%nat && hasNoFunc c).

(** The world after a registration that is accepted. *)
Definition registered (c cmd : nat) (w : World) : World :=
  let child := cmds w !!! cmd in
  let h1 := <[cmd := Command_set_parent child (Some c)]> (cmds w) in
  let p := h1 !!! c in
  World_set_cmds (World_set_cmds w h1)
    (<[c := Command_set_children p (<[Name child := cmd]> (children p))
              (if (longestName p <? len (Name child))%nat then len (Name child)
               else longestName p)]> h1).


(** The world once a command has taken the streams of its parent. *)
Definition inherited (cmd : nat) (w : World) : World :=
  match parent (cmds w !!! cmd) with
  | None => w
  | Some p =>
      World_set_cmds w
        (<[cmd := Command_set_streams (cmds w !!! cmd)
                    (stdin (cmds w !!! p)) (stdout (cmds w !!! p))
                    (stderr (cmds w !!! p))]> (cmds w))
  end.

(** A step that leaves the commands alone and calls no handler. *)
Definition quiet (w w' : World) : Prop :=
  cmds w' = cmds w /\ calls (trace w') = calls (trace w).

(** The world once the events [evs], the newest first, have happened. *)
Definition World_emits (w : World) (evs : list Event) : World :=
  foldr (fun e w' => World_emit w' e) w evs.

(** A token that [parseOne] reads as a flag or as the terminator [--]: at
    least two bytes, the first a hyphen. *)
Definition is_flag_token (s : string) : bool :=
  match s with
  | String "-" (String _ _) => true
  | _ => false
  end.

(** The flag set that [Execute] parses for a node, and the world once the
    parsed flag set [f] is stored behind [cmd.Flags]. *)
Definition nodeFlagSet (w : World) (cmd : nat) : FlagSet :=
  match Flags (cmds w !!! cmd) with
  | Some a => fsets w !!! a
  | None => NewFlagSet (Name (cmds w !!! cmd)) ExitOnError
  end.

Definition storeFlagSet (w : World) (cmd : nat) (f : FlagSet) : World :=
  match Flags (cmds w !!! cmd) with
  | Some a => World_set_fsets w (<[a := f]> (fsets w))
  | None => w
  end.

(** The world in which a failed parse calls [usage]: the flag set is
    stored and the message of [failf] is written. *)
Definition failedParse (w : World) (cmd : nat) (f : FlagSet) (e : error) : World :=
  match e with
  | ErrHelp => storeFlagSet w cmd f
  | ErrorString msg =>
      World_emit (storeFlagSet w cmd f) (EvWrite (FlagSet_Output f) (msg +:+ nl))
  end.

(** The streams that a command has once it has inherited: those of its
    parent, or its own when it has none. *)
Definition effective_streams (w : World) (cmd : nat) : Reader * Writer * Writer :=
  match parent (cmds w !!! cmd) with
  | Some p => streams (cmds w !!! p)
  | None => streams (cmds w !!! cmd)
  end.

(** The ancestor [n] steps up the chain of parents, if the chain is that
    long. *)
Fixpoint ancestor (n : nat) (h : gmap nat Command) (cmd : nat) : option nat :=
  match n with
  | O => Some cmd
  | S n' =>
      match parent (h !!! cmd) with
      | Some p => ancestor n' h p
      | None => None
      end
  end.

(** No child has a name longer than the field [longestName] of a command
    that lists it. *)
Definition names_fit (h : gmap nat Command) : Prop :=
  forall a k b, children (h !!! a) !! k = Some b ->
    len (Name (h !!! b)) <= longestName (h !!! a).

(** Every child is listed under its own name, and the name has the name
    format. *)
Definition well_named (h : gmap nat Command) : Prop :=
  forall a k b, children (h !!! a) !! k = Some b ->
    Name (h !!! b) = k /\ valid_name k.

(** The text of the help of a command, when the chain of its parents
    ends. *)
Definition helpText_of (w : World) (cmd : nat) : option string :=
  ns ← getNames (cmds w) cmd;
  helpResult (cmds w) ((fun a => fsets w !!! a) <$> Flags (cmds w !!! cmd))
    (Join ns " ") (cmds w !!! cmd) ((map_to_list (children (cmds w !!! cmd))).*1).

(** The world in which [Execute] goes on when the arguments [args1] after
    the name of the node hold no flag: the node has inherited its streams
    and its flag set holds [args1] as the remaining arguments. *)
Definition parsed (w : World) (cmd : nat) (args1 : list string) : World :=
  storeFlagSet (inherited cmd w) cmd (FlagSet_set_args (nodeFlagSet w cmd) args1).

(** A name under which package [flag] defines a flag: not empty, no
    leading hyphen, no equals sign. *)
Definition flag_name (name : string) : bool :=
  match name with
  | EmptyString => false
  | String c s =>
      negb (Ascii.eqb c "-") && negb (Ascii.eqb c "=") &&
      match index_equals s 1 with
      | None => true
      | Some _ => false
      end
  end.

(** What the help of a flag reads of the flag: its usage text, its
    default text and the dynamic type of its value, which is the type of
    the zero value. *)
Definition same_help (fl fl' : Flag) : Prop :=
  Flag_Usage fl' = Flag_Usage fl /\ Flag_DefValue fl' = Flag_DefValue fl /\
  zero_Value (Flag_Value fl') = zero_Value (Flag_Value fl).

(** The same names are defined, with the same help. *)
Definition same_flags (m m' : gmap string Flag) : Prop :=
  forall n, option_Forall2 same_help (m !! n) (m' !! n).

(** The command reached from [cmd] by following the names of [path]
    through the children maps. *)
Fixpoint descend (h : gmap nat Command) (cmd : nat) (path : list string) : option nat :=
  match path with
  | [] => Some cmd
  | p :: path' =>
      match children (h !!! cmd) !! p with
      | Some sub => descend h sub path'
      | None => None
      end
  end.

(** ** Small programs, for the concrete runs below *)

Definition failing : CommandFunc :=
  fun _ => Ok (ExitCodeFailure, Some (ErrorString "failed")).

Definition succeeding : CommandFunc := fun _ => Ok (ExitCodeSuccess, None).

(** A flag set with the policy [ContinueOnError], a boolean flag [v] and a
    string flag [s] of package [flag] whose default is [abc]. *)
Definition x_flags : FlagSet :=
  FlagSet_String
    (FlagSet_Bool (NewFlagSet "x" ContinueOnError) "v" false "verbose")
    "s" "abc" "text to show".

(** [tree]: a root without handler and without flag set, with the streams
    of the process, and two registered children: [x], with a handler that
    fails and the flag set above, and a child named [help]. *)
Definition tree_unregistered : World :=
  mkWorld
    {[ 0 := mkCommand "prog" None "" "The root" "" None None ∅ 0
              (Some os_Stdin) (Some os_Stdout) (Some os_Stderr);
       1 := mkCommand "x" (Some failing) "[-v]" "Do x." "" (Some 0) None ∅ 0
              None None None;
       2 := mkCommand "help" (Some succeeding) "" "A child named help" "" None
              None ∅ 0 None None None ]}
    {[ 0 := x_flags ]} [] ["prog"].

Definition tree : World :=
  (RegisterChild root 2 (RegisterChild root 1 tree_unregistered).2).2.

(** [flat]: a root with a handler and the flag set above, and one child
    [x]. *)
Definition flat_unregistered : World :=
  mkWorld
    {[ 0 := mkCommand "prog" (Some succeeding) "" "The root" "" (Some 0) None ∅ 0
              (Some os_Stdin) (Some os_Stdout) (Some os_Stderr);
       1 := mkCommand "x" (Some failing) "" "Do x" "" None None ∅ 0
              None None None ]}
    {[ 0 := x_flags ]} [] ["prog"].

Definition flat : World := (RegisterChild root 1 flat_unregistered).2.

(** [group]: a root without handler that has the flag set above, and one
    child [x] with a handler. *)
Definition group_unregistered : World :=
  mkWorld
    {[ 0 := mkCommand "prog" None "" "The root" "" (Some 0) None ∅ 0
              (Some os_Stdin) (Some os_Stdout) (Some os_Stderr);
       1 := mkCommand "x" (Some failing) "" "Do x" "" None None ∅ 0
              None None None ]}
    {[ 0 := x_flags ]} [] ["prog"].

Definition group : World := (RegisterChild root 1 group_unregistered).2.

(** * Properties *)

(** ** The regular-expression matcher agrees with the declarative reading *)

Lemma nullable_matches b e r : nullable b e r = true <-> matches b e r [].
Proof.
  split.
  - induction r; simpl; intros H; try discriminate.
    + constructor.
    + subst. constructor.
    + subst. constructor.
    + apply andb_true_iff in H as [H1 H2].
      change (@nil ascii) with (@nil ascii ++ []).
      constructor; simpl; rewrite ?andb_true_r; auto.
    + apply orb_true_iff in H as [H|H]; [apply MAltL|apply MAltR]; auto.
    + constructor.
  - intros H. remember [] as s eqn:Es. induction H; simpl; try discriminate; auto.
    + apply app_eq_nil in Es as [-> ->]. simpl in *.
      rewrite !andb_true_r in *. rewrite IHmatches1, IHmatches2; auto.
    + rewrite IHmatches; auto.
    + rewrite IHmatches; auto. apply orb_true_r.
Qed.

Ltac inv_clear H := inversion H; subst; clear H.

Lemma deriv_matches r : forall b e x s,
  matches false e (deriv b x r) s <-> matches b e r (x :: s).
Proof.
  induction r as [| | | |d|l|r1 IHr1 r2 IHr2|r1 IHr1 r2 IHr2|r IHr]; intros b e x s; simpl.
  - split; intros H; inv_clear H.
  - split; intros H; inv_clear H.
  - split; intros H; inv_clear H.
  - split; intros H; inv_clear H.
  - split.
    + destruct (Ascii.eqb x d) eqn:E; intros H; inv_clear H.
      apply Ascii.eqb_eq in E. subst. constructor.
    + intros H; inv_clear H. rewrite Ascii.eqb_refl. constructor.
  - split.
    + destruct (in_class x l) eqn:E; intros H; inv_clear H.
      constructor; auto.
    + intros H; inv_clear H.
      match goal with H : in_class _ _ = true |- _ => rewrite H end. constructor.
  - split.
    + intros H. inv_clear H.
      * match goal with H : matches _ _ (RCat _ _) _ |- _ => inv_clear H end.
        simpl in *.
        match goal with H : matches _ _ (deriv _ _ _) _ |- _ => apply IHr1 in H end.
        change (x :: s1 ++ s2) with ((x :: s1) ++ s2).
        constructor; simpl; rewrite ?andb_false_r; auto.
      * destruct (nullable b false r1) eqn:N;
          [|match goal with H : matches _ _ RNone _ |- _ => inv_clear H end].
        match goal with H : matches _ _ (deriv _ _ _) _ |- _ => apply IHr2 in H end.
        apply nullable_matches in N.
        change (x :: s) with ([] ++ x :: s). constructor; simpl; auto.
        -- rewrite andb_false_r; auto.
        -- rewrite andb_true_r; auto.
    + intros H. inv_clear H.
      destruct s1 as [|c1 s1]; simpl in *.
      * subst. rewrite andb_false_r, andb_true_r in *.
        match goal with
        | H : matches _ false r1 [] |- _ => apply nullable_matches in H; rewrite H
        end.
        apply MAltR. apply IHr2; auto.
      * simplify_eq.
        apply MAltL. rewrite andb_false_r in *.
        constructor; simpl; auto. apply IHr1; auto.
  - split.
    + intros H; inv_clear H; [apply MAltL; apply IHr1|apply MAltR; apply IHr2]; auto.
    + intros H; inv_clear H; [apply MAltL; apply IHr1|apply MAltR; apply IHr2]; auto.
  - split.
    + intros H; inv_clear H. simpl in *.
      match goal with H : matches _ _ (deriv _ _ _) _ |- _ => apply IHr in H end.
      constructor; auto.
    + intros H; inv_clear H. constructor; simpl; auto.
      apply IHr; auto.
Qed.

Lemma prefix_match_spec s : forall b r,
  prefix_match b r s = true <->
  exists m post, s = m ++ post /\ matches b (is_nil post) r m.
Proof.
  induction s as [|c s IH]; intros b r; simpl.
  - rewrite orb_false_r, nullable_matches. split.
    + intros H. exists [], []. auto.
    + intros (m & post & E & H). symmetry in E. apply app_eq_nil in E as [-> ->]. auto.
  - rewrite orb_true_iff, nullable_matches, IH. split.
    + intros [H|(m & post & -> & H)].
      * exists [], (c :: s). auto.
      * exists (c :: m), post. split; auto. apply deriv_matches; auto.
    + intros (m & post & E & H). destruct m as [|c' m]; simpl in E.
      * subst post. left; auto.
      * injection E as <- ->. right. exists m, post. split; auto.
        apply deriv_matches; auto.
Qed.

Lemma search_spec s : forall b r,
  search b r s = true <->
  exists pre m post, s = pre ++ m ++ post /\ matches (b && is_nil pre) (is_nil post) r m.
Proof.
  induction s as [|c s IH]; intros b r; cbn [search];
    rewrite orb_true_iff, prefix_match_spec.
  - split.
    + intros [(m & post & E & H)|?]; [|discriminate].
      exists [], m, post. simpl. rewrite andb_true_r. auto.
    + intros (pre & m & post & E & H). left.
      destruct pre; [|discriminate]. simpl in *. rewrite andb_true_r in H. eauto.
  - rewrite IH. split.
    + intros [(m & post & E & H)|(pre & m & post & -> & H)].
      * exists [], m, post. simpl. rewrite andb_true_r. auto.
      * exists (c :: pre), m, post. simpl. rewrite andb_false_r. auto.
    + intros (pre & m & post & E & H). destruct pre as [|c' pre]; simpl in *.
      * rewrite andb_true_r in H. left. eauto.
      * simplify_eq. rewrite andb_false_r in H. right. eauto.
Qed.


Lemma matches_anchor_free b e r s :
  matches b e r s -> anchor_free r = true -> forall b' e', matches b' e' r s.
Proof.
  induction 1; simpl; intros F b' e'; try discriminate;
    try (apply andb_true_iff in F as [F1 F2]); try (constructor; by auto).
Qed.

Lemma matches_star_unfold b e r c s :
  matches b e (RStar r) (c :: s) -> matches b e (RPlus r) (c :: s).
Proof.
  intros H. inv_clear H. unfold RPlus.
  change (c :: s1 ++ s2) with ((c :: s1) ++ s2).
  constructor; simpl; rewrite ?andb_false_r; auto.
Qed.


(** ** The name format *)

Example name_ok_1 : MatchString commandNameRegex "a" = true. Proof. reflexivity. Qed.
Example name_ok_2 : MatchString commandNameRegex "ab-c9-d" = true. Proof. reflexivity. Qed.
Example name_ok_3 : MatchString commandNameRegex "help" = true. Proof. reflexivity. Qed.
Example name_bad_1 : MatchString commandNameRegex "" = false. Proof. reflexivity. Qed.
Example name_bad_2 : MatchString commandNameRegex "-a" = false. Proof. reflexivity. Qed.
Example name_bad_3 : MatchString commandNameRegex "a-" = false. Proof. reflexivity. Qed.
Example name_bad_4 : MatchString commandNameRegex "a--b" = false. Proof. reflexivity. Qed.
Example name_bad_5 : MatchString commandNameRegex "Ab" = false. Proof. reflexivity. Qed.
Example name_bad_6 : MatchString commandNameRegex "a b" = false. Proof. reflexivity. Qed.
Example name_bad_7 : MatchString commandNameRegex "-" = false. Proof. reflexivity. Qed.


Lemma nrun_app s1 : forall q s2,
  nrun q (s1 ++ s2) = match nrun q s1 with Some q' => nrun q' s2 | None => None end.
Proof.
  induction s1 as [|c s1 IH]; intros q s2; simpl; [done|].
  destruct (nstep q c); auto.
Qed.

Lemma nstep_alnum q c : is_lower_alnum c = true -> nstep q c = Some NAlnum.
Proof. unfold nstep. by intros ->. Qed.

Lemma alnum_not_hyphen c : is_lower_alnum c = true -> c <> "-"%char.
Proof. intros H ->. discriminate. Qed.

Lemma lower_alnum_inv b e s :
  matches b e lower_alnum s -> exists c, s = [c] /\ is_lower_alnum c = true.
Proof. intros H. inv_clear H. eauto. Qed.

Lemma star_alnum_run b e s :
  matches b e (RStar lower_alnum) s ->
  forall q, nrun q s = Some (if is_nil s then q else NAlnum).
Proof.
  intros H. remember (RStar lower_alnum) as r eqn:Er.
  induction H; try discriminate; intros q; simplify_eq; [done|].
  apply lower_alnum_inv in H as (c' & ? & Hc). simplify_eq. simpl.
  rewrite (nstep_alnum _ _ Hc), IHmatches2 by done. by destruct s2.
Qed.

Lemma group_run b e s :
  matches b e name_group s -> forall q, is_Some (nrun q s).
Proof.
  intros H q. inv_clear H.
  match goal with H : matches _ _ (RPlus _) _ |- _ => inv_clear H end.
  match goal with H : matches _ _ lower_alnum _ |- _ =>
    apply lower_alnum_inv in H as (c & -> & Hc) end.
  match goal with H : matches _ _ (RCat (ROpt _) _) _ |- _ => inv_clear H end.
  simpl. rewrite (nstep_alnum _ _ Hc).
  rewrite !nrun_app.
  match goal with H : matches _ _ (ROpt _) _ |- _ => inv_clear H end;
  match goal with H : matches _ _ REps _ |- _ => inv_clear H
                | H : matches _ _ (RLit _) _ |- _ => inv_clear H end; simpl;
  repeat match goal with H : matches _ _ (RStar lower_alnum) ?s |- context [nrun ?q ?s] =>
    rewrite (star_alnum_run _ _ _ H q) end.
  - replace (if is_nil _ then NAlnum else NAlnum) with NAlnum
      by (by match goal with |- context [is_nil ?s] => destruct s end).
    simpl.
    repeat match goal with H : matches _ _ (RStar lower_alnum) ?s |- context [nrun ?q ?s] =>
      rewrite (star_alnum_run _ _ _ H q) end.
    eauto.
  - eauto.
Qed.

Lemma star_group_run b e s :
  matches b e (RStar name_group) s -> forall q, is_Some (nrun q s).
Proof.
  intros H. remember (RStar name_group) as r eqn:Er.
  induction H; try discriminate; intros q; simplify_eq; [by eexists|].
  change (c :: s1 ++ s2) with ((c :: s1) ++ s2). rewrite nrun_app.
  destruct (group_run _ _ _ H q) as [q1 ->]. by apply IHmatches2.
Qed.

Ltac inv_matches :=
  repeat match goal with
  | H : matches _ _ (RCat _ _) _ |- _ => inv_clear H
  | H : matches _ _ (RAlt _ _) _ |- _ => inv_clear H
  | H : matches _ _ (RPlus _) _ |- _ => inv_clear H
  | H : matches _ _ (ROpt _) _ |- _ => inv_clear H
  | H : matches _ _ RBol _ |- _ => inv_clear H
  | H : matches _ _ REol _ |- _ => inv_clear H
  | H : matches _ _ REps _ |- _ => inv_clear H
  | H : matches _ _ (RLit _) _ |- _ => inv_clear H
  | H : matches _ _ lower_alnum _ |- _ =>
      apply lower_alnum_inv in H as (? & -> & ?)
  end.

Lemma regex_sound b e s :
  matches b e commandNameRegex s -> b = true /\ e = true /\ nrun NStart s = Some NAlnum.
Proof.
  intros H. unfold commandNameRegex in H. inv_matches.
  - simpl in *. rewrite nstep_alnum by done.
    repeat match goal with H : _ && _ = true |- _ => apply andb_true_iff in H as [? ?] end.
    done.
  - simpl. rewrite !nrun_app.
    match goal with H : matches _ _ name_group ?s |- _ =>
      destruct (group_run _ _ _ H NStart) as [q1 ->] end.
    match goal with H : matches _ _ (RStar name_group) ?s |- _ =>
      destruct (star_group_run _ _ _ H q1) as [q2 ->] end.
    simpl in *. rewrite nstep_alnum by done.
    repeat match goal with H : _ && _ = true |- _ => apply andb_true_iff in H as [? ?] end.
    done.
Qed.

Lemma group_single b e c :
  is_lower_alnum c = true -> matches b e name_group [c].
Proof.
  intros Hc. apply (matches_anchor_free true true); [|done].
  change [c] with (([c] ++ []) ++ ([] ++ [])).
  repeat first [apply MCat | apply MAltR | apply MStarNil | apply MEps | by apply MClass].
Qed.

Lemma group_hyphen b e c :
  is_lower_alnum c = true -> matches b e name_group [c; "-"%char].
Proof.
  intros Hc. apply (matches_anchor_free true true); [|done].
  change [c; "-"%char] with (([c] ++ []) ++ (["-"%char] ++ [])).
  repeat first [apply MCat | apply MAltL, MLit | apply MStarNil | by apply MClass].
Qed.

Lemma nstep_Some_inv q c q' :
  nstep q c = Some q' ->
  (is_lower_alnum c = true /\ q' = NAlnum) \/
  (is_lower_alnum c = false /\ c = "-"%char /\ q = NAlnum /\ q' = NHyphen).
Proof.
  unfold nstep, is_hyphen. destruct (is_lower_alnum c); [naive_solver|].
  destruct (Ascii.eqb_spec c "-"); [|done]. destruct q; naive_solver.
Qed.

Lemma star_group_complete n : forall t q',
  length t <= n -> nrun NStart t = Some q' ->
  forall b e, matches b e (RStar name_group) t.
Proof.
  induction n as [|n IH]; intros t q' Hn Hrun b e.
  - destruct t; [constructor|simpl in Hn; lia].
  - destruct t as [|c t]; [constructor|]. simpl in Hn, Hrun.
    destruct (nstep NStart c) as [q1|] eqn:E1; [|done].
    apply nstep_Some_inv in E1 as [[Hc ->]|(_ & _ & ? & _)]; [|done].
    destruct t as [|d t].
    { change [c] with (c :: [] ++ []). constructor; [|constructor].
      by apply group_single. }
    simpl in Hrun. destruct (nstep NAlnum d) as [q2|] eqn:E2; [|done].
    apply nstep_Some_inv in E2 as [[Hd ->]|(Hd & -> & _ & ->)].
    + change (c :: d :: t) with (c :: [] ++ d :: t). constructor.
      * by apply group_single.
      * apply (IH _ q'); [simpl in *; lia|]. simpl. by rewrite nstep_alnum.
    + change (c :: "-"%char :: t) with (c :: ["-"%char] ++ t). constructor.
      * by apply group_hyphen.
      * destruct t as [|x t]; [constructor|].
        simpl in Hrun. destruct (nstep NHyphen x) as [q3|] eqn:E3; [|done].
        apply nstep_Some_inv in E3 as [[Hx ->]|(_ & _ & ? & _)]; [|done].
        apply (IH _ q'); [simpl in *; lia|]. simpl. by rewrite nstep_alnum.
Qed.

Lemma nrun_snoc_inv t c q :
  nrun q (t ++ [c]) = Some NAlnum ->
  is_lower_alnum c = true /\ is_Some (nrun q t).
Proof.
  rewrite nrun_app. destruct (nrun q t) as [q1|]; [|done]. simpl.
  destruct (nstep q1 c) as [q2|] eqn:E; [|done]. intros ?. simplify_eq.
  apply nstep_Some_inv in E as [[? _]|(_ & _ & _ & ?)]; [eauto|done].
Qed.

Lemma regex_complete s :
  nrun NStart s = Some NAlnum -> matches true true commandNameRegex s.
Proof.
  intros Hrun. destruct s as [|c0 s0]; [done|].
  destruct (exists_last (l:=c0 :: s0)) as (t & c & Es); [done|]. rewrite Es in *.
  clear Es c0 s0.
  apply nrun_snoc_inv in Hrun as [Hc [q Ht]].
  destruct t as [|d t].
  - apply MAltL. change ([] ++ [c]) with ([] ++ ([c] ++ [])).
    repeat first [apply MCat | apply MBol | apply MEol | by apply MClass].
  - apply MAltR.
    change ((d :: t) ++ [c]) with ([] ++ ((d :: t) ++ ([c] ++ []))).
    apply MCat; [apply MBol|]. apply MCat.
    + apply matches_star_unfold. by eapply star_group_complete.
    + apply MCat; [by apply MClass|apply MEol].
Qed.

Lemma MatchString_commandNameRegex name :
  MatchString commandNameRegex name = true <->
  nrun NStart (list_ascii_of_string name) = Some NAlnum.
Proof.
  unfold MatchString. rewrite search_spec. split.
  - intros (pre & m & post & -> & H).
    apply regex_sound in H as (Hb & He & Hrun).
    destruct pre; [|done]. destruct post; [|done]. by rewrite app_nil_r.
  - intros H. exists [], (list_ascii_of_string name), []. rewrite app_nil_r.
    split; [done|]. by apply regex_complete.
Qed.

Lemma no_adjacent_cons c s :
  no_adjacent_hyphens (c :: s) <->
  ~ (c = "-"%char /\ head s = Some "-"%char) /\ no_adjacent_hyphens s.
Proof.
  unfold no_adjacent_hyphens. split.
  - intros H. split.
    + intros [-> Hh]. apply (H 0). simpl. split; [done|]. by destruct s; simplify_eq/=.
    + intros i. apply (H (S i)).
  - intros [H0 H] [|i]; simpl; [|apply H].
    intros [? Hh]. apply H0. simplify_eq. split; [done|]. by destruct s.
Qed.

Lemma last_cons_ne (c : ascii) s :
  s <> [] -> last (c :: s) = last s.
Proof. by destruct s. Qed.

Lemma nrun_words s : forall q,
  nrun q s = Some NAlnum <->
  Forall name_char s /\ start_ok q s /\ last s <> Some "-"%char /\ no_adjacent_hyphens s.
Proof.
  induction s as [|c s IH]; intros q.
  - simpl. split.
    + intros ?. simplify_eq. repeat split; try done. intros i [Hi _]. by rewrite lookup_nil in Hi.
    + intros (_ & Hq & _). destruct q; simpl in Hq; naive_solver.
  - cbn [nrun]. rewrite no_adjacent_cons, Forall_cons.
    destruct (nstep q c) as [q1|] eqn:E.
    + rewrite IH. apply nstep_Some_inv in E as [[Hc ->]|(Hc & -> & -> & ->)].
      * pose proof (alnum_not_hyphen _ Hc) as Hne. split.
        -- intros (HF & _ & Hl & Hn). repeat split; try done.
           ++ by left.
           ++ destruct q; simpl; [|done|]; split; try done; simpl; congruence.
           ++ destruct s; simpl in *; congruence.
           ++ naive_solver.
        -- intros ((_ & HF) & _ & Hl & _ & Hn). repeat split; try done.
           destruct s; [done|]. by rewrite last_cons_ne in Hl.
      * simpl. split.
        -- intros (HF & [Hs Hh] & Hl & Hn). repeat split; try done.
           ++ by right.
           ++ by rewrite last_cons_ne.
           ++ naive_solver.
        -- intros ((_ & HF) & _ & Hl & Hh & Hn).
           assert (s <> []) as Hs by (intros ->; by apply Hl).
           rewrite last_cons_ne in Hl by done. naive_solver.
    + split; [done|]. intros ([Hc HF] & Hq & Hl & Hh & Hn). exfalso.
      unfold nstep, is_hyphen in E. destruct Hc as [Hc| ->].
      * by rewrite Hc in E.
      * simpl in E. destruct q; try done; simpl in Hq; naive_solver.
Qed.

Lemma string_single_inv name c :
  list_ascii_of_string name = [c] -> name = String c EmptyString.
Proof.
  intros H. rewrite <- (string_of_list_ascii_of_string name), H. done.
Qed.

Lemma commandNameRegex_valid_name name :
  MatchString commandNameRegex name = true <-> valid_name name.
Proof.
  rewrite MatchString_commandNameRegex, nrun_words. unfold valid_name, hyphen_run, start_ok.
  split.
  - intros (HF & [Hs Hh] & Hl & Hn). right. done.
  - intros [(c & -> & Hc)|(Hs & HF & Hh & Hl & Hn)]; [|done].
    pose proof (alnum_not_hyphen _ Hc). simpl.
    repeat split; try done; try (simpl; congruence).
    + constructor; [by left|constructor].
    + intros [|[|i]] [? ?]; simplify_eq/=.
Qed.

(** ** The bounds on recursion are enough *)

Lemma parseOne_seen f f' e :
  parseOne f = (f', true, e) -> length (fs_args f') < length (fs_args f).
Proof.
  unfold parseOne. intros H.
  repeat (case_match; simplify_eq/=); simpl; try lia.
Qed.

Lemma parseLoop_fuel n : forall m f,
  length (fs_args f) < n -> length (fs_args f) < m ->
  parseLoop n f = parseLoop m f.
Proof.
  induction n as [|n IH]; intros m f Hn Hm; [lia|].
  destruct m as [|m]; [lia|]. simpl.
  destruct (parseOne f) as [[f' seen] e] eqn:E.
  destruct seen; [|done].
  apply parseOne_seen in E. apply IH; lia.
Qed.

(** More fuel than [parseAll] gives changes nothing. *)
Lemma parseAll_fuel f arguments n :
  length arguments < n ->
  parseLoop n (FlagSet_set_args f arguments) = parseAll f arguments.
Proof. intros H. apply parseLoop_fuel; simpl; lia. Qed.

Lemma getNames_fuel_mono n : forall h cmd l m,
  getNames_fuel n h cmd = Some l -> n <= m -> getNames_fuel m h cmd = Some l.
Proof.
  induction n as [|n IH]; intros h cmd l m H Hm; [done|].
  destruct m as [|m]; [lia|]. simpl in *.
  destruct (parent (h !!! cmd)) as [p|]; [|done].
  destruct (getNames_fuel n h p) as [l'|] eqn:E; [|done].
  rewrite (IH _ _ _ m E) by lia. done.
Qed.

Lemma getNames_fuel_length n : forall h cmd l,
  getNames_fuel n h cmd = Some l -> getNames_fuel (length l) h cmd = Some l.
Proof.
  induction n as [|n IH]; intros h cmd l H; [done|]. simpl in H.
  destruct (parent (h !!! cmd)) as [p|] eqn:Ep.
  - destruct (getNames_fuel n h p) as [l'|] eqn:E; [|done]. simplify_eq/=.
    rewrite length_app. simpl. replace (length l' + 1) with (S (length l')) by lia.
    simpl. rewrite Ep, (IH _ _ _ E). done.
  - simplify_eq/=. by rewrite Ep.
Qed.

(** The commands on a chain of parents that ends are pairwise distinct and
    listed in the store. *)
Lemma getNames_fuel_chain n : forall (h : gmap nat Command) cmd l,
  getNames_fuel n h cmd = Some l ->
  exists path : list nat,
    NoDup path /\ length l = S (length path) /\
    (forall a, a ∈ path ->
       is_Some (h !! a) /\
       exists la, getNames_fuel n h a = Some la /\ length la <= length l).
Proof.
  induction n as [|n IH]; intros h cmd l H; [done|]. simpl in H.
  destruct (parent (h !!! cmd)) as [p|] eqn:Ep.
  - destruct (getNames_fuel n h p) as [l'|] eqn:E; [|done]. simplify_eq/=.
    destruct (IH _ _ _ E) as (path & Hnd & Hlen & Hpath).
    assert (getNames_fuel (S n) h cmd = Some (l' ++ [Name (h !!! cmd)])) as H1.
    { simpl. by rewrite Ep, E. }
    exists (cmd :: path). rewrite length_app. cbn [length]. split_and!.
    + constructor; [|done]. intros Hin.
      destruct (Hpath _ Hin) as (_ & la & Hla & Hle).
      rewrite (getNames_fuel_mono _ _ _ _ (S n) Hla) in H1 by lia.
      simplify_eq. rewrite length_app in Hle. simpl in Hle. lia.
    + lia.
    + intros a [->|Hin]%elem_of_cons.
      * split.
        -- destruct (h !! cmd) eqn:Ea; [done|].
           rewrite lookup_total_alt, Ea in Ep. done.
        -- exists (l' ++ [Name (h !!! cmd)]). rewrite length_app. split; [exact H1|done].
      * destruct (Hpath _ Hin) as (? & la & Hla & Hle). split; [done|].
        exists la. split; [|lia].
        exact (getNames_fuel_mono n h a la (S n) Hla ltac:(lia)).
  - simplify_eq/=. exists []. split_and!; [constructor|done|].
    intros a Ha. by apply elem_of_nil in Ha.
Qed.

(** If [getNames] returns with any bound on the recursion, it returns the
    same with the bound that the model uses. *)
Lemma getNames_fuel_enough n (h : gmap nat Command) cmd l :
  getNames_fuel n h cmd = Some l -> getNames h cmd = Some l.
Proof.
  intros H. unfold getNames.
  apply (getNames_fuel_mono (length l)); [by eapply getNames_fuel_length|].
  destruct (getNames_fuel_chain _ _ _ _ H) as (path & Hnd & Hlen & Hpath).
  rewrite Hlen. apply le_n_S.
  rewrite <- (length_map_to_list h), <- (length_fmap fst).
  apply submseteq_length, NoDup_submseteq; [done|].
  intros a Ha. destruct (Hpath _ Ha) as ([c Hc] & _).
  apply list_elem_of_fmap. exists (a, c). split; [done|].
  by apply elem_of_map_to_list.
Qed.

(** ** Registration *)

Lemma RegisterChild_unfold c cmd w :
  RegisterChild c cmd w =
    let child := cmds w !!! cmd in
    if String.eqb (Name child) "" then (Panic "command name is required", w)
    else if String.eqb (Short child) "" then
      (Panic "command short string is required", w)
    else
      match children (cmds w !!! c) !! Name child with
      | Some _ => (Panic ("command already registered: " +:+ Name child), w)
      | None =>
          if negb (MatchString commandNameRegex (Name child)) then
            (Panic "invalid command name", w)
          else (Ok tt, registered c cmd w)
      end.
Proof.
  unfold RegisterChild, bind, getCommand, panic. simpl.
  destruct (String.eqb (Name (cmds w !!! cmd)) ""); [done|].
  destruct (String.eqb (Short (cmds w !!! cmd)) ""); [done|].
  destruct (children (cmds w !!! c) !! Name (cmds w !!! cmd)); [done|].
  destruct (MatchString commandNameRegex (Name (cmds w !!! cmd))); reflexivity.
Qed.

Lemma string_eqb_empty s : String.eqb s "" = true <-> s = "".
Proof. apply String.eqb_eq. Qed.

Lemma not_valid_name_iff name :
  ~ valid_name name <-> MatchString commandNameRegex name = false.
Proof.
  rewrite <- commandNameRegex_valid_name.
  destruct (MatchString commandNameRegex name); naive_solver.
Qed.

Lemma registered_children c cmd w :
  children (cmds (registered c cmd w) !!! c) !! Name (cmds w !!! cmd) = Some cmd.
Proof.
  unfold registered. simpl. rewrite lookup_total_insert_eq. simpl.
  apply lookup_insert_eq.
Qed.

(** Registration changes the parent of the child and the children map and
    [longestName] of the parent: the streams of every command stay. *)
Lemma registered_streams c cmd w a :
  streams (cmds (registered c cmd w) !!! a) = streams (cmds w !!! a).
Proof.
  unfold registered. simpl.
  destruct (decide (c = a)) as [->|Hc].
  - rewrite lookup_total_insert_eq. unfold streams. simpl.
    destruct (decide (cmd = a)) as [->|Hd].
    + by rewrite lookup_total_insert_eq.
    + by rewrite lookup_total_insert_ne.
  - rewrite lookup_total_insert_ne by done.
    destruct (decide (cmd = a)) as [->|Hd].
    + by rewrite lookup_total_insert_eq.
    + by rewrite lookup_total_insert_ne.
Qed.

(** C5: [RegisterChild] panics exactly when the name of the child is empty,
    its [Short] is empty, its name fails the name format, or the parent
    already has a child of that name; otherwise it is accepted, whatever
    its handler and children are; and after an accepted registration a
    second child of the same name under the same parent is refused. *)
Theorem C5_RegisterChild_aborts_iff (c cmd : nat) (w : World) :
  ((exists v, (RegisterChild c cmd w).1 = Panic v) <->
     (Name (cmds w !!! cmd) = "" \/ Short (cmds w !!! cmd) = "" \/
      ~ valid_name (Name (cmds w !!! cmd)) \/
      is_Some (children (cmds w !!! c) !! Name (cmds w !!! cmd)))) /\
  ((~ exists v, (RegisterChild c cmd w).1 = Panic v) <->
     RegisterChild c cmd w = (Ok tt, registered c cmd w)) /\
  (forall cmd2,
     RegisterChild c cmd w = (Ok tt, registered c cmd w) ->
     Name (cmds (registered c cmd w) !!! cmd2) = Name (cmds w !!! cmd) ->
     exists v, (RegisterChild c cmd2 (registered c cmd w)).1 = Panic v).
Proof.
  split_and!.
  - rewrite RegisterChild_unfold, not_valid_name_iff. cbv zeta.
    destruct (String.eqb (Name (cmds w !!! cmd)) "") eqn:E1.
    { apply String.eqb_eq in E1. split; [by left|]. simpl. eauto. }
    destruct (String.eqb (Short (cmds w !!! cmd)) "") eqn:E2.
    { apply String.eqb_eq in E2. split; [by right; left|]. simpl. eauto. }
    apply String.eqb_neq in E1, E2.
    destruct (children (cmds w !!! c) !! Name (cmds w !!! cmd)) eqn:E3.
    { split; [by right; right; right|]. simpl. eauto. }
    destruct (MatchString commandNameRegex (Name (cmds w !!! cmd))) eqn:E4; simpl.
    + split; [by intros [v ?]|]. intros [?|[?|[?|[? ?]]]]; done.
    + split; [by right; right; left|]. eauto.
  - rewrite RegisterChild_unfold. cbv zeta.
    destruct (String.eqb (Name (cmds w !!! cmd)) "");
      [split; [intros H; exfalso; apply H; simpl; by eauto|done]|].
    destruct (String.eqb (Short (cmds w !!! cmd)) "");
      [split; [intros H; exfalso; apply H; simpl; by eauto|done]|].
    destruct (children (cmds w !!! c) !! Name (cmds w !!! cmd));
      [split; [intros H; exfalso; apply H; simpl; by eauto|done]|].
    destruct (MatchString commandNameRegex (Name (cmds w !!! cmd))); simpl.
    + split; [done|]. by intros _ [v ?].
    + split; [intros H; exfalso; apply H; simpl; by eauto|done].
  - intros cmd2 _ Hname. rewrite RegisterChild_unfold. cbv zeta. rewrite Hname.
    rewrite registered_children. repeat case_match; simpl; eauto.
Qed.

(** ** The dispatcher: what each step does to the world *)

Lemma quiet_refl w : quiet w w.
Proof. by split. Qed.

Lemma quiet_trans w1 w2 w3 : quiet w1 w2 -> quiet w2 w3 -> quiet w1 w3.
Proof. intros [? ?] [? ?]. split; congruence. Qed.

Lemma quiet_write w s text : quiet w (World_emit w (EvWrite s text)).
Proof. by split. Qed.

Lemma quiet_fsets w m : quiet w (World_set_fsets w m).
Proof. by split. Qed.

Lemma Fprint_quiet o text w r w' :
  Fprint o text w = (r, w') -> quiet w w' /\ fsets w' = fsets w.
Proof.
  unfold Fprint, panic, emit. destruct o; intros ?; simplify_eq; split;
    auto using quiet_refl, quiet_write.
Qed.

Lemma showHelp_range_quiet keys cmd w r w' :
  showHelp_range keys cmd w = (r, w') -> quiet w w' /\ fsets w' = fsets w.
Proof.
  unfold showHelp_range. intros H.
  destruct (getNames (cmds w) cmd); [|by simplify_eq; auto using quiet_refl].
  destruct (helpResult _ _ _ _ _); [|by simplify_eq; auto using quiet_refl].
  by eapply Fprint_quiet.
Qed.

Lemma showHelp_quiet cmd w r w' :
  showHelp cmd w = (r, w') -> quiet w w' /\ fsets w' = fsets w.
Proof. apply showHelp_range_quiet. Qed.

Lemma inheritStreams_unfold cmd w :
  inheritStreams cmd w = (Ok tt, inherited cmd w).
Proof.
  unfold inheritStreams, inherited, bind, getCommand, putCommand, ret. simpl.
  by destruct (parent (cmds w !!! cmd)).
Qed.

Lemma FlagSet_Parse_quiet cmd ref f arguments w r w' :
  FlagSet_Parse (showHelp cmd) ref f arguments w = (r, w') -> quiet w w'.
Proof.
  unfold FlagSet_Parse. destruct (parseAll f arguments) as [f' err].
  unfold bind, putFlagSet, ret, emit, os_Exit, panic.
  set (w1 := match ref with Some a => _ | None => _ end).
  assert (exists w1', w1 = (Ok tt, w1') /\ quiet w w1') as (w1' & -> & Hq).
  { subst w1. destruct ref; eexists; split; eauto using quiet_refl, quiet_fsets. }
  destruct err as [e|]; [|by intros ?; simplify_eq].
  destruct e; simpl;
    (match goal with
     | |- context [showHelp cmd ?W] =>
         destruct (showHelp cmd W) as [ru w3] eqn:Eu
     end);
    apply showHelp_quiet in Eu as [Hq3 _];
    destruct ru; try destruct (fs_errorHandling f'); intros ?; simplify_eq;
    (eapply quiet_trans; [exact Hq|]);
    first [exact Hq3 | eapply quiet_trans; [apply quiet_write|exact Hq3]].
Qed.

Lemma parseFlags_quiet cmd arguments w r w' :
  parseFlags cmd arguments w = (r, w') -> quiet w w'.
Proof.
  unfold parseFlags, bind, getCommand, getFlagSet.
  destruct (Flags (cmds w !!! cmd)); apply FlagSet_Parse_quiet.
Qed.

Lemma helpForCommand_quiet cmd fl w r w' :
  helpForCommand cmd fl w = (r, w') ->
  quiet w w' /\
  forall code err, r = Ok (code, err) ->
    code = ExitCodeSuccess \/ code = ExitCodeSerious.
Proof.
  unfold helpForCommand.
  set (args := match FlagSet_Args fl with [] => _ | _ => _ end).
  assert (forall c (k : Z * option error) w r w',
            (k.1 = ExitCodeSuccess \/ k.1 = ExitCodeSerious) ->
            (showHelp c ;;; ret k) w = (r, w') ->
            quiet w w' /\ forall code err, r = Ok (code, err) ->
              code = ExitCodeSuccess \/ code = ExitCodeSerious) as Hstep.
  { clear. intros c k w r w' Hk. unfold bind, ret.
    destruct (showHelp c w) as [ru w1] eqn:Eu.
    apply showHelp_quiet in Eu as [Hq _].
    destruct ru; intros ?; simplify_eq; split; try done.
    intros code err ?. simplify_eq. done. }
  destruct (2 <? length args)%nat.
  { apply Hstep. by right. }
  destruct args as [|a0 rest].
  { apply Hstep. by left. }
  unfold bind at 1. unfold getCommand.
  destruct (children (cmds w !!! cmd) !! a0).
  - apply Hstep. by left.
  - apply Hstep. by right.
Qed.

Lemma Execute_nil cmd w :
  Execute [] cmd w = (Panic ("invalid execute " +:+ Quote (Name (cmds w !!! cmd))), w).
Proof. reflexivity. Qed.

Lemma Execute_cons a0 args1 cmd w :
  Execute (a0 :: args1) cmd w =
  let c := cmds w !!! cmd in
  if runnable c then
    match parseFlags cmd args1 (inherited cmd w) with
    | (Ok (fs, None), w2) =>
        match args1 with
        | [] =>
            match Func c with
            | Some f => callFunc cmd f fs w2
            | None => helpForCommand cmd fs w2
            end
        | a1 :: _ =>
            if String.eqb a1 "help" then helpForCommand cmd fs w2
            else
              match children c !! a1 with
              | None =>
                  match Func c with
                  | Some f => callFunc cmd f fs w2
                  | None => helpForCommand cmd fs w2
                  end
              | Some subcommand => Execute args1 subcommand w2
              end
        end
    | (Ok (_, Some err), w2) => (Ok (ExitCodeSerious, Some err), w2)
    | (Panic v, w2) => (Panic v, w2)
    | (Exit code, w2) => (Exit code, w2)
    | (StackOverflow, w2) => (StackOverflow, w2)
    end
  else (Panic ("invalid command " +:+ Quote (Name c)), w).
Proof.
  cbn [Execute]. unfold bind at 1. unfold getCommand at 1. cbv zeta.
  unfold runnable. destruct (_ && _); [done|]. cbn [negb].
  unfold bind at 1. rewrite inheritStreams_unfold.
  unfold bind at 1.
  destruct (parseFlags cmd args1 (inherited cmd w)) as [[[fs [err|]]| | |] w2]; try done.
  destruct args1 as [|a1 rest]; [by destruct (Func (cmds w !!! cmd))|].
  destruct (String.eqb a1 "help"); [done|].
  destruct (children (cmds w !!! cmd) !! a1); [done|].
  by destruct (Func (cmds w !!! cmd)).
Qed.

Lemma same_but_streams_refl c : same_but_streams c c.
Proof. by destruct c. Qed.

Lemma same_but_streams_trans c1 c2 c3 :
  same_but_streams c1 c2 -> same_but_streams c2 c3 -> same_but_streams c1 c3.
Proof.
  unfold same_but_streams, Command_set_streams.
  destruct c1, c2, c3; simpl. intros H1 H2.
  injection H1; injection H2; intros; subst; reflexivity.
Qed.

Lemma same_but_streams_set c i o e :
  same_but_streams c (Command_set_streams c i o e).
Proof. by destruct c. Qed.

Lemma same_but_streams_fields c c' :
  same_but_streams c c' ->
  Name c' = Name c /\ Func c' = Func c /\ Flags c' = Flags c /\
  parent c' = parent c /\ children c' = children c.
Proof.
  unfold same_but_streams, Command_set_streams.
  destruct c, c'; simpl. intros H1.
  injection H1; intros; subst; done.
Qed.

Lemma inherited_same cmd w a :
  same_but_streams (cmds w !!! a) (cmds (inherited cmd w) !!! a).
Proof.
  unfold inherited. destruct (parent (cmds w !!! cmd)); [|apply same_but_streams_refl].
  simpl. destruct (decide (cmd = a)) as [->|Hne].
  - rewrite lookup_total_insert_eq. apply same_but_streams_set.
  - rewrite lookup_total_insert_ne by done. apply same_but_streams_refl.
Qed.

Lemma inherited_trace cmd w : trace (inherited cmd w) = trace w.
Proof. unfold inherited. by destruct (parent (cmds w !!! cmd)). Qed.

Lemma inherited_fsets cmd w : fsets (inherited cmd w) = fsets w.
Proof. unfold inherited. by destruct (parent (cmds w !!! cmd)). Qed.

(** After the inheritance step a command with a parent has the streams that
    its parent had when the step began. *)
Lemma inherited_streams cmd w p :
  parent (cmds w !!! cmd) = Some p ->
  streams (cmds (inherited cmd w) !!! cmd) = streams (cmds w !!! p).
Proof.
  unfold inherited. intros ->. simpl. by rewrite lookup_total_insert_eq.
Qed.

Lemma inherited_root cmd w :
  parent (cmds w !!! cmd) = None -> inherited cmd w = w.
Proof. unfold inherited. by intros ->. Qed.

Lemma inherited_other cmd w a :
  a <> cmd -> cmds (inherited cmd w) !!! a = cmds w !!! a.
Proof.
  unfold inherited. intros Hne. destruct (parent (cmds w !!! cmd)); [|done].
  simpl. by rewrite lookup_total_insert_ne.
Qed.

Lemma callFunc_unfold cmd f fs w :
  callFunc cmd f fs w =
  let c := cmds w !!! cmd in
  let input := mkHandlerInput (stdout c) fs (stdin c) (stderr c) in
  (f input, World_emit w (EvCall cmd input)).
Proof. reflexivity. Qed.

(** What a call of [Execute] does: the commands keep everything but their
    streams, and either no handler is called and a returned code is 0 or 2,
    or exactly one handler is called, last, and its result is the result. *)
Lemma Execute_effect args : forall cmd w r w',
  Execute args cmd w = (r, w') ->
  (forall a, same_but_streams (cmds w !!! a) (cmds w' !!! a)) /\
  ((calls (trace w') = calls (trace w) /\
    forall code err, r = Ok (code, err) ->
      code = ExitCodeSuccess \/ code = ExitCodeSerious) \/
   (exists c f input,
      calls (trace w') = (c, input) :: calls (trace w) /\
      Func (cmds w !!! c) = Some f /\ r = f input)).
Proof.
  induction args as [|a0 args1 IH]; intros cmd w r w' H.
  { rewrite Execute_nil in H. simplify_eq. split.
    - intros a. apply same_but_streams_refl.
    - left. split; [done|]. intros ? ? ?. done. }
  rewrite Execute_cons in H. cbv zeta in H.
  destruct (runnable (cmds w !!! cmd)); cycle 1.
  { simplify_eq. split; [intros a; apply same_but_streams_refl|].
    left. split; [done|]. intros ? ? ?. done. }
  destruct (parseFlags cmd args1 (inherited cmd w)) as [rp w2] eqn:Ep.
  apply parseFlags_quiet in Ep as [Hc Ht].
  rewrite inherited_trace in Ht.
  assert (forall a, same_but_streams (cmds w !!! a) (cmds w2 !!! a)) as Hs.
  { intros a. rewrite Hc. apply inherited_same. }
  assert (forall (r : Result (Z * option error)),
            (forall code err, r = Ok (code, err) ->
               code = ExitCodeSuccess \/ code = ExitCodeSerious) ->
            (r, w2) = (r, w2) ->
            (forall a, same_but_streams (cmds w !!! a) (cmds w2 !!! a)) /\
            ((calls (trace w2) = calls (trace w) /\
              forall code err, r = Ok (code, err) ->
                code = ExitCodeSuccess \/ code = ExitCodeSerious) \/
             (exists c f input,
                calls (trace w2) = (c, input) :: calls (trace w) /\
                Func (cmds w !!! c) = Some f /\ r = f input))) as Hstop.
  { intros r0 Hr0 _. split; [done|]. left. done. }
  assert (forall fs,
            helpForCommand cmd fs w2 = (r, w') ->
            (forall a, same_but_streams (cmds w !!! a) (cmds w' !!! a)) /\
            ((calls (trace w') = calls (trace w) /\
              forall code err, r = Ok (code, err) ->
                code = ExitCodeSuccess \/ code = ExitCodeSerious) \/
             (exists c f input,
                calls (trace w') = (c, input) :: calls (trace w) /\
                Func (cmds w !!! c) = Some f /\ r = f input))) as Hhelp.
  { intros fs Hh. apply helpForCommand_quiet in Hh as [[Hc' Ht'] Hcode].
    split; [intros a; rewrite Hc'; apply Hs|]. left. split; [congruence|done]. }
  assert (forall fs f,
            Func (cmds w !!! cmd) = Some f ->
            callFunc cmd f fs w2 = (r, w') ->
            (forall a, same_but_streams (cmds w !!! a) (cmds w' !!! a)) /\
            ((calls (trace w') = calls (trace w) /\
              forall code err, r = Ok (code, err) ->
                code = ExitCodeSuccess \/ code = ExitCodeSerious) \/
             (exists c f input,
                calls (trace w') = (c, input) :: calls (trace w) /\
                Func (cmds w !!! c) = Some f /\ r = f input))) as Hcall.
  { intros fs f Hf Hcall. rewrite callFunc_unfold in Hcall. cbv zeta in Hcall.
    simplify_eq. split; [done|]. right. eexists cmd, f, _. simpl.
    split; [by rewrite Ht|]. done. }
  destruct rp as [[fs [err|]]|v|code|]; simplify_eq;
    try (apply Hstop; [intros ? ? ?; simplify_eq; by auto|done]).
  destruct args1 as [|a1 rest].
  { destruct (Func (cmds w !!! cmd)) eqn:Ef; eauto. }
  destruct (String.eqb a1 "help"); [eauto|].
  destruct (children (cmds w !!! cmd) !! a1) as [sub|].
  - apply IH in H as [Hs' Hr]. split.
    + intros a. eapply same_but_streams_trans; [apply Hs|apply Hs'].
    + destruct Hr as [[Ht' Hcode]|(c & f & input & Ht' & Hf & ->)].
      * left. split; [congruence|done].
      * right. exists c, f, input. split_and!; [congruence| |done].
        destruct (same_but_streams_fields _ _ (Hs c)) as (_ & HF & _). congruence.
  - destruct (Func (cmds w !!! cmd)) eqn:Ef; eauto.
Qed.

(** ** Flag parsing inside [Execute] *)

Lemma parseOne_positional f a1 rest :
  is_flag_token a1 = false ->
  parseOne (FlagSet_set_args f (a1 :: rest)) = (FlagSet_set_args f (a1 :: rest), false, None).
Proof.
  intros H. unfold parseOne. simpl.
  destruct a1 as [|c0 [|c1 s]]; try done.
  - simpl in *. destruct (Ascii.eqb_spec c0 "-"); [subst|]; try done.
    destruct c0 as [[] [] [] [] [] [] [] []]; try done.
  - simpl in H. destruct c0 as [[] [] [] [] [] [] [] []]; try done.
Qed.

Lemma parseAll_positional f a1 rest :
  is_flag_token a1 = false ->
  parseAll f (a1 :: rest) = (FlagSet_set_args f (a1 :: rest), None).
Proof.
  intros H. unfold parseAll. cbn [parseLoop length].
  by rewrite parseOne_positional.
Qed.

Lemma parseAll_nil f : parseAll f [] = (FlagSet_set_args f [], None).
Proof. reflexivity. Qed.

(** [parseFlags], step by step. *)
Lemma parseFlags_unfold cmd arguments w :
  parseFlags cmd arguments w =
  let '(f', err) := parseAll (nodeFlagSet w cmd) arguments in
  match err with
  | None => (Ok (f', None), storeFlagSet w cmd f')
  | Some e =>
      match showHelp cmd (failedParse w cmd f' e) with
      | (Ok _, w3) =>
          match fs_errorHandling f' with
          | ContinueOnError => (Ok (f', Some e), w3)
          | ExitOnError =>
              match e with
              | ErrHelp => (Exit 0%Z, w3)
              | ErrorString _ => (Exit 2%Z, w3)
              end
          | PanicOnError => (Panic (error_Error e), w3)
          end
      | (Panic v, w3) => (Panic v, w3)
      | (Exit code, w3) => (Exit code, w3)
      | (StackOverflow, w3) => (StackOverflow, w3)
      end
  end.
Proof.
  unfold parseFlags, nodeFlagSet, storeFlagSet, failedParse, storeFlagSet,
    bind, getCommand, getFlagSet, FlagSet_Parse.
  destruct (Flags (cmds w !!! cmd)) as [a|].
  - destruct (parseAll (fsets w !!! a) arguments) as [f' [e|]]; [|done].
    unfold bind, putFlagSet, emit, ret.
    destruct e; simpl;
      (match goal with
       | |- context [showHelp cmd ?W] => destruct (showHelp cmd W) as [[]] end);
      try done; destruct (fs_errorHandling f'); done.
  - destruct (parseAll _ arguments) as [f' [e|]]; [|done].
    unfold bind, putFlagSet, emit, ret.
    destruct e; simpl;
      (match goal with
       | |- context [showHelp cmd ?W] => destruct (showHelp cmd W) as [[]] end);
      try done; destruct (fs_errorHandling f'); done.
Qed.

Lemma parseFlags_positional cmd a1 rest w :
  is_flag_token a1 = false ->
  parseFlags cmd (a1 :: rest) w =
    (Ok (FlagSet_set_args (nodeFlagSet w cmd) (a1 :: rest), None),
     storeFlagSet w cmd (FlagSet_set_args (nodeFlagSet w cmd) (a1 :: rest))).
Proof.
  intros H. rewrite parseFlags_unfold. by rewrite parseAll_positional.
Qed.

Lemma nodeFlagSet_inherited cmd w a :
  nodeFlagSet (inherited cmd w) a = nodeFlagSet w a.
Proof.
  unfold nodeFlagSet. rewrite inherited_fsets.
  destruct (same_but_streams_fields _ _ (inherited_same cmd w a)) as (-> & _ & -> & _).
  done.
Qed.

Lemma storeFlagSet_quiet w cmd f : quiet w (storeFlagSet w cmd f).
Proof. unfold storeFlagSet. destruct (Flags _); auto using quiet_refl, quiet_fsets. Qed.

(** [showHelp] returns, or panics on a nil pointer, or never ends. *)
Lemma showHelp_result cmd w :
  (showHelp cmd w).1 = Ok tt \/ (showHelp cmd w).1 = Panic nilDereference \/
  (showHelp cmd w).1 = StackOverflow.
Proof.
  unfold showHelp, showHelp_range.
  destruct (getNames (cmds w) cmd); [|by auto].
  destruct (helpResult _ _ _ _ _); [|by auto].
  unfold Fprint, panic, emit. destruct (stdout (cmds w !!! cmd)); auto.
Qed.

(** ** Exit codes *)

Lemma parseFlags_exit cmd arguments w code w' :
  parseFlags cmd arguments w = (Exit code, w') -> code = 0%Z \/ code = 2%Z.
Proof.
  rewrite parseFlags_unfold.
  destruct (parseAll (nodeFlagSet w cmd) arguments) as [f' [e|]]; [|done].
  destruct (showHelp_result cmd (failedParse w cmd f' e)) as [Hr|[Hr|Hr]];
    destruct (showHelp cmd _) as [ru w3]; simpl in Hr; subst ru; try done.
  destruct (fs_errorHandling f'); try done.
  destruct e; intros ?; simplify_eq; auto.
Qed.

Lemma helpForCommand_no_exit cmd fl w code w' :
  helpForCommand cmd fl w = (Exit code, w') -> False.
Proof.
  unfold helpForCommand.
  set (args := match FlagSet_Args fl with [] => _ | _ => _ end).
  assert (forall c (k : Z * option error) w,
            (showHelp c ;;; ret k) w = (Exit code, w') -> False) as Hstep.
  { clear. intros c k w. unfold bind, ret.
    destruct (showHelp_result c w) as [Hr|[Hr|Hr]];
      destruct (showHelp c w) as [ru w1]; simpl in Hr; subst ru; done. }
  destruct (2 <? length args)%nat; [by apply Hstep|].
  destruct args as [|a0 rest]; [by apply Hstep|].
  unfold bind at 1. unfold getCommand.
  destruct (children (cmds w !!! cmd) !! a0); by apply Hstep.
Qed.

(** A run that calls no handler and ends the process ends it with the
    status 0 or 2. *)
Lemma Execute_exit_status args : forall cmd w code w',
  Execute args cmd w = (Exit code, w') ->
  calls (trace w') = calls (trace w) ->
  code = 0%Z \/ code = 2%Z.
Proof.
  induction args as [|a0 args1 IH]; intros cmd w code w' H Hcalls.
  { by rewrite Execute_nil in H. }
  rewrite Execute_cons in H. cbv zeta in H.
  destruct (runnable (cmds w !!! cmd)); [|done].
  destruct (parseFlags cmd args1 (inherited cmd w)) as [rp w2] eqn:Ep.
  pose proof (parseFlags_quiet _ _ _ _ _ Ep) as [_ Ht].
  rewrite inherited_trace in Ht.
  assert (forall fs f, callFunc cmd f fs w2 = (Exit code, w') -> False) as Hcall.
  { intros fs f Hf. rewrite callFunc_unfold in Hf. cbv zeta in Hf. simplify_eq.
    simpl in Hcalls. rewrite Ht in Hcalls.
    apply (f_equal length) in Hcalls. simpl in Hcalls. lia. }
  destruct rp as [[fs [err|]]|v|code'|]; simplify_eq.
  - destruct args1 as [|a1 rest].
    { destruct (Func (cmds w !!! cmd));
        [by destruct (Hcall _ _ H)|by destruct (helpForCommand_no_exit _ _ _ _ _ H)]. }
    destruct (String.eqb a1 "help");
      [by destruct (helpForCommand_no_exit _ _ _ _ _ H)|].
    destruct (children (cmds w !!! cmd) !! a1) as [sub|].
    + apply (IH _ _ _ _ H). by rewrite Ht.
    + destruct (Func (cmds w !!! cmd));
        [by destruct (Hcall _ _ H)|by destruct (helpForCommand_no_exit _ _ _ _ _ H)].
  - by eapply parseFlags_exit.
Qed.

(** C7: in a run of [Execute] either no handler is called, and then a
    returned code is success (0) or serious (2), never failure (1), and a
    process that is ended is ended with the status 0 or 2; or exactly one
    handler is called, and the run ends as that handler ends: the code and
    the error that [Execute] returns are those that the handler returned. *)
Theorem C7_exit_codes args cmd w r w' :
  Execute args cmd w = (r, w') ->
  (calls (trace w') = calls (trace w) /\
   (forall code err, r = Ok (code, err) ->
      (code = ExitCodeSuccess \/ code = ExitCodeSerious) /\ code <> ExitCodeFailure) /\
   (forall code, r = Exit code -> code = 0%Z \/ code = 2%Z)) \/
  (exists c f input,
     calls (trace w') = (c, input) :: calls (trace w) /\
     Func (cmds w !!! c) = Some f /\ r = f input).
Proof.
  intros H.
  destruct (Execute_effect _ _ _ _ _ H) as [_ [[Ht Hcode]|(c & f & input & Ht & Hf & Hr)]].
  - left. split_and!; [done| |].
    + intros code err Hr. destruct (Hcode code err Hr) as [-> | ->]; split; eauto; done.
    + intros code ->. by eapply Execute_exit_status.
  - right. eauto 10.
Qed.

Lemma C7_exit_codes_witness :
  (calls (trace (Execute ["prog"; "help"; "nosuch"] root tree).2) = calls (trace tree) /\
   (forall code err,
      (Execute ["prog"; "help"; "nosuch"] root tree).1 = Ok (code, err) ->
      (code = ExitCodeSuccess \/ code = ExitCodeSerious) /\ code <> ExitCodeFailure) /\
   (forall code,
      (Execute ["prog"; "help"; "nosuch"] root tree).1 = Exit code ->
      code = 0%Z \/ code = 2%Z)) \/
  (exists c f input,
     calls (trace (Execute ["prog"; "help"; "nosuch"] root tree).2) =
       (c, input) :: calls (trace tree) /\
     Func (cmds tree !!! c) = Some f /\
     (Execute ["prog"; "help"; "nosuch"] root tree).1 = f input).
Proof.
  apply (C7_exit_codes ["prog"; "help"; "nosuch"] root tree).
  apply surjective_pairing.
Defined.

(** A handler that fails: its code 1 is what [Execute] returns. *)
Example Execute_handler_failure :
  (Execute ["prog"; "x"] root tree).1 =
    Ok (ExitCodeFailure, Some (ErrorString "failed")) /\
  fst <$> calls (trace (Execute ["prog"; "x"] root tree).2) = [1].
Proof. vm_compute. done. Qed.

(** The flag set made for a node without one ends the process on a help
    request. *)
Example Execute_exit_on_help_flag :
  (Execute ["prog"; "-h"] root tree).1 = Exit 0.
Proof. vm_compute. reflexivity. Qed.

(** ** Dispatch *)

Lemma Execute_help_token a0 rest cmd w :
  Execute (a0 :: "help" :: rest) cmd w =
    if runnable (cmds w !!! cmd) then
      helpForCommand cmd (FlagSet_set_args (nodeFlagSet w cmd) ("help" :: rest))
        (storeFlagSet (inherited cmd w) cmd
           (FlagSet_set_args (nodeFlagSet w cmd) ("help" :: rest)))
    else (Panic ("invalid command " +:+ Quote (Name (cmds w !!! cmd))), w).
Proof.
  rewrite Execute_cons. cbv zeta.
  destruct (runnable (cmds w !!! cmd)); [|done].
  rewrite parseFlags_positional by done. by rewrite nodeFlagSet_inherited.
Qed.

(** C9: when the token after the name of the node is [help], [Execute]
    either stops at its precondition or is the help path; for a node with a
    child named [help], a name that the format accepts, it is the help
    path; and no handler is called: such a child is never dispatched to. *)
Theorem C9_help_token_never_dispatches (a0 : string) (rest : list string)
    (cmd : nat) (w : World) :
  MatchString commandNameRegex "help" = true /\
  Execute (a0 :: "help" :: rest) cmd w =
    (if runnable (cmds w !!! cmd) then
       helpForCommand cmd (FlagSet_set_args (nodeFlagSet w cmd) ("help" :: rest))
         (storeFlagSet (inherited cmd w) cmd
            (FlagSet_set_args (nodeFlagSet w cmd) ("help" :: rest)))
     else (Panic ("invalid command " +:+ Quote (Name (cmds w !!! cmd))), w)) /\
  (forall h,
     children (cmds w !!! cmd) !! "help" = Some h ->
     Execute (a0 :: "help" :: rest) cmd w =
       helpForCommand cmd (FlagSet_set_args (nodeFlagSet w cmd) ("help" :: rest))
         (storeFlagSet (inherited cmd w) cmd
            (FlagSet_set_args (nodeFlagSet w cmd) ("help" :: rest)))) /\
  calls (trace (Execute (a0 :: "help" :: rest) cmd w).2) = calls (trace w).
Proof.
  split_and!; [done|apply Execute_help_token| |].
  { intros h Hh. rewrite Execute_help_token.
    assert (runnable (cmds w !!! cmd) = true) as ->; [|done].
    unfold runnable. destruct (Nat.eqb_spec (size (children (cmds w !!! cmd))) 0) as [E|E]; [|done].
    apply map_size_empty_iff in E. by rewrite E, lookup_empty in Hh. }
  rewrite Execute_help_token. destruct (runnable (cmds w !!! cmd)); [|done].
  destruct (helpForCommand _ _ _) as [r w'] eqn:E.
  apply helpForCommand_quiet in E as [[_ Ht] _]. simpl. rewrite Ht.
  destruct (storeFlagSet_quiet (inherited cmd w) cmd
              (FlagSet_set_args (nodeFlagSet w cmd) ("help" :: rest))) as [_ ->].
  by rewrite inherited_trace.
Qed.

(** In [tree] the root has a child named [help] with a handler: [prog help]
    prints the help of the root and calls nothing. *)
Example Execute_help_child_unreachable :
  children (cmds tree !!! root) !! "help" = Some 2 /\
  (Execute ["prog"; "help"] root tree).1 = Ok (ExitCodeSuccess, None) /\
  calls (trace (Execute ["prog"; "help"] root tree).2) = [].
Proof. vm_compute. done. Qed.

(** C3, as the code has it: the token that [Execute] inspects is [args[1]],
    the token that follows the name as the call received it, not the first
    token left after flag parsing.  Once the flags of the node are parsed
    without error: if [args[1]] is [help], the result is that of the help
    path; if it names a registered child, the result is that of [Execute]
    on the child with [args[1:]], which parses with the flag set of the
    child.  When [args[1]] is not a flag, it is also the first token left. *)
Theorem C3_dispatch_on_first_argument (a0 a1 : string) (rest : list string)
    (cmd : nat) (w : World) (fs : FlagSet) (w2 : World) :
  runnable (cmds w !!! cmd) = true ->
  parseFlags cmd (a1 :: rest) (inherited cmd w) = (Ok (fs, None), w2) ->
  (a1 = "help" -> Execute (a0 :: a1 :: rest) cmd w = helpForCommand cmd fs w2) /\
  (forall sub,
     a1 <> "help" -> children (cmds w !!! cmd) !! a1 = Some sub ->
     Execute (a0 :: a1 :: rest) cmd w = Execute (a1 :: rest) sub w2) /\
  (forall sub w3,
     parseFlags sub rest w3 =
       FlagSet_Parse (showHelp sub) (Flags (cmds w3 !!! sub)) (nodeFlagSet w3 sub) rest w3) /\
  (is_flag_token a1 = false -> FlagSet_Args fs = a1 :: rest).
Proof.
  intros Hrun Hparse. split_and!.
  - intros ->. rewrite Execute_cons. cbv zeta. by rewrite Hrun, Hparse.
  - intros sub Hne Hsub. rewrite Execute_cons. cbv zeta. rewrite Hrun, Hparse.
    apply String.eqb_neq in Hne. by rewrite Hne, Hsub.
  - intros sub w3. unfold parseFlags, nodeFlagSet, bind, getCommand, getFlagSet.
    by destruct (Flags (cmds w3 !!! sub)).
  - intros Hpos. rewrite parseFlags_positional in Hparse by done. by simplify_eq.
Qed.

Lemma C3_dispatch_on_first_argument_witness :
  ("x" = "help" ->
   Execute ["prog"; "x"; "-v"] root tree =
     helpForCommand root (FlagSet_set_args (nodeFlagSet tree root) ["x"; "-v"]) tree) /\
  (forall sub,
     "x" <> "help" -> children (cmds tree !!! root) !! "x" = Some sub ->
     Execute ["prog"; "x"; "-v"] root tree = Execute ["x"; "-v"] sub tree) /\
  (forall sub w3,
     parseFlags sub ["-v"] w3 =
       FlagSet_Parse (showHelp sub) (Flags (cmds w3 !!! sub)) (nodeFlagSet w3 sub) ["-v"] w3) /\
  (is_flag_token "x" = false ->
   FlagSet_Args (FlagSet_set_args (nodeFlagSet tree root) ["x"; "-v"]) = ["x"; "-v"]).
Proof.
  apply (C3_dispatch_on_first_argument "prog" "x" ["-v"] root tree).
  - vm_compute. reflexivity.
  - vm_compute. reflexivity.
Defined.

(** C3 as the specification states it fails in [flat]: after the flags of
    the root are parsed, the first token left is [x], a registered child
    whose handler returns 1; [Execute] looked at [-v], found no such child,
    and called the handler of the root, which returns 0. *)
Lemma C3_counterexample :
  (parseFlags root ["-v"; "x"] (inherited root flat)).1 =
    Ok ((parseAll x_flags ["-v"; "x"]).1, None) /\
  FlagSet_Args (parseAll x_flags ["-v"; "x"]).1 = ["x"] /\
  children (cmds flat !!! root) !! "x" = Some 1 /\
  (Execute ["x"] 1 (parseFlags root ["-v"; "x"] (inherited root flat)).2).1 =
    Ok (ExitCodeFailure, Some (ErrorString "failed")) /\
  (Execute ["prog"; "-v"; "x"] root flat).1 = Ok (ExitCodeSuccess, None) /\
  fst <$> calls (trace (Execute ["prog"; "-v"; "x"] root flat).2) = [root].
Proof. vm_compute. done. Qed.

(** ** Parse failures *)






(** A node of [tree] with a flag set of its own, policy [ContinueOnError]:
    the undefined flag makes [Execute] return the serious code and the
    error of the parser. *)
Example Execute_parse_error_returned :
  (Execute ["prog"; "x"; "-zzz"] root tree).1 =
    Ok (ExitCodeSerious, Some (ErrorString "flag provided but not defined: -zzz")).
Proof. vm_compute. reflexivity. Qed.


(** ** The help path *)

Lemma helpForCommand_two_arguments cmd fl w a b :
  FlagSet_Args fl = ["help"; a; b] ->
  helpForCommand cmd fl w =
    match children (cmds w !!! cmd) !! a with
    | None =>
        (showHelp cmd ;;;
         ret (ExitCodeSerious, Some (ErrorString ("unknown command: " +:+ a)))) w
    | Some subcommand => (showHelp subcommand ;;; ret (ExitCodeSuccess, None)) w
    end.
Proof.
  unfold helpForCommand. intros ->. simpl. unfold bind at 1. unfold getCommand.
  by destruct (children (cmds w !!! cmd) !! a).
Qed.

(** C1: two arguments after [help] pass the test [len(args) > 2] of
    [helpForCommand].  In [tree]: an unknown first argument gives the
    serious code with the error of an unknown command; the child [x] gives
    a nil dereference, its [stdout] never set, or success once a run has
    set it; only three arguments give the error about one command. *)
Theorem C1_help_with_two_arguments :
  (Execute ["prog"; "help"; "nosuch"; "b"] root tree).1 =
    Ok (ExitCodeSerious, Some (ErrorString "unknown command: nosuch")) /\
  (Execute ["prog"; "help"; "x"; "b"] root tree).1 = Panic nilDereference /\
  (Execute ["prog"; "help"; "x"; "b"] root (Execute ["prog"; "x"] root tree).2).1 =
    Ok (ExitCodeSuccess, None) /\
  (Execute ["prog"; "help"; "a"; "b"; "c"] root tree).1 =
    Ok (ExitCodeSerious, Some (ErrorString "can only give help with one command")).
Proof. vm_compute. done. Qed.

(** ** Flag help *)

Lemma flagHelp_visit_suffix b name fl :
  flagHelp_visit b (name, fl) = (flagHelp_head b name fl +:+ defaultSuffix fl) +:+ nl.
Proof. reflexivity. Qed.

Lemma string_app_nil_inv (s1 s2 : string) : s1 +:+ s2 = "" -> s1 = "".
Proof. by destruct s1. Qed.


(** The suffix of the three kinds of flag, for the default text [abc]: a
    boolean flag and a string flag of package [flag] show it as it is, the
    [stringValue] of [help.go] shows it quoted. *)
Example defaultSuffix_kinds :
  defaultSuffix (mkFlag "usage" (flag_boolValue false) "abc") = " (default abc)" /\
  defaultSuffix (mkFlag "usage" (flag_stringValue "x") "abc") = " (default abc)" /\
  defaultSuffix (mkFlag "usage" (commands_stringValue "x") "abc") =
    " (default " +:+ DQ +:+ "abc" +:+ DQ +:+ ")" /\
  defaultSuffix (mkFlag "usage" (flag_stringValue "x") "") = "".
Proof. by vm_compute. Qed.


(** The same in a run: [prog x -v -zzz] sets [v], fails on [-zzz] and has
    the usage function print the help of [x], in which [v], now [true],
    has no suffix. *)
Example Execute_help_after_flag_set :
  Value_String
    (Flag_Value
       (fs_formal (fsets (Execute ["prog"; "x"; "-v"; "-zzz"] root tree).2 !!! 0) !!! "v")) =
    "true" /\
  written os_Stdout (trace (Execute ["prog"; "x"; "-v"; "-zzz"] root tree).2) =
    ["Do x." +:+ nl +:+ nl +:+ "Usage:" +:+ nl +:+ "  prog x [-v]" +:+ nl +:+ nl +:+
     "Flags:" +:+ nl +:+
     "  -s string    " +:+ tab +:+ "text to show (default abc)" +:+ nl +:+
     "  -v    " +:+ tab +:+ "verbose" +:+ nl].
Proof. vm_compute. done. Qed.

(** A boolean flag whose default is [true] shows it, without quotes. *)
Example defaultSuffix_bool :
  defaultSuffix (mkFlag "usage" (flag_boolValue false) "true") = " (default true)".
Proof. vm_compute. reflexivity. Qed.

(** A value of the type [stringValue] of [help.go] is the one that gets
    the quotes. *)
Example defaultSuffix_commands_stringValue :
  defaultSuffix (mkFlag "usage" (commands_stringValue "abc") "abc") =
    " (default " +:+ DQ +:+ "abc" +:+ DQ +:+ ")".
Proof. vm_compute. reflexivity. Qed.

(** ** Help rendering does not depend on the order of map iteration *)

Lemma sort_Strings_Permutation l1 l2 :
  l1 ≡ₚ l2 -> sort_Strings l1 = sort_Strings l2.
Proof.
  intros H. unfold sort_Strings.
  apply (Sorted_unique String.le); try apply Sorted_merge_sort; try apply _.
  by rewrite !merge_sort_Permutation.
Qed.

Lemma helpResult_range_order h fs names c keys1 keys2 :
  keys1 ≡ₚ keys2 -> helpResult h fs names c keys1 = helpResult h fs names c keys2.
Proof.
  intros H. unfold helpResult.
  by rewrite (Permutation_length H), (sort_Strings_Permutation _ _ H).
Qed.

Lemma showHelp_range_order keys1 keys2 cmd w :
  keys1 ≡ₚ keys2 -> showHelp_range keys1 cmd w = showHelp_range keys2 cmd w.
Proof.
  intros H. unfold showHelp_range.
  destruct (getNames (cmds w) cmd); [|done].
  by rewrite (helpResult_range_order _ _ _ _ _ _ H).
Qed.

(** What [showHelp] reads of the world: the command, the commands up its
    chain of parents (for their names), its children (for their names and
    short texts) and its flag set.  Two worlds that hold the same there
    give the same names, the same text and the same stream. *)
Lemma getNames_fuel_agree n (h h2 : gmap nat Command) : forall cmd,
  (forall m a, ancestor m h cmd = Some a -> h2 !!! a = h !!! a) ->
  getNames_fuel n h2 cmd = getNames_fuel n h cmd.
Proof.
  induction n as [|n IH]; intros cmd H; cbn [getNames_fuel]; [done|].
  rewrite (H 0 cmd eq_refl).
  destruct (parent (h !!! cmd)) as [p|] eqn:Hp; [|done].
  rewrite (IH p); [done|]. intros m a Ha. apply (H (S m)). cbn [ancestor]. by rewrite Hp.
Qed.

Lemma getNames_agree (h h2 : gmap nat Command) cmd :
  (forall m a, ancestor m h cmd = Some a -> h2 !!! a = h !!! a) ->
  getNames h2 cmd = getNames h cmd.
Proof.
  intros H. destruct (getNames h cmd) as [l|] eqn:E.
  - unfold getNames in E. rewrite <- (getNames_fuel_agree _ h h2 cmd H) in E.
    by apply getNames_fuel_enough in E.
  - destruct (getNames h2 cmd) as [l|] eqn:E2; [|done].
    unfold getNames in E2. rewrite (getNames_fuel_agree _ h h2 cmd H) in E2.
    apply getNames_fuel_enough in E2. congruence.
Qed.

Lemma commandLines_agree (h h2 : gmap nat Command) c keys :
  (forall k b, children c !! k = Some b -> h2 !!! b = h !!! b) ->
  commandLines h2 c keys = commandLines h c keys.
Proof.
  intros H. induction keys as [|k keys IH]; [done|]. cbn [commandLines].
  rewrite IH. unfold commandLine.
  destruct (children c !! k) as [b|] eqn:Hk; [|done]. by rewrite (H k b Hk).
Qed.

Lemma helpResult_agree (h h2 : gmap nat Command) fs names c keys :
  (forall k b, children c !! k = Some b -> h2 !!! b = h !!! b) ->
  helpResult h2 fs names c keys = helpResult h fs names c keys.
Proof. intros H. unfold helpResult. by rewrite (commandLines_agree h h2 c _ H). Qed.

Lemma showHelp_range_function keys cmd w :
  exists r evs,
    (evs = [] \/ exists s text, evs = [EvWrite s text]) /\
    showHelp_range keys cmd w = (r, World_emits w evs) /\
    forall w2,
      (forall n a, ancestor n (cmds w) cmd = Some a -> cmds w2 !!! a = cmds w !!! a) ->
      (forall k b, children (cmds w !!! cmd) !! k = Some b ->
         cmds w2 !!! b = cmds w !!! b) ->
      (forall f, Flags (cmds w !!! cmd) = Some f -> fsets w2 !!! f = fsets w !!! f) ->
      showHelp_range keys cmd w2 = (r, World_emits w2 evs).
Proof.
  assert (forall w2,
    (forall n a, ancestor n (cmds w) cmd = Some a -> cmds w2 !!! a = cmds w !!! a) ->
    (forall k b, children (cmds w !!! cmd) !! k = Some b ->
       cmds w2 !!! b = cmds w !!! b) ->
    (forall f, Flags (cmds w !!! cmd) = Some f -> fsets w2 !!! f = fsets w !!! f) ->
    getNames (cmds w2) cmd = getNames (cmds w) cmd /\
    cmds w2 !!! cmd = cmds w !!! cmd /\
    forall names,
      helpResult (cmds w2) ((fun a => fsets w2 !!! a) <$> Flags (cmds w !!! cmd)) names
        (cmds w !!! cmd) keys =
      helpResult (cmds w) ((fun a => fsets w !!! a) <$> Flags (cmds w !!! cmd)) names
        (cmds w !!! cmd) keys) as Hagree.
  { intros w2 Hanc Hch Hfl. split_and!.
    - by apply getNames_agree.
    - by apply (Hanc 0).
    - intros names. rewrite (helpResult_agree (cmds w) (cmds w2)) by done.
      destruct (Flags (cmds w !!! cmd)) as [f|]; [|done]. cbn.
      by rewrite (Hfl f). }
  unfold showHelp_range.
  destruct (getNames (cmds w) cmd) as [ns|] eqn:En.
  - destruct (helpResult (cmds w) _ (Join ns " ") (cmds w !!! cmd) keys) as [text|] eqn:Eh.
    + destruct (stdout (cmds w !!! cmd)) as [s|] eqn:Es.
      * exists (Ok tt), [EvWrite s text]. split_and!; [right; eauto|done|].
        intros w2 Hanc Hch Hfl. destruct (Hagree w2 Hanc Hch Hfl) as (-> & -> & ->).
        by rewrite Eh, Es.
      * exists (Panic nilDereference), []. split_and!; [by left|done|].
        intros w2 Hanc Hch Hfl. destruct (Hagree w2 Hanc Hch Hfl) as (-> & -> & ->).
        by rewrite Eh, Es.
    + exists (Panic nilDereference), []. split_and!; [by left|done|].
      intros w2 Hanc Hch Hfl. destruct (Hagree w2 Hanc Hch Hfl) as (-> & -> & ->).
      by rewrite Eh.
  - exists StackOverflow, []. split_and!; [by left|done|].
    intros w2 Hanc Hch Hfl. destruct (Hagree w2 Hanc Hch Hfl) as (-> & _). done.
Qed.

(** C10: the help of a node is a function of the node, the commands up
    its chain of parents, its children and its flag set.  Whatever the
    orders in which two iterations over the children map deliver the keys,
    a rendering ends in one way and writes one text to one stream (or
    nothing), and so does every rendering from a world in which the node,
    its ancestors, its children and its flag set are the same, whatever
    else differs.  A rendering changes nothing but the trace, so rendering
    twice in a row writes the same text twice. *)
Theorem C10_help_deterministic (cmd : nat) (w : World) (keys1 keys2 : list string) :
  keys1 ≡ₚ keys2 ->
  showHelp_range keys1 cmd w = showHelp_range keys2 cmd w /\
  (exists r evs,
     (evs = [] \/ exists s text, evs = [EvWrite s text]) /\
     showHelp_range keys1 cmd w = (r, World_emits w evs) /\
     forall w2,
       (forall n a, ancestor n (cmds w) cmd = Some a -> cmds w2 !!! a = cmds w !!! a) ->
       (forall k b, children (cmds w !!! cmd) !! k = Some b ->
          cmds w2 !!! b = cmds w !!! b) ->
       (forall f, Flags (cmds w !!! cmd) = Some f -> fsets w2 !!! f = fsets w !!! f) ->
       showHelp_range keys2 cmd w2 = (r, World_emits w2 evs)) /\
  (exists r evs,
     (evs = [] \/ exists s text, evs = [EvWrite s text]) /\
     showHelp cmd w = (r, World_emits w evs) /\
     forall w2,
       (forall n a, ancestor n (cmds w) cmd = Some a -> cmds w2 !!! a = cmds w !!! a) ->
       (forall k b, children (cmds w !!! cmd) !! k = Some b ->
          cmds w2 !!! b = cmds w !!! b) ->
       (forall f, Flags (cmds w !!! cmd) = Some f -> fsets w2 !!! f = fsets w !!! f) ->
       showHelp cmd w2 = (r, World_emits w2 evs)) /\
  (forall w1,
     showHelp cmd w = (Ok tt, w1) ->
     exists s text,
       trace w1 = EvWrite s text :: trace w /\
       trace (showHelp cmd w1).2 = EvWrite s text :: EvWrite s text :: trace w).
Proof.
  intros Hperm. split_and!.
  - by apply showHelp_range_order.
  - destruct (showHelp_range_function keys1 cmd w) as (r & evs & Hevs & H1 & H2).
    exists r, evs. split_and!; [done..|].
    intros w2 Hanc Hch Hfl. rewrite <- (showHelp_range_order _ _ _ _ Hperm). by apply H2.
  - unfold showHelp.
    destruct (showHelp_range_function (map_to_list (children (cmds w !!! cmd))).*1 cmd w)
      as (r & evs & Hevs & H1 & H2).
    exists r, evs. split_and!; [done..|].
    intros w2 Hanc Hch Hfl. rewrite (Hanc 0 cmd eq_refl). by apply H2.
  - intros w1 H1. unfold showHelp in *.
    destruct (showHelp_range_function (map_to_list (children (cmds w !!! cmd))).*1 cmd w)
      as (r & evs & Hevs & H2 & H3).
    rewrite H2 in H1. injection H1 as -> <-.
    destruct Hevs as [->|(s & text & ->)].
    + exfalso. cbn in H2. unfold showHelp_range in H2.
      destruct (getNames (cmds w) cmd); [|done].
      destruct (helpResult _ _ _ _ _); [|done].
      destruct (stdout (cmds w !!! cmd)); [|done].
      cbn in H2. injection H2 as H2. apply (f_equal trace) in H2. cbn in H2.
      apply (f_equal length) in H2. cbn in H2. lia.
    + exists s, text. split; [done|]. cbn [World_emits foldr].
      change (cmds (World_emit w (EvWrite s text))) with (cmds w).
      rewrite (H3 (World_emit w (EvWrite s text))); done.
Qed.

Lemma C10_help_deterministic_witness :
  showHelp_range ["x"; "help"] root tree = showHelp_range ["help"; "x"] root tree /\
  (exists r evs,
     (evs = [] \/ exists s text, evs = [EvWrite s text]) /\
     showHelp_range ["x"; "help"] root tree = (r, World_emits tree evs) /\
     forall w2,
       (forall n a, ancestor n (cmds tree) root = Some a ->
          cmds w2 !!! a = cmds tree !!! a) ->
       (forall k b, children (cmds tree !!! root) !! k = Some b ->
          cmds w2 !!! b = cmds tree !!! b) ->
       (forall f, Flags (cmds tree !!! root) = Some f -> fsets w2 !!! f = fsets tree !!! f) ->
       showHelp_range ["help"; "x"] root w2 = (r, World_emits w2 evs)) /\
  (exists r evs,
     (evs = [] \/ exists s text, evs = [EvWrite s text]) /\
     showHelp root tree = (r, World_emits tree evs) /\
     forall w2,
       (forall n a, ancestor n (cmds tree) root = Some a ->
          cmds w2 !!! a = cmds tree !!! a) ->
       (forall k b, children (cmds tree !!! root) !! k = Some b ->
          cmds w2 !!! b = cmds tree !!! b) ->
       (forall f, Flags (cmds tree !!! root) = Some f -> fsets w2 !!! f = fsets tree !!! f) ->
       showHelp root w2 = (r, World_emits w2 evs)) /\
  (forall w1,
     showHelp root tree = (Ok tt, w1) ->
     exists s text,
       trace w1 = EvWrite s text :: trace tree /\
       trace (showHelp root w1).2 = EvWrite s text :: EvWrite s text :: trace tree).
Proof.
  apply (C10_help_deterministic root tree ["x"; "help"] ["help"; "x"]).
  apply perm_swap.
Defined.

(** The help of the root of [tree], rendered twice. *)
Example showHelp_twice :
  written os_Stdout (trace (showHelp root (showHelp root tree).2).2) =
    [ "The root" +:+ nl +:+ nl +:+ "Usage:" +:+ nl +:+ "  prog <command>" +:+ nl +:+ nl +:+
      "Commands:" +:+ nl +:+ "  help A child named help" +:+ nl +:+ "  x    Do x" +:+ nl +:+
      nl +:+ "Use 'prog help <command>' for more information about a command." +:+ nl;
      "The root" +:+ nl +:+ nl +:+ "Usage:" +:+ nl +:+ "  prog <command>" +:+ nl +:+ nl +:+
      "Commands:" +:+ nl +:+ "  help A child named help" +:+ nl +:+ "  x    Do x" +:+ nl +:+
      nl +:+ "Use 'prog help <command>' for more information about a command." +:+ nl ].
Proof. vm_compute. reflexivity. Qed.

(** ** Streams *)

Lemma linked_same (h h' : gmap nat Command) :
  (forall a, same_but_streams (h !!! a) (h' !!! a)) -> linked h -> linked h'.
Proof.
  intros Hs Hl a k b Hk.
  destruct (same_but_streams_fields _ _ (Hs a)) as (_ & _ & _ & _ & Hch).
  destruct (same_but_streams_fields _ _ (Hs b)) as (_ & _ & _ & Hp & _).
  rewrite Hp. apply (Hl a k). by rewrite <- Hch.
Qed.

Lemma inherited_effective cmd w :
  streams (cmds (inherited cmd w) !!! cmd) = effective_streams w cmd.
Proof.
  unfold effective_streams. destruct (parent (cmds w !!! cmd)) as [p|] eqn:Ep.
  - by apply inherited_streams.
  - by rewrite inherited_root.
Qed.

Lemma Command_set_streams_id c :
  Command_set_streams c (stdin c) (stdout c) (stderr c) = c.
Proof. by destruct c. Qed.

(** Taking the streams of the parent twice is taking them once. *)
Lemma inherited_idem cmd w : inherited cmd (inherited cmd w) = inherited cmd w.
Proof.
  destruct (parent (cmds w !!! cmd)) as [p|] eqn:Ep;
    [|by rewrite !inherited_root by (by rewrite ?inherited_root)].
  unfold inherited at 1.
  destruct (same_but_streams_fields _ _ (inherited_same cmd w cmd)) as (_ & _ & _ & -> & _).
  rewrite Ep.
  assert (streams (cmds (inherited cmd w) !!! p) = streams (cmds w !!! p)) as Hp.
  { destruct (decide (p = cmd)) as [->|Hne].
    - by rewrite (inherited_streams _ _ _ Ep).
    - by rewrite inherited_other. }
  pose proof (inherited_streams _ _ _ Ep) as Hc.
  unfold streams in Hp, Hc. injection Hp as -> -> ->.
  injection Hc as Hc1 Hc2 Hc3. rewrite <- Hc1, <- Hc2, <- Hc3.
  rewrite Command_set_streams_id.
  unfold inherited. rewrite Ep. unfold World_set_cmds. simpl.
  rewrite lookup_total_insert_eq. by rewrite insert_insert_eq.
Qed.

(** [Execute] does not see the streams that the node had before the call:
    it runs as it does from the world in which they are overwritten. *)
Lemma Execute_inherited a0 args1 cmd w :
  Execute (a0 :: args1) cmd w =
    if runnable (cmds w !!! cmd) then Execute (a0 :: args1) cmd (inherited cmd w)
    else (Panic ("invalid command " +:+ Quote (Name (cmds w !!! cmd))), w).
Proof.
  rewrite !Execute_cons. cbv zeta. rewrite inherited_idem.
  destruct (same_but_streams_fields _ _ (inherited_same cmd w cmd))
    as (_ & HF & _ & _ & Hch).
  assert (runnable (cmds (inherited cmd w) !!! cmd) = runnable (cmds w !!! cmd)) as ->.
  { unfold runnable, hasNoFunc. by rewrite HF, Hch. }
  destruct (runnable (cmds w !!! cmd)); [|done].
  by rewrite HF, Hch.
Qed.

(** The handler that a run calls receives the streams with which the run
    began. *)
Lemma Execute_call_streams args : forall cmd w r w' c input,
  linked (cmds w) ->
  Execute args cmd w = (r, w') ->
  calls (trace w') = (c, input) :: calls (trace w) ->
  input_streams input = effective_streams w cmd.
Proof.
  induction args as [|a0 args1 IH]; intros cmd w r w' c input Hl H Hcalls.
  { rewrite Execute_nil in H. simplify_eq.
    apply (f_equal length) in Hcalls. simpl in Hcalls. lia. }
  assert (forall w2 : World, calls (trace w2) = calls (trace w) -> w2 <> w') as Hnot.
  { intros w2 Ht ->. rewrite Ht in Hcalls.
    apply (f_equal length) in Hcalls. simpl in Hcalls. lia. }
  rewrite Execute_cons in H. cbv zeta in H.
  destruct (runnable (cmds w !!! cmd)); [|by simplify_eq; destruct (Hnot w')].
  destruct (parseFlags cmd args1 (inherited cmd w)) as [rp w2] eqn:Ep.
  apply parseFlags_quiet in Ep as [Hc Ht]. rewrite inherited_trace in Ht.
  assert (forall a, same_but_streams (cmds w !!! a) (cmds w2 !!! a)) as Hs.
  { intros a. rewrite Hc. apply inherited_same. }
  assert (forall fs, helpForCommand cmd fs w2 = (r, w') -> False) as Hhelp.
  { intros fs Hh. apply helpForCommand_quiet in Hh as [[_ Ht'] _].
    apply (Hnot w'); [congruence|done]. }
  assert (forall fs f, callFunc cmd f fs w2 = (r, w') ->
            input_streams input = effective_streams w cmd) as Hcall.
  { intros fs f Hf. rewrite callFunc_unfold in Hf. cbv zeta in Hf. simplify_eq.
    simpl in Hcalls. rewrite Ht in Hcalls. simplify_eq.
    unfold input_streams. simpl. rewrite Hc.
    apply inherited_effective. }
  destruct rp as [[fs [err|]]|v|code|]; simplify_eq;
    try (by destruct (Hnot w')).
  destruct args1 as [|a1 rest].
  { destruct (Func (cmds w !!! cmd)); [eauto|by destruct (Hhelp fs)]. }
  destruct (String.eqb a1 "help"); [by destruct (Hhelp fs)|].
  destruct (children (cmds w !!! cmd) !! a1) as [sub|] eqn:Esub.
  - assert (input_streams input = effective_streams w2 sub) as ->.
    { eapply (IH sub w2 r w' c); [by eapply linked_same|exact H|]. by rewrite Ht. }
    unfold effective_streams at 1.
    destruct (same_but_streams_fields _ _ (Hs sub)) as (_ & _ & _ & -> & _).
    rewrite (Hl _ _ _ Esub), Hc. apply inherited_effective.
  - destruct (Func (cmds w !!! cmd)); [eauto|by destruct (Hhelp fs)].
Qed.

Lemma RegisterChild_streams c cmd w a :
  streams (cmds (RegisterChild c cmd w).2 !!! a) = streams (cmds w !!! a).
Proof.
  rewrite RegisterChild_unfold. cbv zeta.
  repeat case_match; simpl; try done. apply registered_streams.
Qed.

(** Registration keeps the parent pointers in agreement with the children
    maps, for a child that no command lists yet. *)
Lemma registered_linked c cmd w :
  linked (cmds w) ->
  (forall a k, children (cmds w !!! a) !! k <> Some cmd) ->
  linked (cmds (registered c cmd w)).
Proof.
  intros Hl Hfresh. unfold registered. cbv zeta. simpl.
  set (h := cmds w) in *.
  set (h1 := <[cmd := Command_set_parent (h !!! cmd) (Some c)]> h).
  assert (forall a, children (h1 !!! a) = children (h !!! a)) as F1.
  { intros a. subst h1. destruct (decide (cmd = a)) as [->|Hne].
    - by rewrite lookup_total_insert_eq.
    - by rewrite lookup_total_insert_ne. }
  assert (forall a, a <> cmd -> parent (h1 !!! a) = parent (h !!! a)) as F2.
  { intros a Hne. subst h1. by rewrite lookup_total_insert_ne. }
  assert (parent (h1 !!! cmd) = Some c) as F2'.
  { subst h1. by rewrite lookup_total_insert_eq. }
  intros a k b Hk.
  assert (parent (h1 !!! b) = Some a) as Hgoal; cycle 1.
  { destruct (decide (c = b)) as [->|Hne].
    - by rewrite lookup_total_insert_eq.
    - by rewrite lookup_total_insert_ne. }
  destruct (decide (c = a)) as [->|Hne].
  - rewrite lookup_total_insert_eq in Hk. simpl in Hk.
    destruct (decide (Name (h !!! cmd) = k)) as [Hk'|Hk'].
    + subst k. rewrite lookup_insert_eq in Hk. by simplify_eq.
    + rewrite lookup_insert_ne, F1 in Hk by done.
      rewrite F2; [by eapply Hl|]. intros ->. by eapply Hfresh.
  - rewrite lookup_total_insert_ne, F1 in Hk by done.
    rewrite F2; [by eapply Hl|]. intros ->. by eapply Hfresh.
Qed.

Lemma linked_no_children (h : gmap nat Command) :
  (forall a, children (h !!! a) = ∅) -> linked h.
Proof. intros H a k b Hk. by rewrite H, lookup_empty in Hk. Qed.

(** The parent pointers of [tree] agree with its children maps. *)
Lemma linked_tree : linked (cmds tree).
Proof.
  intros a k b Hk.
  destruct (cmds tree !! a) as [c|] eqn:Ea; cycle 1.
  { rewrite lookup_total_alt, Ea in Hk. simpl in Hk. by rewrite lookup_empty in Hk. }
  rewrite lookup_total_alt, Ea in Hk. simpl in Hk.
  apply elem_of_map_to_list in Ea, Hk.
  vm_compute (map_to_list (cmds tree)) in Ea.
  repeat (apply elem_of_cons in Ea as [Ea|Ea]; [simplify_eq|]);
    try by apply elem_of_nil in Ea.
  all: vm_compute in Hk.
  all: repeat (apply elem_of_cons in Hk as [Hk|Hk]; [simplify_eq; by vm_compute|]).
  all: by apply elem_of_nil in Hk.
Qed.

(** In [tree], with the output of the root set to the stream 7 before the
    run, [prog x] visits [x], whose streams were nil since registration:
    its handler receives the stream 7. *)
Example Execute_override_reaches_child :
  streams (cmds tree !!! 1) = (None, None, None) /\
  (input_streams <$>
     (calls (trace (Execute ["prog"; "x"] root (Root.Stdout (Some 7) tree).2).2)).*2) =
    [(Some os_Stdin, Some 7, Some os_Stderr)].
Proof. by vm_compute. Qed.

(** ** The name format at registration *)

(** C6: the name-format check of [RegisterChild] accepts a string exactly
    when it is one lowercase alphanumeric character or a hyphen-delimited
    run of lowercase alphanumeric groups with no hyphen at either end and
    no two hyphens in a row; a child with any other name is refused, and a
    child with such a name, a [Short] and no sibling of that name is
    registered. *)
Theorem C6_name_format (name : string) :
  (MatchString commandNameRegex name = true <-> valid_name name) /\
  (forall c cmd w,
     Name (cmds w !!! cmd) = name -> ~ valid_name name ->
     exists v, RegisterChild c cmd w = (Panic v, w)) /\
  (forall c cmd w,
     Name (cmds w !!! cmd) = name -> valid_name name ->
     Short (cmds w !!! cmd) <> "" ->
     children (cmds w !!! c) !! name = None ->
     RegisterChild c cmd w = (Ok tt, registered c cmd w)).
Proof.
  split_and!.
  - apply commandNameRegex_valid_name.
  - intros c cmd w Hname Hbad. apply not_valid_name_iff in Hbad.
    rewrite RegisterChild_unfold. cbv zeta. rewrite Hname, Hbad.
    repeat case_match; simplify_eq/=; eauto.
  - intros c cmd w Hname Hok Hshort Hfree.
    pose proof Hok as Hmatch. apply commandNameRegex_valid_name in Hmatch.
    rewrite RegisterChild_unfold. cbv zeta. rewrite Hname, Hfree, Hmatch.
    apply String.eqb_neq in Hshort. rewrite Hshort.
    destruct (String.eqb_spec name "") as [->|_]; [|done].
    by vm_compute in Hmatch.
Qed.

(** The children of [tree] were registered under these names. *)
Example RegisterChild_accepts_names :
  (RegisterChild root 1 tree_unregistered).1 = Ok tt /\
  (RegisterChild root 2 (RegisterChild root 1 tree_unregistered).2).1 = Ok tt /\
  (RegisterChild root 1 tree).1 = Panic "command already registered: x".
Proof. vm_compute. done. Qed.

(** * Further properties of the code *)

(** ** Registration: what it changes and what it keeps *)

Lemma registered_lookup c cmd w a :
  cmds (registered c cmd w) !!! a =
    let x := cmds w !!! a in
    let x := if decide (a = cmd) then Command_set_parent x (Some c) else x in
    if decide (a = c) then
      Command_set_children x (<[Name (cmds w !!! cmd) := cmd]> (children x))
        (if (longestName x <? len (Name (cmds w !!! cmd)))%nat
         then len (Name (cmds w !!! cmd)) else longestName x)
    else x.
Proof.
  unfold registered. cbn [cmds World_set_cmds]. cbv zeta.
  destruct (decide (a = c)) as [->|Hac].
  - rewrite lookup_total_insert_eq.
    destruct (decide (c = cmd)) as [->|Hcc].
    + by rewrite lookup_total_insert_eq.
    + by rewrite lookup_total_insert_ne.
  - rewrite lookup_total_insert_ne by done.
    destruct (decide (a = cmd)) as [->|Hcc].
    + by rewrite lookup_total_insert_eq.
    + by rewrite lookup_total_insert_ne.
Qed.

Lemma RegisterChild_Ok_inv c cmd w u w' :
  RegisterChild c cmd w = (Ok u, w') ->
  w' = registered c cmd w /\
  Name (cmds w !!! cmd) <> "" /\ Short (cmds w !!! cmd) <> "" /\
  children (cmds w !!! c) !! Name (cmds w !!! cmd) = None /\
  MatchString commandNameRegex (Name (cmds w !!! cmd)) = true.
Proof.
  rewrite RegisterChild_unfold. cbv zeta.
  destruct (String.eqb_spec (Name (cmds w !!! cmd)) "") as [|Hn]; [done|].
  destruct (String.eqb_spec (Short (cmds w !!! cmd)) "") as [|Hs]; [done|].
  destruct (children (cmds w !!! c) !! Name (cmds w !!! cmd)) eqn:Hc; [done|].
  destruct (MatchString commandNameRegex (Name (cmds w !!! cmd))) eqn:Hm; [|done].
  cbn. intros [= <- <-]. done.
Qed.

Lemma RegisterChild_world c cmd w :
  (RegisterChild c cmd w).2 = w \/ 
  (RegisterChild c cmd w = (Ok tt, registered c cmd w)).
Proof.
  rewrite RegisterChild_unfold. cbv zeta.
  repeat case_match; auto.
Qed.
Lemma registered_fields c cmd w a :
  Name (cmds (registered c cmd w) !!! a) = Name (cmds w !!! a) /\
  Func (cmds (registered c cmd w) !!! a) = Func (cmds w !!! a) /\
  Usage (cmds (registered c cmd w) !!! a) = Usage (cmds w !!! a) /\
  Short (cmds (registered c cmd w) !!! a) = Short (cmds w !!! a) /\
  Long (cmds (registered c cmd w) !!! a) = Long (cmds w !!! a) /\
  Flags (cmds (registered c cmd w) !!! a) = Flags (cmds w !!! a).
Proof.
  rewrite registered_lookup. cbv zeta.
  destruct (decide (a = cmd)), (decide (a = c)); done.
Qed.

Lemma registered_children_eq c cmd w a :
  children (cmds (registered c cmd w) !!! a) =
    if decide (a = c) then <[Name (cmds w !!! cmd) := cmd]> (children (cmds w !!! c))
    else children (cmds w !!! a).
Proof.
  rewrite registered_lookup. cbv zeta.
  destruct (decide (a = cmd)), (decide (a = c)); by subst.
Qed.

Lemma registered_parent c cmd w a :
  parent (cmds (registered c cmd w) !!! a) =
    if decide (a = cmd) then Some c else parent (cmds w !!! a).
Proof.
  rewrite registered_lookup. cbv zeta.
  destruct (decide (a = cmd)), (decide (a = c)); by subst.
Qed.

Lemma registered_longestName c cmd w a :
  longestName (cmds (registered c cmd w) !!! a) =
    if decide (a = c)
    then longestName (cmds w !!! c) `max` len (Name (cmds w !!! cmd))
    else longestName (cmds w !!! a).
Proof.
  rewrite registered_lookup. cbv zeta.
  destruct (decide (a = cmd)), (decide (a = c)); subst; try done;
    cbn [longestName Command_set_children Command_set_parent Name];
    match goal with
    | |- context [(?x <? ?y)%nat] => destruct (Nat.ltb_spec x y)
    end; lia.
Qed.

Lemma registered_names_fit c cmd w :
  names_fit (cmds w) -> names_fit (cmds (registered c cmd w)).
Proof.
  intros Hfit a k b. rewrite registered_children_eq, registered_longestName.
  rewrite (proj1 (registered_fields c cmd w b)).
  destruct (decide (a = c)) as [->|Hac]; [|apply Hfit].
  destruct (decide (k = Name (cmds w !!! cmd))) as [->|Hk].
  - rewrite lookup_insert_eq. intros [= <-]. lia.
  - rewrite lookup_insert_ne by done. intros H%Hfit. lia.
Qed.

Lemma registered_well_named c cmd w :
  valid_name (Name (cmds w !!! cmd)) ->
  well_named (cmds w) -> well_named (cmds (registered c cmd w)).
Proof.
  intros Hv Hwn a k b. rewrite registered_children_eq.
  rewrite (proj1 (registered_fields c cmd w b)).
  destruct (decide (a = c)) as [->|Hac]; [|apply Hwn].
  destruct (decide (k = Name (cmds w !!! cmd))) as [->|Hk].
  - rewrite lookup_insert_eq. intros [= <-]. done.
  - rewrite lookup_insert_ne by done. apply Hwn.
Qed.

Lemma is_flag_token_head c s : c <> "-"%char -> is_flag_token (String c s) = false.
Proof.
  intros Hc. by destruct c as [[] [] [] [] [] [] [] []].
Qed.

Lemma valid_name_head k :
  valid_name k -> exists c s, k = String c s /\ c <> "-"%char.
Proof.
  intros [(c & -> & Hc)|(Hne & _ & Hhead & _)].
  - exists c, EmptyString. split; [done|]. intros ->. by vm_compute in Hc.
  - destruct k as [|c s]; [done|]. exists c, s. split; [done|].
    intros ->. by apply Hhead.
Qed.

Lemma valid_name_not_flag k : valid_name k -> is_flag_token k = false.
Proof.
  intros (c & s & -> & Hc)%valid_name_head. by apply is_flag_token_head.
Qed.

(** X1: what an accepted registration changes, and what it leaves
    alone.  The children map of the parent gains the entry for the name of
    the child, the parent pointer of the child names the parent, and
    [longestName] of the parent becomes the larger of its old value and
    the length of the name.  The children maps and [longestName] of the
    other commands, the parent pointers of the other commands, the other
    fields of all commands, the flag sets and the trace stay as they
    were. *)
Theorem X1_RegisterChild_effect (c cmd : nat) (w w' : World) :
  RegisterChild c cmd w = (Ok tt, w') ->
  children (cmds w' !!! c) =
    <[Name (cmds w !!! cmd) := cmd]> (children (cmds w !!! c)) /\
  parent (cmds w' !!! cmd) = Some c /\
  longestName (cmds w' !!! c) =
    longestName (cmds w !!! c) `max` len (Name (cmds w !!! cmd)) /\
  (forall a, a <> c ->
     children (cmds w' !!! a) = children (cmds w !!! a) /\
     longestName (cmds w' !!! a) = longestName (cmds w !!! a)) /\
  (forall a, a <> cmd -> parent (cmds w' !!! a) = parent (cmds w !!! a)) /\
  (forall a,
     Name (cmds w' !!! a) = Name (cmds w !!! a) /\
     Func (cmds w' !!! a) = Func (cmds w !!! a) /\
     Usage (cmds w' !!! a) = Usage (cmds w !!! a) /\
     Short (cmds w' !!! a) = Short (cmds w !!! a) /\
     Long (cmds w' !!! a) = Long (cmds w !!! a) /\
     Flags (cmds w' !!! a) = Flags (cmds w !!! a) /\
     streams (cmds w' !!! a) = streams (cmds w !!! a)) /\
  fsets w' = fsets w /\ trace w' = trace w /\ os_Args w' = os_Args w.
Proof.
  intros H. apply RegisterChild_Ok_inv in H as [-> _]. split_and!.
  - rewrite registered_children_eq. by rewrite decide_True.
  - rewrite registered_parent. by rewrite decide_True.
  - rewrite registered_longestName. by rewrite decide_True.
  - intros a Ha. rewrite registered_children_eq, registered_longestName.
    by rewrite !decide_False.
  - intros a Ha. rewrite registered_parent. by rewrite decide_False.
  - intros a. destruct (registered_fields c cmd w a) as (?&?&?&?&?&?).
    pose proof (registered_streams c cmd w a). by split_and!.
  - done.
  - done.
  - done.
Qed.

Lemma X1_RegisterChild_effect_witness :
  children (cmds tree !!! root) = <[ "help" := 2 ]> {[ "x" := 1 ]} /\
  parent (cmds tree !!! 2) = Some root /\
  longestName (cmds tree !!! root) = 4.
Proof.
  pose proof (X1_RegisterChild_effect root 2 (RegisterChild root 1 tree_unregistered).2 tree
                eq_refl) as (H1 & H2 & H3 & _).
  split_and!.
  - rewrite H1. vm_compute. done.
  - exact H2.
  - rewrite H3. vm_compute. done.
Defined.

Lemma len_app (s1 s2 : string) : len (s1 +:+ s2) = len s1 + len s2.
Proof. unfold len. induction s1 as [|c s1 IH]; simpl; [done|]. by rewrite IH. Qed.

Lemma len_spaces n : len (spaces n) = n.
Proof. unfold len. induction n as [|n IH]; simpl; [done|]. by rewrite IH. Qed.

Lemma len_padRight n s : len (padRight n s) = len s + (n - RuneCountInString s).
Proof. unfold padRight. by rewrite len_app, len_spaces. Qed.

(** A text of ASCII bytes has a rune for each byte. *)
Lemma RuneCountInString_ascii s :
  Forall (fun c => nat_of_ascii c < 128) (list_ascii_of_string s) ->
  RuneCountInString s = len s.
Proof.
  unfold len. induction s as [|c0 s1 IH]; intros H; [done|].
  cbn [list_ascii_of_string] in H. apply Forall_cons in H as [H0 H1].
  specialize (IH H1). cbn [String.length]. rewrite <- IH.
  assert (forall lo hi, 128 <= lo -> between lo hi c0 = false) as Hb.
  { intros lo hi Hlo. unfold between. apply andb_false_iff. left.
    apply Nat.leb_gt. lia. }
  cbn [RuneCountInString]. unfold utf8_two, utf8_three, utf8_four.
  rewrite !Hb by lia. cbn [andb orb].
  by destruct s1 as [|c1 [|c2 [|c3 s4]]].
Qed.

Lemma name_char_ascii c : name_char c -> nat_of_ascii c < 128.
Proof.
  intros [H| ->]; [|vm_compute; lia].
  unfold is_lower_alnum, in_class, in_range in H. cbn in H.
  assert (nat_of_ascii "z" = 122 /\ nat_of_ascii "9" = 57) as [Hz H9] by done.
  repeat (apply orb_prop in H as [H|H]); try done;
    apply andb_prop in H as [_ H]; apply Nat.leb_le in H; lia.
Qed.

Lemma valid_name_ascii k :
  valid_name k -> Forall (fun c => nat_of_ascii c < 128) (list_ascii_of_string k).
Proof.
  intros [(c & -> & Hc)|(_ & Hall & _)].
  - cbn. apply Forall_cons. split; [apply name_char_ascii; by left|by apply Forall_nil].
  - eapply Forall_impl; [exact Hall|]. apply name_char_ascii.
Qed.

Lemma no_children_invariants (h : gmap nat Command) :
  (forall a, children (h !!! a) = ∅) -> names_fit h /\ well_named h.
Proof. intros He. split; intros a k b; rewrite He; done. Qed.

Lemma RegisterChild_keeps_invariants c cmd w :
  names_fit (cmds w) /\ well_named (cmds w) ->
  names_fit (cmds (RegisterChild c cmd w).2) /\
  well_named (cmds (RegisterChild c cmd w).2).
Proof.
  intros [Hfit Hwn].
  destruct (RegisterChild c cmd w) as [r w'] eqn:HR.
  destruct (RegisterChild_world c cmd w) as [Hw|Hw].
  - rewrite HR in Hw. cbn in *. by subst.
  - rewrite Hw in HR. injection HR as <- <-.
    apply RegisterChild_Ok_inv in Hw as (_ & _ & _ & _ & Hm).
    apply commandNameRegex_valid_name in Hm. cbn. split.
    + by apply registered_names_fit.
    + by apply registered_well_named.
Qed.

Lemma tree_unregistered_children a : children (cmds tree_unregistered !!! a) = ∅.
Proof.
  destruct (cmds tree_unregistered !! a) as [x|] eqn:Hx.
  - rewrite (lookup_total_correct _ _ _ Hx).
    apply elem_of_map_to_list in Hx.
    vm_compute (map_to_list (cmds tree_unregistered)) in Hx.
    repeat (apply elem_of_cons in Hx as [Hx|Hx]; [simplify_eq|]);
      try by apply elem_of_nil in Hx.
    all: by vm_compute.
  - by rewrite lookup_total_alt, Hx.
Qed.

Lemma tree_invariants : names_fit (cmds tree) /\ well_named (cmds tree).
Proof.
  unfold tree. do 2 apply RegisterChild_keeps_invariants.
  apply no_children_invariants, tree_unregistered_children.
Qed.

(** X2: the two invariants of the children maps that registration keeps:
    every child is listed under its own name, which has the name format,
    and no listed name is longer than [longestName] of the command that
    lists it.  They hold whether the registration is accepted or
    refused. *)
Theorem X2_RegisterChild_invariants (c cmd : nat) (w : World) :
  names_fit (cmds w) -> well_named (cmds w) ->
  names_fit (cmds (RegisterChild c cmd w).2) /\
  well_named (cmds (RegisterChild c cmd w).2).
Proof. intros. by apply RegisterChild_keeps_invariants. Qed.

Lemma X2_RegisterChild_invariants_witness :
  names_fit (cmds (RegisterChild root 1 tree_unregistered).2) /\
  well_named (cmds (RegisterChild root 1 tree_unregistered).2).
Proof.
  apply X2_RegisterChild_invariants;
    apply no_children_invariants, tree_unregistered_children.
Defined.

(** X3: under the two invariants, the line of a child in the commands
    block of the help shows the key under which the child is listed,
    padded to exactly [longestName] columns, so that the descriptions of
    all children start in the same column; and the key is never read as a
    flag by the flag parser. *)
Theorem X3_commandLine_aligned (h : gmap nat Command) (a : nat) (k : string) (b : nat) :
  names_fit h -> well_named h ->
  children (h !!! a) !! k = Some b ->
  commandLine h (h !!! a) k =
    Some ("  " +:+ padRight (longestName (h !!! a)) k +:+ " " +:+
          TrimSuffix (Short (h !!! b)) "." +:+ nl) /\
  len (padRight (longestName (h !!! a)) k) = longestName (h !!! a) /\
  is_flag_token k = false.
Proof.
  intros Hfit Hwn Hk. destruct (Hwn _ _ _ Hk) as [Hname Hv].
  pose proof (Hfit _ _ _ Hk) as Hlen. rewrite Hname in Hlen.
  split_and!.
  - unfold commandLine. by rewrite Hk, Hname.
  - rewrite len_padRight, (RuneCountInString_ascii k) by by apply valid_name_ascii.
    lia.
  - by apply valid_name_not_flag.
Qed.

Lemma X3_commandLine_aligned_witness :
  commandLine (cmds tree) (cmds tree !!! root) "x" =
    Some ("  " +:+ padRight (longestName (cmds tree !!! root)) "x" +:+ " " +:+
          TrimSuffix (Short (cmds tree !!! 1)) "." +:+ nl) /\
  len (padRight (longestName (cmds tree !!! root)) "x") = longestName (cmds tree !!! root) /\
  is_flag_token "x" = false.
Proof.
  apply X3_commandLine_aligned.
  - apply tree_invariants.
  - apply tree_invariants.
  - by vm_compute.
Defined.
(** X4: registering a command that no command lists yet keeps the parent
    pointers in agreement with the children maps, whether the registration
    is accepted or refused. *)
Theorem X4_RegisterChild_linked (c cmd : nat) (w : World) :
  linked (cmds w) ->
  (forall a k, children (cmds w !!! a) !! k <> Some cmd) ->
  linked (cmds (RegisterChild c cmd w).2).
Proof.
  intros Hl Hfresh. destruct (RegisterChild_world c cmd w) as [->| ->]; [done|].
  by apply registered_linked.
Qed.

Lemma X4_RegisterChild_linked_witness :
  linked (cmds (RegisterChild root 1 tree_unregistered).2).
Proof.
  apply X4_RegisterChild_linked.
  - apply linked_no_children, tree_unregistered_children.
  - intros a k. by rewrite tree_unregistered_children.
Defined.

(** X5: [RegisterChild] does not look at the parent that the child already
    has.  A command listed by [a] that is registered under another
    command [c] stays in the children map of [a], but its parent pointer
    now names [c]: the parent pointers no longer agree with the children
    maps, and a dispatch through [a] gives the child the streams of
    [c]. *)
Theorem X5_RegisterChild_reparents (a c cmd : nat) (k : string) (w w' : World) :
  a <> c ->
  children (cmds w !!! a) !! k = Some cmd ->
  RegisterChild c cmd w = (Ok tt, w') ->
  children (cmds w' !!! a) !! k = Some cmd /\
  parent (cmds w' !!! cmd) = Some c /\
  effective_streams w' cmd = streams (cmds w !!! c) /\
  ~ linked (cmds w').
Proof.
  intros Hac Hk H. apply RegisterChild_Ok_inv in H as [-> _].
  assert (children (cmds (registered c cmd w) !!! a) !! k = Some cmd) as Hk'.
  { rewrite registered_children_eq. by rewrite decide_False. }
  assert (parent (cmds (registered c cmd w) !!! cmd) = Some c) as Hp.
  { rewrite registered_parent. by rewrite decide_True. }
  split_and!; [done|done| |].
  - unfold effective_streams. rewrite Hp. apply registered_streams.
  - intros Hl. apply Hl in Hk'. congruence.
Qed.

Lemma X5_RegisterChild_reparents_witness :
  children (cmds (RegisterChild 2 1 tree).2 !!! root) !! "x" = Some 1 /\
  parent (cmds (RegisterChild 2 1 tree).2 !!! 1) = Some 2 /\
  effective_streams (RegisterChild 2 1 tree).2 1 = streams (cmds tree !!! 2) /\
  ~ linked (cmds (RegisterChild 2 1 tree).2).
Proof.
  apply (X5_RegisterChild_reparents root 2 1 "x" tree); [done|by vm_compute|by vm_compute].
Defined.
(** ** The chain of parents and [getNames] *)

Lemma getNames_unfold (h : gmap nat Command) cmd :
  getNames h cmd =
    match parent (h !!! cmd) with
    | None => Some [Name (h !!! cmd)]
    | Some p => (fun l => l ++ [Name (h !!! cmd)]) <$> getNames h p
    end.
Proof.
  unfold getNames at 1. cbn [getNames_fuel].
  destruct (parent (h !!! cmd)) as [p|] eqn:Hp; [|done].
  f_equal. destruct (getNames_fuel (size h) h p) as [l|] eqn:E.
  - symmetry. apply (getNames_fuel_mono _ _ _ _ _ E). unfold getNames. lia.
  - destruct (getNames h p) as [l|] eqn:E2; [|done]. exfalso.
    assert (getNames_fuel (S (S (size h))) h cmd = Some (l ++ [Name (h !!! cmd)])) as H.
    { cbn [getNames_fuel]. rewrite Hp. unfold getNames in E2. cbn [getNames_fuel] in E2.
      by rewrite E2. }
    apply getNames_fuel_enough in H. unfold getNames in H. cbn [getNames_fuel] in H.
    rewrite Hp, E in H. done.
Qed.

Lemma getNames_fuel_same n (h h' : gmap nat Command) :
  (forall a, parent (h' !!! a) = parent (h !!! a) /\ Name (h' !!! a) = Name (h !!! a)) ->
  forall cmd, getNames_fuel n h' cmd = getNames_fuel n h cmd.
Proof.
  intros Hs. induction n as [|n IH]; intros cmd; cbn [getNames_fuel]; [done|].
  destruct (Hs cmd) as [-> ->]. destruct (parent (h !!! cmd)); [|done].
  by rewrite IH.
Qed.

Lemma getNames_same (h h' : gmap nat Command) cmd :
  (forall a, parent (h' !!! a) = parent (h !!! a) /\ Name (h' !!! a) = Name (h !!! a)) ->
  getNames h' cmd = getNames h cmd.
Proof.
  intros Hs.
  destruct (getNames h cmd) as [l|] eqn:E.
  - unfold getNames in E. rewrite <- (getNames_fuel_same _ h h' Hs) in E.
    by apply getNames_fuel_enough in E.
  - destruct (getNames h' cmd) as [l|] eqn:E'; [|done].
    unfold getNames in E'. rewrite (getNames_fuel_same _ h h' Hs) in E'.
    apply getNames_fuel_enough in E'. congruence.
Qed.

Lemma getNames_ends (h : gmap nat Command) n : forall cmd top,
  ancestor n h cmd = Some top -> parent (h !!! top) = None ->
  exists l, getNames h cmd = Some l /\ length l = S n.
Proof.
  induction n as [|n IH]; intros cmd top Ha Htop; cbn [ancestor] in Ha.
  - injection Ha as ->. rewrite getNames_unfold, Htop. by eexists.
  - rewrite getNames_unfold. destruct (parent (h !!! cmd)) as [p|]; [|done].
    destruct (IH _ _ Ha Htop) as (l & -> & Hl).
    eexists. split; [done|]. rewrite length_app. cbn. lia.
Qed.

Lemma getNames_path (h : gmap nat Command) l : forall cmd,
  getNames h cmd = Some l ->
  (exists top, ancestor (length l - 1) h cmd = Some top /\ parent (h !!! top) = None) /\
  (forall i a, ancestor i h cmd = Some a ->
     i < length l /\ l !! (length l - 1 - i) = Some (Name (h !!! a))).
Proof.
  induction l as [|x l IH] using rev_ind; intros cmd H;
    rewrite getNames_unfold in H.
  { destruct (parent (h !!! cmd)); [|done].
    destruct (getNames h n) as [[|??]|]; done. }
  destruct (parent (h !!! cmd)) as [p|] eqn:Hp.
  - destruct (getNames h p) as [l0|] eqn:E; [|done].
    cbn in H. injection H as H. apply app_inj_tail in H as [-> <-].
    destruct (IH _ E) as [(top & Ht & Htop) Hall].
    assert (0 < length l) as Hpos.
    { destruct (Hall 0 p eq_refl). lia. }
    rewrite length_app. cbn [length]. split.
    + exists top. split; [|done].
      replace (length l + 1 - 1) with (S (length l - 1)) by lia.
      cbn [ancestor]. by rewrite Hp.
    + intros [|i] a Ha; cbn [ancestor] in Ha.
      * injection Ha as <-. split; [lia|].
        replace (length l + 1 - 1 - 0) with (length l) by lia.
        by rewrite list_lookup_middle.
      * rewrite Hp in Ha. destruct (Hall _ _ Ha) as [Hi Hlk]. split; [lia|].
        replace (length l + 1 - 1 - S i) with (length l - 1 - i) by lia.
        rewrite lookup_app_l by lia. done.
  - injection H as H.
    assert (l = [] /\ x = Name (h !!! cmd)) as [-> ->].
    { destruct l as [|y l]; simplify_eq/=; [done|]. by destruct l. }
    split.
    + exists cmd. by cbn.
    + intros [|i] a Ha; cbn [ancestor] in Ha.
      * injection Ha as <-. split; [cbn; lia|done].
      * by rewrite Hp in Ha.
Qed.

(** X6: [getNames] returns exactly when the chain of parents of the
    command ends, at a command without parent (otherwise the recursion
    does not end).  It then returns the names along the chain, the topmost
    first and the name of the command itself last: one name for each
    command of the chain. *)
Theorem X6_getNames_chain (h : gmap nat Command) (cmd : nat) :
  (is_Some (getNames h cmd) <->
     exists n top, ancestor n h cmd = Some top /\ parent (h !!! top) = None) /\
  (forall l, getNames h cmd = Some l ->
     (forall n top, ancestor n h cmd = Some top -> parent (h !!! top) = None ->
        length l = S n) /\
     (forall i a, ancestor i h cmd = Some a ->
        i < length l /\ l !! (length l - 1 - i) = Some (Name (h !!! a)))).
Proof.
  split.
  - split.
    + intros [l Hl]. destruct (getNames_path _ _ _ Hl) as [(top & H1 & H2) _]. eauto.
    + intros (n & top & H1 & H2). destruct (getNames_ends _ _ _ _ H1 H2) as (l & -> & _).
      done.
  - intros l Hl. split.
    + intros n top H1 H2. destruct (getNames_ends _ _ _ _ H1 H2) as (l' & Hl' & <-).
      congruence.
    + by apply getNames_path.
Qed.

Example getNames_tree :
  getNames (cmds tree) 1 = Some ["prog"; "x"] /\ ancestor 1 (cmds tree) 1 = Some root.
Proof. by vm_compute. Qed.

Lemma getNames_self_parent (h : gmap nat Command) cmd :
  parent (h !!! cmd) = Some cmd -> getNames h cmd = None.
Proof.
  intros Hp. unfold getNames. generalize (S (size h)). intros n.
  induction n as [|n IH]; cbn [getNames_fuel]; [done|]. by rewrite Hp, IH.
Qed.

Lemma showHelp_overflow cmd w :
  getNames (cmds w) cmd = None -> showHelp cmd w = (StackOverflow, w).
Proof. intros H. unfold showHelp, showHelp_range. by rewrite H. Qed.
Lemma ancestor_add (h : gmap nat Command) i : forall j cmd,
  ancestor (i + j) h cmd = ancestor i h cmd ≫= ancestor j h.
Proof.
  induction i as [|i IH]; intros j cmd; cbn [ancestor Nat.add]; [done|].
  destruct (parent (h !!! cmd)); [apply IH|done].
Qed.

Lemma ancestor_cycle (h : gmap nat Command) n cmd k :
  ancestor n h cmd = Some cmd -> ancestor (k * n) h cmd = Some cmd.
Proof.
  intros Hn. induction k as [|k IH]; [done|].
  cbn [Nat.mul]. by rewrite ancestor_add, Hn.
Qed.

Lemma getNames_cycle (h : gmap nat Command) n cmd :
  0 < n -> ancestor n h cmd = Some cmd -> getNames h cmd = None.
Proof.
  intros Hpos Hn. destruct (getNames h cmd) as [l|] eqn:E; [|done]. exfalso.
  destruct (getNames_path _ _ _ E) as [_ Hall].
  destruct (Hall _ _ (ancestor_cycle h n cmd (length l) Hn)) as [Hlt _]. nia.
Qed.

Lemma has_child_runnable (c : Command) k b : children c !! k = Some b -> runnable c = true.
Proof.
  intros Hk. unfold runnable.
  destruct (Nat.eqb_spec (size (children c)) 0) as [Hz|]; [|done].
  apply map_size_empty_iff in Hz. by rewrite Hz in Hk.
Qed.

(** X7: a command that is its own ancestor through the parent pointers
    has no help: [showHelp] does not return, the recursion of [getNames]
    goes on until the stack overflows, and nothing is written. *)
Theorem X7_showHelp_parent_cycle (n cmd : nat) (w : World) :
  0 < n -> ancestor n (cmds w) cmd = Some cmd ->
  showHelp cmd w = (StackOverflow, w).
Proof. intros Hpos Hn. apply showHelp_overflow. by apply (getNames_cycle _ n). Qed.

Lemma X7_showHelp_parent_cycle_witness :
  showHelp 1 (RegisterChild 2 1 (RegisterChild 1 2 tree_unregistered).2).2 =
    (StackOverflow, (RegisterChild 2 1 (RegisterChild 1 2 tree_unregistered).2).2).
Proof. apply (X7_showHelp_parent_cycle 2); [lia|by vm_compute]. Defined.

(** X8: [RegisterChild] accepts a command as a child of itself.  The
    command is then its own parent, and asking it for help does not
    return. *)
Theorem X8_RegisterChild_self (c : nat) (w w' : World) (a0 : string) :
  RegisterChild c c w = (Ok tt, w') ->
  children (cmds w' !!! c) !! Name (cmds w !!! c) = Some c /\
  parent (cmds w' !!! c) = Some c /\
  (showHelp c w').1 = StackOverflow /\
  (Execute [a0; "help"] c w').1 = StackOverflow.
Proof.
  intros H. apply RegisterChild_Ok_inv in H as [-> _].
  assert (children (cmds (registered c c w) !!! c) !! Name (cmds w !!! c) = Some c) as Hk
    by apply registered_children.
  assert (parent (cmds (registered c c w) !!! c) = Some c) as Hp.
  { rewrite registered_parent. by rewrite decide_True. }
  split_and!; [done|done| |].
  - rewrite showHelp_overflow; [done|]. by apply getNames_self_parent.
  - rewrite Execute_help_token, (has_child_runnable _ _ _ Hk).
    unfold helpForCommand. cbn. unfold bind.
    rewrite showHelp_overflow; [done|]. apply getNames_self_parent.
    set (w1 := registered c c w) in *.
    assert (cmds (storeFlagSet (inherited c w1) c
              (FlagSet_set_args (nodeFlagSet w1 c) ["help"])) = cmds (inherited c w1)) as ->.
    { apply storeFlagSet_quiet. }
    destruct (same_but_streams_fields _ _ (inherited_same c w1 c)) as (_ & _ & _ & -> & _).
    done.
Qed.

Lemma X8_RegisterChild_self_witness :
  children (cmds (RegisterChild 1 1 tree_unregistered).2 !!! 1) !! "x" = Some 1 /\
  parent (cmds (RegisterChild 1 1 tree_unregistered).2 !!! 1) = Some 1 /\
  (showHelp 1 (RegisterChild 1 1 tree_unregistered).2).1 = StackOverflow /\
  (Execute ["x"; "help"] 1 (RegisterChild 1 1 tree_unregistered).2).1 = StackOverflow.
Proof. apply (X8_RegisterChild_self 1 tree_unregistered). by vm_compute. Defined.
(** ** The ways in which [showHelp] ends *)

Lemma commandLines_Some h c keys :
  (forall k, k ∈ keys -> is_Some (children c !! k)) ->
  is_Some (commandLines h c keys).
Proof.
  induction keys as [|k keys IH]; intros Hk; cbn [commandLines]; [done|].
  unfold commandLine. destruct (Hk k) as [a ->]; [left|].
  destruct IH as [ls ->]; [|done].
  intros k' Hk'. apply Hk. by right.
Qed.

Lemma helpResult_Some h fs names (c : Command) :
  is_Some (helpResult h fs names c ((map_to_list (children c)).*1)).
Proof.
  unfold helpResult.
  destruct (0 <? length (map_to_list (children c)).*1)%nat; [|done].
  destruct (commandLines_Some h c (sort_Strings (map_to_list (children c)).*1)) as [ls ->];
    [|done].
  intros k Hk. unfold sort_Strings in Hk. rewrite merge_sort_Permutation in Hk.
  apply list_elem_of_fmap in Hk as ([k' a] & -> & Hk).
  apply elem_of_map_to_list in Hk. by exists a.
Qed.

Lemma showHelp_eq cmd w :
  showHelp cmd w =
    match helpText_of w cmd with
    | None => (StackOverflow, w)
    | Some text =>
        match stdout (cmds w !!! cmd) with
        | None => (Panic nilDereference, w)
        | Some s => (Ok tt, World_emit w (EvWrite s text))
        end
    end.
Proof.
  unfold showHelp, showHelp_range, helpText_of.
  destruct (getNames (cmds w) cmd) as [ns|]; [|done]. cbn.
  destruct (helpResult_Some (cmds w) ((fun a => fsets w !!! a) <$> Flags (cmds w !!! cmd))
              (Join ns " ") (cmds w !!! cmd)) as [text ->].
  by destruct (stdout (cmds w !!! cmd)).
Qed.

Lemma helpText_of_None w cmd : helpText_of w cmd = None <-> getNames (cmds w) cmd = None.
Proof.
  unfold helpText_of. destruct (getNames (cmds w) cmd) as [ns|]; cbn; [|done].
  destruct (helpResult_Some (cmds w) ((fun a => fsets w !!! a) <$> Flags (cmds w !!! cmd))
              (Join ns " ") (cmds w !!! cmd)) as [text ->]. done.
Qed.

(** X9: the three ways in which [showHelp] ends.  It does not return when
    the chain of parents of the command does not end; otherwise it panics
    on a nil [stdout] of the command, and that is the only nil it can
    meet (every key of the children map has a child); otherwise it makes
    one write, of the whole text, to the [stdout] of the command, and
    changes nothing else. *)
Theorem X9_showHelp_outcome (cmd : nat) (w : World) :
  ((forall n, is_Some (ancestor n (cmds w) cmd)) /\
   showHelp cmd w = (StackOverflow, w)) \/
  (exists text, helpText_of w cmd = Some text /\
     match stdout (cmds w !!! cmd) with
     | None => showHelp cmd w = (Panic nilDereference, w)
     | Some s => showHelp cmd w = (Ok tt, World_emit w (EvWrite s text))
     end).
Proof.
  rewrite showHelp_eq. destruct (helpText_of w cmd) as [text|] eqn:E.
  - right. exists text. split; [done|]. by destruct (stdout (cmds w !!! cmd)).
  - left. split; [|done]. apply helpText_of_None in E.
    intros n. revert cmd E. induction n as [|n IH]; intros cmd E; cbn [ancestor]; [done|].
    rewrite getNames_unfold in E. destruct (parent (cmds w !!! cmd)) as [p|]; [|done].
    apply IH. by destruct (getNames (cmds w) p).
Qed.
(** ** [Execute] without flags: the own handler, or help *)

Lemma parseFlags_nil cmd w :
  parseFlags cmd [] (inherited cmd w) =
    (Ok (FlagSet_set_args (nodeFlagSet w cmd) [], None), parsed w cmd []).
Proof.
  rewrite parseFlags_unfold, parseAll_nil. unfold parsed.
  by rewrite nodeFlagSet_inherited.
Qed.

Lemma parseFlags_first_positional cmd a1 rest w :
  is_flag_token a1 = false ->
  parseFlags cmd (a1 :: rest) (inherited cmd w) =
    (Ok (FlagSet_set_args (nodeFlagSet w cmd) (a1 :: rest), None),
     parsed w cmd (a1 :: rest)).
Proof.
  intros Ha. rewrite parseFlags_positional by done. unfold parsed.
  by rewrite nodeFlagSet_inherited.
Qed.

Lemma parsed_cmds w cmd l : cmds (parsed w cmd l) = cmds (inherited cmd w).
Proof. apply storeFlagSet_quiet. Qed.

Lemma parsed_trace w cmd l : trace (parsed w cmd l) = trace w.
Proof.
  unfold parsed, storeFlagSet. rewrite <- (inherited_trace cmd w).
  by destruct (Flags (cmds (inherited cmd w) !!! cmd)).
Qed.

Lemma parsed_children w cmd l a :
  children (cmds (parsed w cmd l) !!! a) = children (cmds w !!! a).
Proof.
  rewrite parsed_cmds.
  by destruct (same_but_streams_fields _ _ (inherited_same cmd w a)) as (_ & _ & _ & _ & ->).
Qed.

Lemma parsed_streams w cmd l :
  streams (cmds (parsed w cmd l) !!! cmd) = effective_streams w cmd.
Proof. rewrite parsed_cmds. apply inherited_effective. Qed.

Lemma parsed_other w cmd l a :
  a <> cmd -> cmds (parsed w cmd l) !!! a = cmds w !!! a.
Proof. intros Ha. rewrite parsed_cmds. by apply inherited_other. Qed.

(** X10: a command without handler that is executed with its name alone
    shows its own help and reports success; no handler is called. *)
Theorem X10_Execute_without_handler (a0 : string) (cmd : nat) (w : World) :
  runnable (cmds w !!! cmd) = true ->
  Func (cmds w !!! cmd) = None ->
  Execute [a0] cmd w =
    (showHelp cmd ;;; ret (ExitCodeSuccess, None)) (parsed w cmd []) /\
  calls (trace (Execute [a0] cmd w).2) = calls (trace w).
Proof.
  intros Hr Hf.
  assert (Execute [a0] cmd w =
    (showHelp cmd ;;; ret (ExitCodeSuccess, None)) (parsed w cmd [])) as ->.
  { rewrite Execute_cons. cbv zeta. by rewrite Hr, parseFlags_nil, Hf. }
  split; [done|]. unfold bind.
  destruct (showHelp cmd (parsed w cmd [])) as [r w'] eqn:E.
  apply showHelp_quiet in E as [[_ E] _].
  rewrite <- (parsed_trace w cmd []), <- E. by destruct r.
Qed.

Lemma X10_Execute_without_handler_witness :
  Execute ["prog"] root tree =
    (showHelp root ;;; ret (ExitCodeSuccess, None)) (parsed tree root []) /\
  calls (trace (Execute ["prog"] root tree).2) = calls (trace tree).
Proof. apply X10_Execute_without_handler; by vm_compute. Defined.

(** X11: a command without handler that is executed with a first argument
    that is neither a flag, nor the word help, nor the name of one of its
    children shows its own help and returns the serious exit code with an
    error: the unknown command is reported when at most two arguments
    follow the name of the node, and with three or more the error says
    that help is given for one command only.  No handler is called. *)
Theorem X11_Execute_unknown_command (a0 a1 : string) (rest : list string)
    (cmd : nat) (w : World) :
  runnable (cmds w !!! cmd) = true ->
  Func (cmds w !!! cmd) = None ->
  is_flag_token a1 = false -> a1 <> "help" ->
  children (cmds w !!! cmd) !! a1 = None ->
  Execute (a0 :: a1 :: rest) cmd w =
    (showHelp cmd ;;;
     ret (ExitCodeSerious,
          Some (ErrorString
                  (if (2 <=? length rest)%nat then "can only give help with one command"
                   else "unknown command: " +:+ a1))))
      (parsed w cmd (a1 :: rest)) /\
  calls (trace (Execute (a0 :: a1 :: rest) cmd w).2) = calls (trace w).
Proof.
  intros Hr Hf Hflag Hhelp Hchild. apply String.eqb_neq in Hhelp.
  match goal with |- ?l = ?r /\ _ => assert (l = r) as -> end.
  { rewrite Execute_cons. cbv zeta.
    rewrite Hr, parseFlags_first_positional, Hhelp, Hchild, Hf by done.
    unfold helpForCommand. cbn [FlagSet_Args fs_args FlagSet_set_args]. rewrite Hhelp.
    cbn [length]. change (2 <? S (length rest))%nat with (2 <=? length rest)%nat.
    destruct (2 <=? length rest)%nat; [done|].
    unfold bind at 1, getCommand. by rewrite parsed_children, Hchild. }
  split; [done|]. unfold bind.
  destruct (showHelp cmd (parsed w cmd (a1 :: rest))) as [r w'] eqn:E.
  apply showHelp_quiet in E as [[_ E] _].
  rewrite <- (parsed_trace w cmd (a1 :: rest)), <- E. by destruct r.
Qed.

Lemma X11_Execute_unknown_command_witness :
  Execute ["prog"; "nosuch"; "b"] root tree =
    (showHelp root ;;;
     ret (ExitCodeSerious, Some (ErrorString ("unknown command: " +:+ "nosuch"))))
      (parsed tree root ["nosuch"; "b"]) /\
  calls (trace (Execute ["prog"; "nosuch"; "b"] root tree).2) = calls (trace tree).
Proof. apply (X11_Execute_unknown_command "prog" "nosuch" ["b"] root tree); by vm_compute. Defined.

Example Execute_unknown_command_run :
  (Execute ["prog"; "nosuch"] root tree).1 =
    Ok (ExitCodeSerious, Some (ErrorString "unknown command: nosuch")) /\
  (Execute ["prog"; "nosuch"; "b"; "c"] root tree).1 =
    Ok (ExitCodeSerious, Some (ErrorString "can only give help with one command")) /\
  (Execute ["prog"] root tree).1 = Ok (ExitCodeSuccess, None).
Proof. by vm_compute. Qed.

Lemma Execute_handler_call (a0 : string) (args1 : list string)
    (cmd : nat) (w : World) (f : CommandFunc) :
  Func (cmds w !!! cmd) = Some f ->
  (forall a1, head args1 = Some a1 ->
     is_flag_token a1 = false /\ a1 <> "help" /\
     children (cmds w !!! cmd) !! a1 = None) ->
  exists input,
    Execute (a0 :: args1) cmd w =
      (f input, World_emit (parsed w cmd args1) (EvCall cmd input)) /\
    input_streams input = effective_streams w cmd /\
    h_fs input = FlagSet_set_args (nodeFlagSet w cmd) args1 /\
    FlagSet_Args (h_fs input) = args1.
Proof.
  intros Hf Hhead.
  assert (runnable (cmds w !!! cmd) = true) as Hr.
  { unfold runnable, hasNoFunc. rewrite Hf. by rewrite andb_false_r. }
  pose proof (parsed_streams w cmd args1) as Hs.
  exists (mkHandlerInput (stdout (cmds (parsed w cmd args1) !!! cmd))
            (FlagSet_set_args (nodeFlagSet w cmd) args1)
            (stdin (cmds (parsed w cmd args1) !!! cmd))
            (stderr (cmds (parsed w cmd args1) !!! cmd))).
  split; [|split_and!; [|reflexivity|reflexivity]].
  - rewrite Execute_cons. cbv zeta. rewrite Hr.
    destruct args1 as [|a1 rest].
    + rewrite parseFlags_nil, Hf. apply callFunc_unfold.
    + destruct (Hhead a1 eq_refl) as (Hflag & Hhelp & Hchild).
      apply String.eqb_neq in Hhelp.
      rewrite parseFlags_first_positional, Hhelp, Hchild, Hf by done.
      apply callFunc_unfold.
  - exact Hs.
Qed.

(** X12: a command with a handler calls it when it is executed with its
    name alone, and also when the first argument is neither a flag, nor
    the word help, nor the name of one of its children.  The handler
    receives the streams that the command has after inheriting, and the
    flag set of the command with all the arguments that follow the name
    of the command as remaining arguments; its result is the result of
    [Execute]. *)
Theorem X12_Execute_calls_own_handler (a0 : string) (args1 : list string)
    (cmd : nat) (w : World) (f : CommandFunc) :
  Func (cmds w !!! cmd) = Some f ->
  (forall a1, head args1 = Some a1 ->
     is_flag_token a1 = false /\ a1 <> "help" /\
     children (cmds w !!! cmd) !! a1 = None) ->
  exists input,
    Execute (a0 :: args1) cmd w =
      (f input, World_emit (parsed w cmd args1) (EvCall cmd input)) /\
    input_streams input = effective_streams w cmd /\
    h_fs input = FlagSet_set_args (nodeFlagSet w cmd) args1 /\
    FlagSet_Args (h_fs input) = args1.
Proof. apply Execute_handler_call. Qed.

Lemma X12_Execute_calls_own_handler_witness :
  exists input,
    Execute ["prog"; "file"; "x"] root flat =
      (succeeding input, World_emit (parsed flat root ["file"; "x"]) (EvCall root input)) /\
    input_streams input = effective_streams flat root /\
    h_fs input = FlagSet_set_args (nodeFlagSet flat root) ["file"; "x"] /\
    FlagSet_Args (h_fs input) = ["file"; "x"].
Proof.
  apply (X12_Execute_calls_own_handler "prog" ["file"; "x"] root flat succeeding).
  - by vm_compute.
  - intros a1 [= <-]. by vm_compute.
Defined.
(** X13: the help of a child, asked for at its parent.  [help x] at a
    command that lists [x] renders the help of the child and writes it to
    the [stdout] that the child has at that moment: the child does not
    inherit on this path.  A child that was never executed since its
    registration has a nil [stdout], and the request panics (or does not
    return, if the chain of parents of the child does not end); otherwise
    the text goes to the stream that the child took at its last
    execution, and the result is success. *)
Theorem X13_Execute_help_for_child (a0 x : string) (cmd sub : nat) (w : World) :
  runnable (cmds w !!! cmd) = true ->
  children (cmds w !!! cmd) !! x = Some sub ->
  sub <> cmd ->
  Execute [a0; "help"; x] cmd w =
    (showHelp sub ;;; ret (ExitCodeSuccess, None)) (parsed w cmd ["help"; x]) /\
  (stdout (cmds w !!! sub) = None ->
   (Execute [a0; "help"; x] cmd w).1 = Panic nilDereference \/
   (Execute [a0; "help"; x] cmd w).1 = StackOverflow) /\
  (forall s text,
     stdout (cmds w !!! sub) = Some s ->
     helpText_of (parsed w cmd ["help"; x]) sub = Some text ->
     Execute [a0; "help"; x] cmd w =
       (Ok (ExitCodeSuccess, None),
        World_emit (parsed w cmd ["help"; x]) (EvWrite s text))).
Proof.
  intros Hr Hx Hne.
  match goal with |- ?l = ?r /\ _ => assert (l = r) as -> end.
  { rewrite Execute_help_token, Hr. fold (parsed w cmd ["help"; x]).
    unfold helpForCommand. cbn [FlagSet_Args fs_args FlagSet_set_args].
    rewrite String.eqb_refl. cbn [length]. change (2 <? 1)%nat with false. cbv iota.
    unfold bind at 1, getCommand.
    by rewrite parsed_children, Hx. }
  unfold bind. rewrite showHelp_eq, (parsed_other w cmd _ sub Hne).
  split_and!; [done| |].
  - intros ->. destruct (helpText_of _ sub); auto.
  - by intros s text -> ->.
Qed.

Lemma X13_Execute_help_for_child_witness :
  Execute ["prog"; "help"; "x"] root tree =
    (showHelp 1 ;;; ret (ExitCodeSuccess, None)) (parsed tree root ["help"; "x"]) /\
  (stdout (cmds tree !!! 1) = None ->
   (Execute ["prog"; "help"; "x"] root tree).1 = Panic nilDereference \/
   (Execute ["prog"; "help"; "x"] root tree).1 = StackOverflow) /\
  (forall s text,
     stdout (cmds tree !!! 1) = Some s ->
     helpText_of (parsed tree root ["help"; "x"]) 1 = Some text ->
     Execute ["prog"; "help"; "x"] root tree =
       (Ok (ExitCodeSuccess, None),
        World_emit (parsed tree root ["help"; "x"]) (EvWrite s text))).
Proof. apply (X13_Execute_help_for_child "prog" "x" root 1 tree); by vm_compute. Defined.

(** In [tree], the help of [x] asked for at the root panics as long as
    [x] was never executed; once [x] has run it is written to the stream
    that [x] had then, here the standard output of the process, also when
    the output of the root has been redirected since. *)
Example Execute_help_for_child_run :
  (Execute ["prog"; "help"; "x"] root tree).1 = Panic nilDereference /\
  written 7
    (trace (Execute ["prog"; "help"; "x"] root
              (Root.Stdout (Some 7) (Execute ["prog"; "x"] root tree).2).2).2) = [] /\
  written os_Stdout
    (trace (Execute ["prog"; "help"; "x"] root
              (Root.Stdout (Some 7) (Execute ["prog"; "x"] root tree).2).2).2) =
    ["Do x." +:+ nl +:+ nl +:+ "Usage:" +:+ nl +:+ "  prog x [-v]" +:+ nl +:+ nl +:+
     "Flags:" +:+ nl +:+
     "  -s string    " +:+ tab +:+ "text to show (default abc)" +:+ nl +:+
     "  -v    " +:+ tab +:+ "verbose" +:+ nl].
Proof. by vm_compute. Qed.
(** ** What a run leaves as it was, and the streams of the root *)

Lemma same_but_streams_longestName c c' :
  same_but_streams c c' -> longestName c' = longestName c.
Proof. intros H. unfold same_but_streams in H. by rewrite <- H. Qed.

Lemma names_fit_same (h h' : gmap nat Command) :
  (forall a, same_but_streams (h !!! a) (h' !!! a)) -> names_fit h -> names_fit h'.
Proof.
  intros Hs Hfit a k b.
  destruct (same_but_streams_fields _ _ (Hs a)) as (_ & _ & _ & _ & ->).
  destruct (same_but_streams_fields _ _ (Hs b)) as (-> & _).
  rewrite (same_but_streams_longestName _ _ (Hs a)). apply Hfit.
Qed.

Lemma well_named_same (h h' : gmap nat Command) :
  (forall a, same_but_streams (h !!! a) (h' !!! a)) -> well_named h -> well_named h'.
Proof.
  intros Hs Hwn a k b.
  destruct (same_but_streams_fields _ _ (Hs a)) as (_ & _ & _ & _ & ->).
  destruct (same_but_streams_fields _ _ (Hs b)) as (-> & _). apply Hwn.
Qed.

(** X14: [Execute] reads the tree of commands and writes only the stream
    fields: whatever the arguments and however the run ends, every other
    field of every command is as before, and so are the three invariants
    of the tree. *)
Theorem X14_Execute_keeps_registry (args : list string) (cmd : nat) (w : World) :
  (forall a, same_but_streams (cmds w !!! a) (cmds (Execute args cmd w).2 !!! a)) /\
  (linked (cmds w) -> linked (cmds (Execute args cmd w).2)) /\
  (names_fit (cmds w) -> names_fit (cmds (Execute args cmd w).2)) /\
  (well_named (cmds w) -> well_named (cmds (Execute args cmd w).2)).
Proof.
  destruct (Execute args cmd w) as [r w'] eqn:E.
  apply Execute_effect in E as [Hs _]. cbn. split_and!; [done|..].
  - by apply linked_same.
  - by apply names_fit_same.
  - by apply well_named_same.
Qed.

Lemma Root_setters r o e w :
  exists w1,
    (Root.Stdin r ;;; Root.Stdout o ;;; Root.Stderr e) w = (Ok tt, w1) /\
    streams (cmds w1 !!! root) = (r, o, e) /\
    (forall a, same_but_streams (cmds w !!! a) (cmds w1 !!! a)) /\
    trace w1 = trace w /\ fsets w1 = fsets w.
Proof.
  eexists. split; [reflexivity|]. cbn. rewrite !lookup_total_insert_eq.
  split_and!; [done| |done|done].
  intros a. destruct (decide (a = root)) as [->|Ha].
  - rewrite !lookup_total_insert_eq. unfold same_but_streams.
    by destruct (cmds w !!! root).
  - rewrite !lookup_total_insert_ne by done. apply same_but_streams_refl.
Qed.

(** X15: the streams given to the package functions [Stdin], [Stdout] and
    [Stderr] before [Run] are the streams that the handler receives,
    whichever command of the tree the arguments select. *)
Theorem X15_Root_streams_reach_handler (r : Reader) (o e : Writer) (args : list string)
    (w w' : World) (res : Result (Z * option error)) (c : nat) (input : HandlerInput) :
  linked (cmds w) -> parent (cmds w !!! root) = None ->
  Root.Run args ((Root.Stdin r ;;; Root.Stdout o ;;; Root.Stderr e) w).2 = (res, w') ->
  calls (trace w') = (c, input) :: calls (trace w) ->
  input_streams input = (r, o, e).
Proof.
  intros Hl Hroot. destruct (Root_setters r o e w) as (w1 & -> & Hs & Hsame & Ht & _).
  cbn [snd]. unfold Root.Run. intros HE Hc. rewrite <- Ht in Hc.
  rewrite (Execute_call_streams _ _ _ _ _ _ _ (linked_same _ _ Hsame Hl) HE Hc).
  unfold effective_streams.
  destruct (same_but_streams_fields _ _ (Hsame root)) as (_ & _ & _ & -> & _).
  by rewrite Hroot.
Qed.

Lemma X15_Root_streams_reach_handler_witness :
  parent (cmds tree !!! root) = None /\
  (forall c input,
     calls (trace (Root.Run ["prog"; "x"]
                     ((Root.Stdin (Some 7) ;;; Root.Stdout (Some 8) ;;;
                       Root.Stderr (Some 9)) tree).2).2) =
       (c, input) :: calls (trace tree) ->
     input_streams input = (Some 7, Some 8, Some 9)).
Proof.
  split; [by vm_compute|]. intros c input H.
  eapply (X15_Root_streams_reach_handler (Some 7) (Some 8) (Some 9) ["prog"; "x"] tree).
  - apply linked_tree.
  - by vm_compute.
  - apply surjective_pairing.
  - exact H.
Defined.

Example Root_streams_run :
  (input_streams <$>
     (calls (trace (Root.Run ["prog"; "x"]
                      ((Root.Stdin (Some 7) ;;; Root.Stdout (Some 8) ;;;
                        Root.Stderr (Some 9)) tree).2).2)).*2) =
    [(Some 7, Some 8, Some 9)].
Proof. by vm_compute. Qed.
(** ** Flags on the way to the handler, and the accessors of [flag.go] *)

Lemma substring_all s : substring 0 (String.length s) s = s.
Proof. induction s as [|c s IH]; simpl; [done|]. by rewrite IH. Qed.

Lemma string_drop_hyphen name : string_drop 1 ("-" +:+ name) = name.
Proof.
  unfold string_drop, len. destruct name as [|c s]; [done|].
  change ("-" +:+ String c s) with (String "-" (String c s)).
  cbn [String.length]. replace (S (S (String.length s)) - 1) with (S (String.length s)) by lia.
  cbn [substring]. by rewrite substring_all.
Qed.

Lemma FlagSet_set_args_idem f l l' :
  FlagSet_set_args (FlagSet_set_args f l) l' = FlagSet_set_args f l'.
Proof. done. Qed.

Lemma FlagSet_set_args_id f : FlagSet_set_args f (fs_args f) = f.
Proof. by destruct f. Qed.

(** One round of the loop of [Parse]. *)
Lemma parseAll_step f arguments :
  parseAll f arguments =
    match parseOne (FlagSet_set_args f arguments) with
    | (f', true, _) => parseAll f' (fs_args f')
    | (f', false, err) => (f', err)
    end.
Proof.
  unfold parseAll at 1. cbn [parseLoop].
  destruct (parseOne (FlagSet_set_args f arguments)) as [[f' seen] err] eqn:E.
  destruct seen; [|done].
  pose proof (parseOne_seen _ _ _ E) as Hlt. cbn [fs_args FlagSet_set_args] in Hlt.
  rewrite <- (FlagSet_set_args_id f') at 1. apply parseAll_fuel. lia.
Qed.

Lemma parseOne_flag_head f name rest :
  flag_name name = true ->
  parseOne (FlagSet_set_args f (("-" +:+ name) :: rest)) =
    let f := FlagSet_set_args f rest in
    match fs_formal f !! name with
    | None =>
        if String.eqb name "help" || String.eqb name "h" then (f, false, Some ErrHelp)
        else (f, false, failf ("flag provided but not defined: -" +:+ name))
    | Some flag =>
        if IsBoolFlag (Flag_Value flag) then
          (FlagSet_set_Value f name flag (flag_boolValue true), true, None)
        else
          match rest with
          | v :: rest' =>
              (FlagSet_set_Value (FlagSet_set_args f rest') name flag
                 (Value_Set (Flag_Value flag) v).1, true, None)
          | [] => (f, false, failf ("flag needs an argument: -" +:+ name))
          end
    end.
Proof.
  intros Hn. destruct name as [|c s]; [done|]. cbn [flag_name] in Hn.
  apply andb_prop in Hn as [Hn Heq]. apply andb_prop in Hn as [H1 H2].
  apply negb_true_iff in H1, H2.
  destruct (index_equals s 1) eqn:Hi; [done|].
  unfold parseOne. cbn [fs_args FlagSet_set_args].
  change ("-" +:+ String c s) with (String "-" (String c s)).
  cbv beta iota. rewrite H1. cbn [andb].
  change (String "-" (String c s)) with ("-" +:+ String c s).
  rewrite string_drop_hyphen. rewrite H1, H2. cbn [orb].
  unfold split_value. rewrite Hi. cbv zeta. cbn [fs_formal fs_args FlagSet_set_args].
  destruct (fs_formal f !! String c s) as [flag|]; [|done].
  destruct (IsBoolFlag (Flag_Value flag)) eqn:Hb.
  - by destruct (Flag_Value flag).
  - destruct rest as [|v rest']; [done|]. cbn [negb].
    by destruct (Flag_Value flag).
Qed.

Lemma parseAll_rest f rest :
  (forall a1, head rest = Some a1 -> is_flag_token a1 = false) ->
  parseAll f rest = (FlagSet_set_args f rest, None).
Proof.
  intros Hh. destruct rest as [|a1 rest]; [apply parseAll_nil|].
  apply parseAll_positional. by apply Hh.
Qed.


Lemma parseAll_bool_flag f name fl rest :
  flag_name name = true ->
  fs_formal f !! name = Some fl ->
  IsBoolFlag (Flag_Value fl) = true ->
  (forall a1, head rest = Some a1 -> is_flag_token a1 = false) ->
  parseAll f (("-" +:+ name) :: rest) =
    (FlagSet_set_Value (FlagSet_set_args f rest) name fl (flag_boolValue true), None).
Proof.
  intros Hn Hfl Hb Hrest. rewrite parseAll_step, parseOne_flag_head by done.
  cbv zeta. cbn [fs_formal FlagSet_set_args]. rewrite Hfl, Hb.
  cbn [fs_args FlagSet_set_Value FlagSet_set_formal FlagSet_set_args].
  by rewrite parseAll_rest.
Qed.

Lemma hyphen_not_help name : String.eqb ("-" +:+ name) "help" = false.
Proof. done. Qed.

Lemma storeFlagSet_trace w cmd f : trace (storeFlagSet w cmd f) = trace w.
Proof. unfold storeFlagSet. by destruct (Flags (cmds w !!! cmd)). Qed.


Lemma inherited_Flags cmd w a : Flags (cmds (inherited cmd w) !!! a) = Flags (cmds w !!! a).
Proof. by destruct (same_but_streams_fields _ _ (inherited_same cmd w a)) as (_ & _ & -> & _). Qed.


Lemma ParseBool_FormatBool b : ParseBool (FormatBool b) = Some b.
Proof. by destruct b. Qed.

Lemma ParseBool_true s :
  ParseBool s = Some true <-> s ∈ ["1"; "t"; "T"; "TRUE"; "true"; "True"].
Proof.
  unfold ParseBool.
  destruct (existsb (String.eqb s) ["1"; "t"; "T"; "TRUE"; "true"; "True"]) eqn:E.
  - split; [intros _|done]. apply existsb_exists in E as (x & Hx & ->%String.eqb_eq).
    by apply list_elem_of_In.
  - split.
    + by destruct (existsb (String.eqb s) ["0"; "f"; "F"; "FALSE"; "false"; "False"]).
    + intros Hs. assert (existsb (String.eqb s) ["1"; "t"; "T"; "TRUE"; "true"; "True"] = true).
      { apply existsb_exists. exists s. split; [by apply list_elem_of_In|apply String.eqb_refl]. }
      congruence.
Qed.

(** X16: the accessors of [flag.go].  For a name that the flag set does
    not define both panic with a nil dereference.  For a defined flag
    [FlagString] returns the current text of the value and [FlagBool]
    always returns: the current value of a boolean flag, and for any other
    flag whether its text is one of the six spellings of true that
    [strconv.ParseBool] accepts (so not always false, as for a string flag
    that holds the text true).  A flag read back right after its
    definition has its default. *)
Theorem X16_FlagBool_reads_text (f : FlagSet) (name : string) :
  (fs_formal f !! name = None ->
   FlagString f name = Panic nilDereference /\ FlagBool f name = Panic nilDereference) /\
  (forall fl, fs_formal f !! name = Some fl ->
     FlagString f name = Ok (Value_String (Flag_Value fl)) /\
     FlagBool f name =
       Ok (bool_decide (Value_String (Flag_Value fl) ∈
                          ["1"; "t"; "T"; "TRUE"; "true"; "True"]))) /\
  (forall fl b, fs_formal f !! name = Some fl -> Flag_Value fl = flag_boolValue b ->
     FlagBool f name = Ok b) /\
  (forall value usage,
     FlagString (FlagSet_String f name value usage) name = Ok value) /\
  (forall b usage, FlagBool (FlagSet_Bool f name b usage) name = Ok b).
Proof.
  assert (forall g fl, fs_formal g !! name = Some fl ->
     FlagString g name = Ok (Value_String (Flag_Value fl)) /\
     FlagBool g name =
       Ok (bool_decide (Value_String (Flag_Value fl) ∈
                          ["1"; "t"; "T"; "TRUE"; "true"; "True"]))) as Hdef.
  { intros g fl Hfl. unfold FlagBool, FlagString, FlagSet_Lookup. rewrite Hfl.
    split; [done|]. f_equal.
    destruct (ParseBool (Value_String (Flag_Value fl))) as [[]|] eqn:E; cbn.
    - apply ParseBool_true in E. by rewrite bool_decide_eq_true_2.
    - rewrite bool_decide_eq_false_2; [done|]. intros H%ParseBool_true. congruence.
    - rewrite bool_decide_eq_false_2; [done|]. intros H%ParseBool_true. congruence. }
  assert (forall g fl b, fs_formal g !! name = Some fl -> Flag_Value fl = flag_boolValue b ->
     FlagBool g name = Ok b) as Hbool.
  { intros g fl b Hfl Hv. unfold FlagBool, FlagString, FlagSet_Lookup.
    rewrite Hfl, Hv. cbn [Value_String]. by rewrite ParseBool_FormatBool. }
  split_and!.
  - intros Hn. unfold FlagBool, FlagString, FlagSet_Lookup. by rewrite Hn.
  - apply Hdef.
  - apply Hbool.
  - intros value usage. unfold FlagString, FlagSet_Lookup. cbn.
    by rewrite lookup_insert_eq.
  - intros b usage. eapply Hbool; [cbn; apply lookup_insert_eq|done].
Qed.

Example FlagBool_of_string_flag :
  FlagBool (parseAll x_flags ["-s"; "true"]).1 "s" = Ok true /\
  FlagBool x_flags "s" = Ok false /\
  FlagString (parseAll x_flags ["-s=new"; "-v"]).1 "s" = Ok "new" /\
  FlagBool (parseAll x_flags ["-s=new"; "-v"]).1 "v" = Ok true /\
  FlagBool x_flags "nosuch" = Panic nilDereference.
Proof. by vm_compute. Qed.





(** ** The help of the flags *)

Lemma flagHelp_head_grows b name fl : len b <= len (flagHelp_head b name fl).
Proof.
  unfold flagHelp_head. destruct (UnquoteUsage fl) as [n u]. cbv zeta.
  repeat case_match; rewrite ?len_app; lia.
Qed.

Lemma flagHelp_visit_grows b nf : len b < len (flagHelp_visit b nf).
Proof.
  destruct nf as [name fl]. rewrite flagHelp_visit_suffix, !len_app.
  pose proof (flagHelp_head_grows b name fl). change (len nl) with 1. lia.
Qed.

Lemma foldl_flagHelp_visit_len l : forall b,
  len b + length l <= len (foldl flagHelp_visit b l).
Proof.
  induction l as [|x l IH]; intros b; cbn [foldl length]; [lia|].
  specialize (IH (flagHelp_visit b x)). pose proof (flagHelp_visit_grows b x). lia.
Qed.

Lemma sortFlags_length (formal : gmap string Flag) : length (sortFlags formal) = size formal.
Proof.
  unfold sortFlags. rewrite length_fmap, merge_sort_Permutation, length_fmap.
  apply length_map_to_list.
Qed.

(** X19: the help of the flags is empty exactly when the command has no
    flag set or its flag set defines no flag, so the help of a command
    has a block of flags exactly when there is a flag to show; every flag
    adds to the text. *)
Theorem X19_flagHelp_empty (f : option FlagSet) :
  (flagHelp f = "" <-> f = None \/ exists fs, f = Some fs /\ fs_formal fs = ∅) /\
  (forall fs, f = Some fs -> size (fs_formal fs) <= len (flagHelp f)).
Proof.
  assert (forall fs, size (fs_formal fs) <= len (flagHelp (Some fs))) as Hlen.
  { intros fs. cbn [flagHelp]. rewrite <- sortFlags_length.
    apply (foldl_flagHelp_visit_len _ ""). }
  split; [|by intros fs ->].
  destruct f as [fs|]; cbn [flagHelp]; [|by split; [left|]].
  split.
  - intros H. right. exists fs. split; [done|].
    apply map_size_empty_iff. specialize (Hlen fs). cbn [flagHelp] in Hlen.
    rewrite H in Hlen. cbn in Hlen. lia.
  - intros [|(fs' & [= <-] & He)]; [done|].
    assert (sortFlags (fs_formal fs) = []) as ->; [|done].
    apply length_zero_iff_nil. by rewrite sortFlags_length, He.
Qed.
Lemma same_help_refl fl : same_help fl fl.
Proof. done. Qed.

Lemma same_help_trans fl1 fl2 fl3 : same_help fl1 fl2 -> same_help fl2 fl3 -> same_help fl1 fl3.
Proof. intros (?&?&?) (?&?&?). split_and!; congruence. Qed.

Lemma same_flags_refl m : same_flags m m.
Proof. intros n. destruct (m !! n); constructor. apply same_help_refl. Qed.

Lemma same_flags_trans m1 m2 m3 : same_flags m1 m2 -> same_flags m2 m3 -> same_flags m1 m3.
Proof.
  intros H1 H2 n. specialize (H1 n). specialize (H2 n).
  destruct H1; inversion H2; subst; constructor. by eapply same_help_trans.
Qed.

Lemma Value_Set_kind v s : zero_Value (Value_Set v s).1 = zero_Value v.
Proof. destruct v; cbn; [|done|done]. by destruct (ParseBool s). Qed.

Lemma same_flags_set_Value m name flag s :
  m !! name = Some flag ->
  same_flags m (<[name := Flag_set_Value flag (Value_Set (Flag_Value flag) s).1]> m).
Proof.
  intros Hm n. destruct (decide (n = name)) as [->|Hn].
  - rewrite lookup_insert_eq, Hm. constructor. split_and!; [done|done|].
    apply Value_Set_kind.
  - rewrite lookup_insert_ne by done. apply same_flags_refl.
Qed.

Lemma parseOne_formal f :
  fs_formal (parseOne f).1.1 = fs_formal f \/
  exists name flag s,
    fs_formal f !! name = Some flag /\
    fs_formal (parseOne f).1.1 =
      <[name := Flag_set_Value flag (Value_Set (Flag_Value flag) s).1]> (fs_formal f).
Proof.
  unfold parseOne.
  repeat (case_match; simplify_eq/=; try (by left));
    right; eexists _, _, _; (split; [eassumption|]);
    match goal with
    | H : Value_Set ?v ?s = (_, _) |- _ =>
        change (Flag_Value _) with v; rewrite H; done
    | H : Value_Set ?v ?s = (_, _) |- _ => rewrite H; done
    end.
Qed.
Lemma parseOne_same_flags f : same_flags (fs_formal f) (fs_formal (parseOne f).1.1).
Proof.
  destruct (parseOne_formal f) as [->|(name & flag & s & Hm & ->)].
  - apply same_flags_refl.
  - by apply same_flags_set_Value.
Qed.

Lemma parseLoop_same_flags n : forall f,
  same_flags (fs_formal f) (fs_formal (parseLoop n f).1).
Proof.
  induction n as [|n IH]; intros f; [apply same_flags_refl|]. cbn [parseLoop].
  pose proof (parseOne_same_flags f) as H.
  destruct (parseOne f) as [[f' seen] e]. cbn in H.
  destruct seen; [|done]. eapply same_flags_trans; [exact H|apply IH].
Qed.

Lemma parseAll_same_flags f arguments :
  same_flags (fs_formal f) (fs_formal (parseAll f arguments).1).
Proof. apply (parseLoop_same_flags _ (FlagSet_set_args f arguments)). Qed.

Lemma same_kind v v' :
  zero_Value v' = zero_Value v ->
  is_commands_stringValue v' = is_commands_stringValue v /\
  match v', v with
  | flag_boolValue _, flag_boolValue _ => True
  | flag_stringValue _, flag_stringValue _ => True
  | commands_stringValue _, commands_stringValue _ => True
  | _, _ => False
  end.
Proof. by destruct v, v'. Qed.

Lemma flagHelp_visit_same b n fl fl' :
  same_help fl fl' -> flagHelp_visit b (n, fl') = flagHelp_visit b (n, fl).
Proof.
  intros (Hu & Hd & Hz). destruct (same_kind _ _ Hz) as [Hc Hk].
  unfold flagHelp_visit, flagHelp_head, defaultSuffix, isZeroValue, UnquoteUsage.
  rewrite Hu, Hd, Hz, Hc.
  by destruct (Flag_Value fl'), (Flag_Value fl).
Qed.

Lemma same_flags_keys m m' :
  same_flags m m' -> (map_to_list m).*1 ≡ₚ (map_to_list m').*1.
Proof.
  intros Hs. apply NoDup_Permutation; try apply NoDup_fst_map_to_list.
  intros k. rewrite !list_elem_of_fmap. specialize (Hs k).
  split; intros ([k' fl] & -> & Hk%elem_of_map_to_list); cbn in *;
    rewrite Hk in Hs; inversion Hs as [fl1 fl2 ? H1 H2|]; subst;
    eexists (_, _); (split; [done|]); apply elem_of_map_to_list; cbn; eauto.
Qed.

Lemma same_flags_total m m' n :
  same_flags m m' -> same_help (m !!! n) (m' !!! n).
Proof.
  intros Hs. specialize (Hs n). rewrite !lookup_total_alt.
  destruct Hs; [done|apply same_help_refl].
Qed.

Lemma flagHelp_same fs fs' :
  same_flags (fs_formal fs) (fs_formal fs') -> flagHelp (Some fs') = flagHelp (Some fs).
Proof.
  intros Hs. cbn [flagHelp]. unfold sortFlags.
  pose proof (sort_Strings_Permutation _ _ (same_flags_keys _ _ Hs)) as Hk.
  unfold sort_Strings in Hk. rewrite <- Hk.
  generalize (merge_sort String.le (map_to_list (fs_formal fs)).*1). intros ks.
  generalize "". induction ks as [|k ks IH]; intros b; [done|].
  cbn [fmap list_fmap foldl].
  rewrite (flagHelp_visit_same b k _ _ (same_flags_total _ _ k Hs)). apply IH.
Qed.

(** X20: parsing never changes the help of the flags.  The text that
    [flagHelp] renders for a flag set is the same before and after
    [Parse], whatever the arguments and whether or not parsing fails: the
    help shows the default of a flag, not the value that has just been
    set. *)
Theorem X20_flagHelp_after_Parse (f : FlagSet) (arguments : list string) :
  flagHelp (Some (parseAll f arguments).1) = flagHelp (Some f).
Proof. apply flagHelp_same, parseAll_same_flags. Qed.
Lemma same_but_streams_text c c' :
  same_but_streams c c' ->
  Short c' = Short c /\ Usage c' = Usage c /\ Long c' = Long c /\
  longestName c' = longestName c.
Proof. intros H. unfold same_but_streams in H. by rewrite <- H. Qed.

Lemma commandLines_same h h' c c' keys :
  (forall a, same_but_streams (h !!! a) (h' !!! a)) ->
  same_but_streams c c' ->
  commandLines h' c' keys = commandLines h c keys.
Proof.
  intros Hs Hc. induction keys as [|k keys IH]; [done|]. cbn [commandLines].
  rewrite IH. unfold commandLine.
  destruct (same_but_streams_fields _ _ Hc) as (_ & _ & _ & _ & ->).
  destruct (same_but_streams_text _ _ Hc) as (_ & _ & _ & ->).
  destruct (children c !! k) as [a|]; [|done].
  destruct (same_but_streams_fields _ _ (Hs a)) as (-> & _).
  destruct (same_but_streams_text _ _ (Hs a)) as (-> & _). done.
Qed.

Lemma helpText_of_same w w' cmd :
  (forall a, same_but_streams (cmds w !!! a) (cmds w' !!! a)) ->
  (forall a, same_flags (fs_formal (fsets w !!! a)) (fs_formal (fsets w' !!! a))) ->
  helpText_of w' cmd = helpText_of w cmd.
Proof.
  intros Hs Hf. unfold helpText_of.
  rewrite (getNames_same (cmds w) (cmds w') cmd); cycle 1.
  { intros a. by destruct (same_but_streams_fields _ _ (Hs a)) as (-> & _ & _ & -> & _). }
  destruct (getNames (cmds w) cmd) as [ns|]; [|done]. cbn [mbind option_bind].
  unfold helpResult.
  rewrite (commandLines_same (cmds w) (cmds w') (cmds w !!! cmd) (cmds w' !!! cmd))
    by done.
  destruct (same_but_streams_fields _ _ (Hs cmd)) as (_ & _ & -> & _ & ->).
  destruct (same_but_streams_text _ _ (Hs cmd)) as (-> & -> & -> & _).
  assert (flagHelp ((fun a => fsets w' !!! a) <$> Flags (cmds w !!! cmd)) =
          flagHelp ((fun a => fsets w !!! a) <$> Flags (cmds w !!! cmd))) as ->; [|done].
  destruct (Flags (cmds w !!! cmd)) as [a|]; [|done]. cbn [fmap option_fmap option_map].
  apply flagHelp_same, Hf.
Qed.

Lemma storeFlagSet_same_flags w cmd f' :
  same_flags (fs_formal (nodeFlagSet w cmd)) (fs_formal f') ->
  forall a, same_flags (fs_formal (fsets w !!! a))
              (fs_formal (fsets (storeFlagSet w cmd f') !!! a)).
Proof.
  unfold nodeFlagSet, storeFlagSet. intros H a.
  destruct (Flags (cmds w !!! cmd)) as [b|]; [|apply same_flags_refl]. cbn [fsets World_set_fsets].
  destruct (decide (a = b)) as [->|Hab].
  - by rewrite lookup_total_insert_eq.
  - rewrite lookup_total_insert_ne by done. apply same_flags_refl.
Qed.

Lemma parseFlags_same_flags cmd arguments w r w2 :
  parseFlags cmd arguments w = (r, w2) ->
  forall a, same_flags (fs_formal (fsets w !!! a)) (fs_formal (fsets w2 !!! a)).
Proof.
  rewrite parseFlags_unfold.
  pose proof (parseAll_same_flags (nodeFlagSet w cmd) arguments) as Hp.
  destruct (parseAll (nodeFlagSet w cmd) arguments) as [f' err]. cbn [fst] in Hp.
  pose proof (storeFlagSet_same_flags w cmd f' Hp) as Hst.
  destruct err as [e|]; [|by intros [= <- <-]].
  destruct (showHelp cmd (failedParse w cmd f' e)) as [ru w3] eqn:Eu.
  apply showHelp_quiet in Eu as [_ Hfs].
  assert (fsets w3 = fsets (storeFlagSet w cmd f')) as Hw3.
  { rewrite Hfs. by destruct e. }
  intros H a. assert (w2 = w3) as ->.
  { destruct ru; [destruct (fs_errorHandling f'); [|destruct e|]|..]; congruence. }
  rewrite Hw3. apply Hst.
Qed.

Lemma helpForCommand_fsets cmd fl w r w' :
  helpForCommand cmd fl w = (r, w') -> fsets w' = fsets w.
Proof.
  unfold helpForCommand.
  set (args := match FlagSet_Args fl with [] => _ | _ => _ end).
  assert (forall c (k : Z * option error) w r w',
            (showHelp c ;;; ret k) w = (r, w') -> fsets w' = fsets w) as Hstep.
  { clear. intros c k w r w'. unfold bind, ret.
    destruct (showHelp c w) as [ru w1] eqn:Eu.
    apply showHelp_quiet in Eu as [_ Hq]. destruct ru; congruence. }
  destruct (2 <? length args)%nat; [apply Hstep|].
  destruct args as [|a0 rest]; [apply Hstep|].
  unfold bind at 1. unfold getCommand.
  destruct (children (cmds w !!! cmd) !! a0); apply Hstep.
Qed.

Lemma Execute_same_flags args : forall cmd w r w',
  Execute args cmd w = (r, w') ->
  forall a, same_flags (fs_formal (fsets w !!! a)) (fs_formal (fsets w' !!! a)).
Proof.
  induction args as [|a0 args1 IH]; intros cmd w r w' H.
  { rewrite Execute_nil in H. injection H as _ <-. intros a. apply same_flags_refl. }
  rewrite Execute_cons in H. cbv zeta in H.
  destruct (runnable (cmds w !!! cmd)); cycle 1.
  { injection H as _ <-. intros a. apply same_flags_refl. }
  destruct (parseFlags cmd args1 (inherited cmd w)) as [rp w2] eqn:Ep.
  pose proof (parseFlags_same_flags _ _ _ _ _ Ep) as Hp.
  rewrite inherited_fsets in Hp.
  assert (forall fs, helpForCommand cmd fs w2 = (r, w') ->
            forall a, same_flags (fs_formal (fsets w !!! a)) (fs_formal (fsets w' !!! a)))
    as Hhelp.
  { intros fs Hh a. apply helpForCommand_fsets in Hh. rewrite Hh. apply Hp. }
  assert (forall fs f, callFunc cmd f fs w2 = (r, w') ->
            forall a, same_flags (fs_formal (fsets w !!! a)) (fs_formal (fsets w' !!! a)))
    as Hcall.
  { intros fs f Hc a. rewrite callFunc_unfold in Hc. cbv zeta in Hc.
    injection Hc as _ <-. apply Hp. }
  destruct rp as [[fs [err|]]|v|code|]; try (injection H as _ <-; exact Hp).
  destruct args1 as [|a1 rest].
  { destruct (Func (cmds w !!! cmd)); eauto. }
  destruct (String.eqb a1 "help"); [eauto|].
  destruct (children (cmds w !!! cmd) !! a1) as [sub|].
  - intros a. eapply same_flags_trans; [apply Hp|]. by eapply IH.
  - destruct (Func (cmds w !!! cmd)); eauto.
Qed.

(** X21: a run of [Execute] changes the help of no command.  Whatever
    the arguments and however the run ends, the text that [showHelp]
    would write for any command is the same after the run as before it
    (a handler is outside the model and takes no part in this): the flags
    that the run has set show in the values of the flag sets, not in the
    help. *)
Theorem X21_Execute_keeps_help (args : list string) (cmd : nat) (w : World) (a : nat) :
  helpText_of (Execute args cmd w).2 a = helpText_of w a.
Proof.
  destruct (Execute args cmd w) as [r w'] eqn:E. cbn [snd].
  apply helpText_of_same.
  - by apply Execute_effect in E as [Hs _].
  - by eapply Execute_same_flags.
Qed.

Example Execute_keeps_help_run :
  FlagBool (fsets (Execute ["prog"; "x"; "-v"] root tree).2 !!! 0) "v" = Ok true /\
  FlagBool (fsets tree !!! 0) "v" = Ok false /\
  helpText_of (Execute ["prog"; "x"; "-v"] root tree).2 1 =
    Some ("Do x." +:+ nl +:+ nl +:+ "Usage:" +:+ nl +:+ "  prog x [-v]" +:+ nl +:+ nl +:+
          "Flags:" +:+ nl +:+
          "  -s string    " +:+ tab +:+ "text to show (default abc)" +:+ nl +:+
          "  -v    " +:+ tab +:+ "verbose" +:+ nl).
Proof. by vm_compute. Qed.
(** ** Registration, then dispatch *)

(** X22: registration and dispatch fit together.  Once a command with a
    handler is registered under another command, executing that parent
    with the name of the child calls the handler of the child, with no
    remaining arguments and with the streams that the parent has after
    inheriting; the parent passes the precondition check of [Execute]
    from then on, with or without a handler of its own.  (The word help
    is never dispatched.) *)
Theorem X22_RegisterChild_then_Execute (a0 : string) (c cmd : nat) (w w' : World)
    (f : CommandFunc) :
  RegisterChild c cmd w = (Ok tt, w') ->
  cmd <> c ->
  Name (cmds w !!! cmd) <> "help" ->
  Func (cmds w !!! cmd) = Some f ->
  runnable (cmds w' !!! c) = true /\
  exists input w'',
    Execute [a0; Name (cmds w !!! cmd)] c w' = (f input, w'') /\
    calls (trace w'') = (cmd, input) :: calls (trace w) /\
    input_streams input = effective_streams w c /\
    FlagSet_Args (h_fs input) = [].
Proof.
  intros H Hne Hhelp Hf.
  apply RegisterChild_Ok_inv in H as (-> & _ & _ & _ & Hm).
  apply commandNameRegex_valid_name, valid_name_not_flag in Hm.
  apply String.eqb_neq in Hhelp.
  set (name := Name (cmds w !!! cmd)) in *. set (w' := registered c cmd w).
  assert (children (cmds w' !!! c) !! name = Some cmd) as Hk by apply registered_children.
  pose proof (has_child_runnable _ _ _ Hk) as Hr. split; [done|].
  set (W := parsed w' c [name]).
  assert (cmds W !!! cmd = cmds w' !!! cmd) as Hcmd by by apply parsed_other.
  assert (Func (cmds W !!! cmd) = Some f) as HfW.
  { rewrite Hcmd. unfold w'. by destruct (registered_fields c cmd w cmd) as (_ & -> & _). }
  destruct (Execute_handler_call name [] cmd W f HfW) as (input & HE & Hs & _ & Hargs);
    [done|].
  exists input, (World_emit (parsed W cmd []) (EvCall cmd input)). split_and!.
  - rewrite Execute_cons. cbv zeta.
    rewrite Hr, parseFlags_first_positional, Hhelp, Hk by done. exact HE.
  - cbn [trace World_emit calls]. rewrite parsed_trace. unfold W.
    by rewrite parsed_trace.
  - rewrite Hs. unfold effective_streams at 1. rewrite Hcmd.
    unfold w' at 1. rewrite registered_parent, decide_True by done.
    fold (streams (cmds W !!! c)). unfold W. rewrite parsed_streams.
    unfold effective_streams. unfold w'. rewrite registered_parent, decide_False by done.
    destruct (parent (cmds w !!! c)); apply registered_streams.
  - done.
Qed.

Lemma X22_RegisterChild_then_Execute_witness :
  runnable (cmds (RegisterChild root 1 tree_unregistered).2 !!! root) = true /\
  exists input w'',
    Execute ["prog"; "x"] root (RegisterChild root 1 tree_unregistered).2 =
      (failing input, w'') /\
    calls (trace w'') = (1, input) :: calls (trace tree_unregistered) /\
    input_streams input = effective_streams tree_unregistered root /\
    FlagSet_Args (h_fs input) = [].
Proof.
  apply (X22_RegisterChild_then_Execute "prog" root 1 tree_unregistered); by vm_compute.
Defined.
Lemma Execute_no_handler_parsed a0 a1 rest cmd w fs :
  runnable (cmds w !!! cmd) = true ->
  Func (cmds w !!! cmd) = None ->
  String.eqb a1 "help" = false ->
  children (cmds w !!! cmd) !! a1 = None ->
  parseAll (nodeFlagSet w cmd) (a1 :: rest) = (fs, None) ->
  Execute (a0 :: a1 :: rest) cmd w =
    helpForCommand cmd fs (storeFlagSet (inherited cmd w) cmd fs).
Proof.
  intros Hr Hf Hhelp Hchild Hparse. rewrite Execute_cons. cbv zeta.
  by rewrite Hr, parseFlags_unfold, nodeFlagSet_inherited, Hparse, Hhelp, Hchild, Hf.
Qed.

(** X23: a flag before the name of a child, at a command without handler.
    When the arguments of a command that has no handler start with a
    boolean flag of its flag set followed by the name of one of its
    children, the child is not executed: its help is shown, on the
    [stdout] that the child has at that moment, and the result is
    success.  The first argument is the flag, which is no child, and the
    help path then finds the name of the child as the first remaining
    argument. *)
Theorem X23_Execute_flag_before_child (a0 name x : string) (cmd sub : nat) (w : World)
    (a : nat) (fl : Flag) :
  Func (cmds w !!! cmd) = None ->
  Flags (cmds w !!! cmd) = Some a ->
  fs_formal (fsets w !!! a) !! name = Some fl ->
  IsBoolFlag (Flag_Value fl) = true ->
  flag_name name = true ->
  children (cmds w !!! cmd) !! ("-" +:+ name) = None ->
  children (cmds w !!! cmd) !! x = Some sub ->
  is_flag_token x = false -> x <> "help" ->
  Execute [a0; "-" +:+ name; x] cmd w =
    (showHelp sub ;;; ret (ExitCodeSuccess, None))
      (storeFlagSet (inherited cmd w) cmd
         (FlagSet_set_Value (FlagSet_set_args (fsets w !!! a) [x]) name fl
            (flag_boolValue true))) /\
  calls (trace (Execute [a0; "-" +:+ name; x] cmd w).2) = calls (trace w).
Proof.
  intros Hf Ha Hfl Hb Hn Hchild Hx Hflag Hhelp. apply String.eqb_neq in Hhelp.
  assert (nodeFlagSet w cmd = fsets w !!! a) as Hnode.
  { unfold nodeFlagSet. by rewrite Ha. }
  set (fs := FlagSet_set_Value (FlagSet_set_args (fsets w !!! a) [x]) name fl
               (flag_boolValue true)).
  set (W := storeFlagSet (inherited cmd w) cmd fs).
  assert (Execute [a0; "-" +:+ name; x] cmd w =
          (showHelp sub ;;; ret (ExitCodeSuccess, None)) W) as ->.
  { rewrite (Execute_no_handler_parsed a0 ("-" +:+ name) [x] cmd w fs);
      [|by eapply has_child_runnable|done|apply hyphen_not_help|done|]; cycle 1.
    { rewrite Hnode. apply parseAll_bool_flag; try done. by intros ? [= <-]. }
    fold W. unfold helpForCommand. cbn [FlagSet_Args fs_args fs FlagSet_set_Value
      FlagSet_set_formal FlagSet_set_args]. rewrite Hhelp. cbn [length].
    change (2 <? 1)%nat with false. cbv iota. unfold bind at 1, getCommand.
    assert (children (cmds W !!! cmd) = children (cmds w !!! cmd)) as ->.
    { unfold W. rewrite (proj1 (storeFlagSet_quiet (inherited cmd w) cmd fs)).
      by destruct (same_but_streams_fields _ _ (inherited_same cmd w cmd))
        as (_ & _ & _ & _ & ->). }
    by rewrite Hx. }
  split; [done|]. unfold bind.
  destruct (showHelp sub W) as [r w'] eqn:E.
  apply showHelp_quiet in E as [[_ E] _].
  assert (trace W = trace w) as HW.
  { unfold W. by rewrite storeFlagSet_trace, inherited_trace. }
  rewrite <- HW, <- E. by destruct r.
Qed.

Lemma X23_Execute_flag_before_child_witness :
  Execute ["prog"; "-v"; "x"] root group =
    (showHelp 1 ;;; ret (ExitCodeSuccess, None))
      (storeFlagSet (inherited root group) root
         (FlagSet_set_Value (FlagSet_set_args (fsets group !!! 0) ["x"]) "v"
            (mkFlag "verbose" (flag_boolValue false) "false") (flag_boolValue true))) /\
  calls (trace (Execute ["prog"; "-v"; "x"] root group).2) = calls (trace group).
Proof.
  apply (X23_Execute_flag_before_child "prog" "v" "x" root 1 group 0
           (mkFlag "verbose" (flag_boolValue false) "false")); by vm_compute.
Defined.

(** In [group], [prog -v x] does not run [x]: it asks for the help of
    [x], which panics on the nil [stdout] of the never executed child;
    [prog x] runs it. *)
Example Execute_flag_before_child_run :
  (Execute ["prog"; "-v"; "x"] root group).1 = Panic nilDereference /\
  (Execute ["prog"; "x"] root group).1 = Ok (ExitCodeFailure, Some (ErrorString "failed")) /\
  (Execute ["prog"; "-v"; "x"] root (Execute ["prog"; "x"] root group).2).1 =
    Ok (ExitCodeSuccess, None) /\
  calls (trace (Execute ["prog"; "-v"; "x"] root (Execute ["prog"; "x"] root group).2).2) =
    calls (trace (Execute ["prog"; "x"] root group).2).
Proof. by vm_compute. Qed.
(** ** Dispatch along a path *)

Lemma descend_same (h h' : gmap nat Command) path : forall cmd,
  (forall a, children (h' !!! a) = children (h !!! a)) ->
  descend h' cmd path = descend h cmd path.
Proof.
  induction path as [|p path IH]; intros cmd Hs; [done|]. cbn [descend].
  rewrite Hs. destruct (children (h !!! cmd) !! p); [by apply IH|done].
Qed.

Lemma parsed_Func w cmd l a : Func (cmds (parsed w cmd l) !!! a) = Func (cmds w !!! a).
Proof.
  rewrite parsed_cmds.
  by destruct (same_but_streams_fields _ _ (inherited_same cmd w a)) as (_ & -> & _).
Qed.

Lemma parsed_nodeFlagSet_formal w cmd l a :
  fs_formal (nodeFlagSet (parsed w cmd l) a) = fs_formal (nodeFlagSet w a).
Proof.
  unfold nodeFlagSet. rewrite !parsed_cmds, !inherited_Flags.
  destruct (same_but_streams_fields _ _ (inherited_same cmd w a)) as (-> & _).
  destruct (Flags (cmds w !!! a)) as [b|]; [|done].
  unfold parsed, storeFlagSet. rewrite inherited_Flags.
  destruct (Flags (cmds w !!! cmd)) as [b'|] eqn:Hb'; [|by rewrite inherited_fsets].
  cbn [fsets World_set_fsets]. rewrite inherited_fsets.
  destruct (decide (b = b')) as [->|Hne].
  - rewrite lookup_total_insert_eq. unfold nodeFlagSet. by rewrite Hb'.
  - by rewrite lookup_total_insert_ne.
Qed.

Lemma Execute_path path : forall a0 cmd w target f rest,
  descend (cmds w) cmd path = Some target ->
  Forall (fun p => is_flag_token p = false /\ p <> "help") path ->
  Func (cmds w !!! target) = Some f ->
  (forall a1, head rest = Some a1 ->
     is_flag_token a1 = false /\ a1 <> "help" /\
     children (cmds w !!! target) !! a1 = None) ->
  exists input w',
    Execute (a0 :: path ++ rest) cmd w = (f input, w') /\
    calls (trace w') = (target, input) :: calls (trace w) /\
    FlagSet_Args (h_fs input) = rest /\
    fs_formal (h_fs input) = fs_formal (nodeFlagSet w target).
Proof.
  induction path as [|p path IH]; intros a0 cmd w target f rest Hd Hp Hf Hrest.
  - injection Hd as ->. cbn [app].
    destruct (Execute_handler_call a0 rest target w f Hf Hrest)
      as (input & HE & _ & Hfs & Hargs).
    exists input, (World_emit (parsed w target rest) (EvCall target input)).
    split_and!; [done|cbn [trace World_emit calls]; by rewrite parsed_trace|done|].
    by rewrite Hfs.
  - cbn [descend] in Hd.
    destruct (children (cmds w !!! cmd) !! p) as [sub|] eqn:Hk; [|done].
    apply Forall_cons in Hp as [[Hflag Hhelp] Hp]. apply String.eqb_neq in Hhelp.
    set (W := parsed w cmd (p :: path ++ rest)).
    destruct (IH p sub W target f rest) as (input & w' & HE & Hc & Hargs & Hformal).
    + rewrite <- Hd. apply descend_same. intros a. apply parsed_children.
    + done.
    + unfold W. by rewrite parsed_Func.
    + intros a1 Ha1. unfold W. rewrite parsed_children. by apply Hrest.
    + exists input, w'. split_and!.
      * cbn [app]. rewrite Execute_cons. cbv zeta.
        rewrite (has_child_runnable _ _ _ Hk), parseFlags_first_positional, Hhelp, Hk
          by done.
        exact HE.
      * rewrite Hc. unfold W. by rewrite parsed_trace.
      * done.
      * rewrite Hformal. unfold W. apply parsed_nodeFlagSet_formal.
Qed.

(** X24: dispatch along a path.  When the arguments after the name of a
    command spell a path of child names through the tree (none of them the
    word help; a name that passed registration is never a flag) to a
    command with a handler, and what follows is empty or starts with
    something that is neither a flag, nor help, nor a child of that
    command, then [Execute] calls the handler of that command and of no
    other, and returns what it returns.  The handler receives the
    arguments after the path as the remaining arguments of its flag set,
    whose flags are as they were; in a tree whose parent pointers agree
    with the children maps it receives the streams that the command at
    the start of the path has after inheriting. *)
Theorem X24_Execute_along_path (a0 : string) (path rest : list string)
    (cmd target : nat) (w : World) (f : CommandFunc) :
  descend (cmds w) cmd path = Some target ->
  Forall (fun p => is_flag_token p = false /\ p <> "help") path ->
  Func (cmds w !!! target) = Some f ->
  (forall a1, head rest = Some a1 ->
     is_flag_token a1 = false /\ a1 <> "help" /\
     children (cmds w !!! target) !! a1 = None) ->
  exists input w',
    Execute (a0 :: path ++ rest) cmd w = (f input, w') /\
    calls (trace w') = (target, input) :: calls (trace w) /\
    FlagSet_Args (h_fs input) = rest /\
    fs_formal (h_fs input) = fs_formal (nodeFlagSet w target) /\
    (linked (cmds w) -> input_streams input = effective_streams w cmd).
Proof.
  intros Hd Hp Hf Hrest.
  destruct (Execute_path path a0 cmd w target f rest Hd Hp Hf Hrest)
    as (input & w' & HE & Hc & Hargs & Hformal).
  exists input, w'. split_and!; [done|done|done|done|].
  intros Hl. by apply (Execute_call_streams _ _ _ _ _ _ _ Hl HE Hc).
Qed.

Lemma X24_Execute_along_path_witness :
  exists input w',
    Execute ("prog" :: ["x"] ++ ["file"; "-v"]) root tree = (failing input, w') /\
    calls (trace w') = (1, input) :: calls (trace tree) /\
    FlagSet_Args (h_fs input) = ["file"; "-v"] /\
    fs_formal (h_fs input) = fs_formal (nodeFlagSet tree 1) /\
    (linked (cmds tree) -> input_streams input = effective_streams tree root).
Proof.
  apply (X24_Execute_along_path "prog" ["x"] ["file"; "-v"] root 1 tree failing).
  - by vm_compute.
  - by repeat constructor.
  - by vm_compute.
  - intros a1 [= <-]. by vm_compute.
Defined.

(** X25: [help] after the name of a command.  Executing a command with the
    word help as the only argument after its name shows the help of that
    command on the [stdout] that it has after inheriting, and returns
    success, whether or not the command has a handler; so [x help] works
    for a child that was never executed, for which [help x] at its parent
    panics. *)
Theorem X25_Execute_help_self (a0 : string) (cmd : nat) (w : World) (s : Stream)
    (text : string) :
  runnable (cmds w !!! cmd) = true ->
  (effective_streams w cmd).1.2 = Some s ->
  helpText_of (parsed w cmd ["help"]) cmd = Some text ->
  Execute [a0; "help"] cmd w =
    (Ok (ExitCodeSuccess, None), World_emit (parsed w cmd ["help"]) (EvWrite s text)).
Proof.
  intros Hr Hs Ht. rewrite Execute_help_token, Hr. fold (parsed w cmd ["help"]).
  unfold helpForCommand. cbn [FlagSet_Args fs_args FlagSet_set_args].
  rewrite String.eqb_refl. cbn [length]. change (2 <? 0)%nat with false. cbv iota.
  unfold bind. rewrite showHelp_eq, Ht.
  pose proof (parsed_streams w cmd ["help"]) as Hst. unfold streams in Hst.
  destruct (effective_streams w cmd) as [[i o] e]. cbn in Hs. subst o.
  injection Hst as _ -> _. done.
Qed.

Lemma X25_Execute_help_self_witness :
  Execute ["x"; "help"] 1 tree =
    (Ok (ExitCodeSuccess, None),
     World_emit (parsed tree 1 ["help"])
       (EvWrite os_Stdout
          ("Do x." +:+ nl +:+ nl +:+ "Usage:" +:+ nl +:+ "  prog x [-v]" +:+ nl +:+ nl +:+
           "Flags:" +:+ nl +:+
           "  -s string    " +:+ tab +:+ "text to show (default abc)" +:+ nl +:+
           "  -v    " +:+ tab +:+ "verbose" +:+ nl))).
Proof. apply X25_Execute_help_self; by vm_compute. Defined.

Example Execute_help_self_run :
  (Execute ["prog"; "x"; "help"] root tree).1 = Ok (ExitCodeSuccess, None) /\
  (Execute ["prog"; "help"; "x"] root tree).1 = Panic nilDereference.
Proof. by vm_compute. Qed.

(** ** Streams: what a call of [Execute] inherits, and from whom *)

Lemma failedParse_cmds w cmd f e : cmds (failedParse w cmd f e) = cmds w.
Proof. destruct e; cbn; apply storeFlagSet_quiet. Qed.

Lemma inherited_parent cmd w p :
  parent (cmds w !!! cmd) = Some p ->
  inherited cmd w =
    World_set_cmds w
      (<[cmd := Command_set_streams (cmds w !!! cmd) (stdin (cmds w !!! p))
                  (stdout (cmds w !!! p)) (stderr (cmds w !!! p))]> (cmds w)).
Proof. intros Hp. unfold inherited. by rewrite Hp. Qed.

Lemma effective_parent w cmd p :
  parent (cmds w !!! cmd) = Some p -> effective_streams w cmd = streams (cmds w !!! p).
Proof. intros Hp. unfold effective_streams. by rewrite Hp. Qed.

(** The help that a command shows of itself goes to the stream that it
    has inherited. *)
Lemma Execute_help_outcome a0 cmd w :
  runnable (cmds w !!! cmd) = true ->
  is_Some (getNames (cmds w) cmd) ->
  match (effective_streams w cmd).1.2 with
  | Some s =>
      exists text,
        (Execute [a0; "help"] cmd w).1 = Ok (ExitCodeSuccess, None) /\
        trace (Execute [a0; "help"] cmd w).2 = EvWrite s text :: trace w
  | None =>
      (Execute [a0; "help"] cmd w).1 = Panic nilDereference /\
      trace (Execute [a0; "help"] cmd w).2 = trace w
  end.
Proof.
  intros Hr Hn. rewrite Execute_help_token, Hr. fold (parsed w cmd ["help"]).
  unfold helpForCommand. cbn [FlagSet_Args fs_args FlagSet_set_args].
  rewrite String.eqb_refl. cbn [length]. change (2 <? 0)%nat with false. cbv iota.
  unfold bind. rewrite showHelp_eq.
  destruct (helpText_of (parsed w cmd ["help"]) cmd) as [text|] eqn:Et; cycle 1.
  { apply helpText_of_None in Et. rewrite parsed_cmds in Et.
    rewrite (getNames_same (cmds w)) in Et; [by rewrite Et in Hn; destruct Hn|].
    intros a. by destruct (same_but_streams_fields _ _ (inherited_same cmd w a))
      as (-> & _ & _ & -> & _). }
  pose proof (parsed_streams w cmd ["help"]) as Hst. unfold streams in Hst.
  destruct (effective_streams w cmd) as [[i o] e]. injection Hst as _ -> _. cbn [fst snd].
  destruct o as [s|].
  - exists text. cbn. by rewrite parsed_trace.
  - cbn. by rewrite parsed_trace.
Qed.

(** The help that the usage function shows when the flags of a command do
    not parse goes to the stream that the command has inherited. *)
Lemma Execute_usage_outcome a0 args1 cmd w f' e :
  runnable (cmds w !!! cmd) = true ->
  is_Some (getNames (cmds w) cmd) ->
  parseAll (nodeFlagSet w cmd) args1 = (f', Some e) ->
  match (effective_streams w cmd).1.2 with
  | Some s => exists text rest, trace (Execute (a0 :: args1) cmd w).2 = EvWrite s text :: rest
  | None =>
      (Execute (a0 :: args1) cmd w).1 = Panic nilDereference /\
      calls (trace (Execute (a0 :: args1) cmd w).2) = calls (trace w)
  end.
Proof.
  intros Hr Hn Hp. rewrite Execute_cons. cbv zeta.
  rewrite Hr, parseFlags_unfold, nodeFlagSet_inherited, Hp.
  set (W := failedParse (inherited cmd w) cmd f' e).
  rewrite showHelp_eq.
  assert (cmds W = cmds (inherited cmd w)) as HW by apply failedParse_cmds.
  destruct (helpText_of W cmd) as [text|] eqn:Et; cycle 1.
  { apply helpText_of_None in Et. rewrite HW in Et.
    rewrite (getNames_same (cmds w)) in Et; [by rewrite Et in Hn; destruct Hn|].
    intros a. by destruct (same_but_streams_fields _ _ (inherited_same cmd w a))
      as (-> & _ & _ & -> & _). }
  pose proof (inherited_effective cmd w) as Hst. rewrite <- HW in Hst.
  unfold streams in Hst.
  destruct (effective_streams w cmd) as [[i o] e']. injection Hst as _ -> _. cbn [fst snd].
  destruct o as [s|].
  - exists text, (trace W).
    by destruct (fs_errorHandling f'); [|destruct e|].
  - split; [done|]. cbn [snd]. unfold W.
    destruct e; cbn; by rewrite ?storeFlagSet_trace, inherited_trace.
Qed.

(** In a tree whose parent pointers agree with the children maps, a run
    changes the streams of a command only to the streams with which the
    run began. *)
Lemma Execute_streams_spread args : forall cmd w res w',
  linked (cmds w) ->
  Execute args cmd w = (res, w') ->
  forall a,
    streams (cmds w' !!! a) = streams (cmds w !!! a) \/
    streams (cmds w' !!! a) = effective_streams w cmd.
Proof.
  induction args as [|a0 args1 IH]; intros cmd w res w' Hl H a.
  { rewrite Execute_nil in H. injection H as _ <-. by left. }
  rewrite Execute_cons in H. cbv zeta in H.
  destruct (runnable (cmds w !!! cmd)); [|injection H as _ <-; by left].
  destruct (parseFlags cmd args1 (inherited cmd w)) as [rp w2] eqn:Ep.
  apply parseFlags_quiet in Ep as [Hc _].
  assert (forall a, same_but_streams (cmds w !!! a) (cmds w2 !!! a)) as Hs.
  { intros b. rewrite Hc. apply inherited_same. }
  assert (forall b, streams (cmds w2 !!! b) = streams (cmds w !!! b) \/
                    streams (cmds w2 !!! b) = effective_streams w cmd) as Hbase.
  { intros b. rewrite Hc. destruct (decide (b = cmd)) as [->|Hne].
    - right. apply inherited_effective.
    - left. by rewrite inherited_other. }
  assert (forall fs, helpForCommand cmd fs w2 = (res, w') ->
            streams (cmds w' !!! a) = streams (cmds w !!! a) \/
            streams (cmds w' !!! a) = effective_streams w cmd) as Hhelp.
  { intros fs Hh. apply helpForCommand_quiet in Hh as [[-> _] _]. apply Hbase. }
  assert (forall fs f, callFunc cmd f fs w2 = (res, w') ->
            streams (cmds w' !!! a) = streams (cmds w !!! a) \/
            streams (cmds w' !!! a) = effective_streams w cmd) as Hcall.
  { intros fs f Hf. rewrite callFunc_unfold in Hf. cbv zeta in Hf.
    injection Hf as _ <-. apply Hbase. }
  destruct rp as [[fs [err|]]|v|code|]; try (injection H as _ <-; apply Hbase).
  destruct args1 as [|a1 rest].
  { destruct (Func (cmds w !!! cmd)); eauto. }
  destruct (String.eqb a1 "help"); [eauto|].
  destruct (children (cmds w !!! cmd) !! a1) as [sub|] eqn:Esub.
  - assert (effective_streams w2 sub = effective_streams w cmd) as Heff.
    { unfold effective_streams at 1.
      destruct (same_but_streams_fields _ _ (Hs sub)) as (_ & _ & _ & -> & _).
      rewrite (Hl _ _ _ Esub), Hc. apply inherited_effective. }
    destruct (IH sub w2 res w' (linked_same _ _ Hs Hl) H a) as [H1|H1].
    + rewrite H1. apply Hbase.
    + right. by rewrite H1.
  - destruct (Func (cmds w !!! cmd)); eauto.
Qed.

(** And a command on which [Execute] is called, and which passes the
    check, has these streams when the run ends. *)
Lemma Execute_own_streams a0 args1 cmd w res w' :
  linked (cmds w) ->
  runnable (cmds w !!! cmd) = true ->
  Execute (a0 :: args1) cmd w = (res, w') ->
  streams (cmds w' !!! cmd) = effective_streams w cmd.
Proof.
  intros Hl Hr H. rewrite Execute_cons in H. cbv zeta in H. rewrite Hr in H.
  destruct (parseFlags cmd args1 (inherited cmd w)) as [rp w2] eqn:Ep.
  apply parseFlags_quiet in Ep as [Hc _].
  assert (forall a, same_but_streams (cmds w !!! a) (cmds w2 !!! a)) as Hs.
  { intros b. rewrite Hc. apply inherited_same. }
  assert (streams (cmds w2 !!! cmd) = effective_streams w cmd) as Hbase.
  { rewrite Hc. apply inherited_effective. }
  assert (forall fs, helpForCommand cmd fs w2 = (res, w') ->
            streams (cmds w' !!! cmd) = effective_streams w cmd) as Hhelp.
  { intros fs Hh. by apply helpForCommand_quiet in Hh as [[-> _] _]. }
  assert (forall fs f, callFunc cmd f fs w2 = (res, w') ->
            streams (cmds w' !!! cmd) = effective_streams w cmd) as Hcall.
  { intros fs f Hf. rewrite callFunc_unfold in Hf. cbv zeta in Hf.
    by injection Hf as _ <-. }
  destruct rp as [[fs [err|]]|v|code|]; try (by injection H as _ <-).
  destruct args1 as [|a1 rest].
  { destruct (Func (cmds w !!! cmd)); eauto. }
  destruct (String.eqb a1 "help"); [eauto|].
  destruct (children (cmds w !!! cmd) !! a1) as [sub|] eqn:Esub.
  - assert (effective_streams w2 sub = effective_streams w cmd) as Heff.
    { unfold effective_streams at 1.
      destruct (same_but_streams_fields _ _ (Hs sub)) as (_ & _ & _ & -> & _).
      rewrite (Hl _ _ _ Esub), Hc. apply inherited_effective. }
    destruct (Execute_streams_spread _ _ _ _ _ (linked_same _ _ Hs Hl) H cmd) as [H1|H1];
      congruence.
  - destruct (Func (cmds w !!! cmd)); eauto.
Qed.

Lemma parsed_same w cmd l a : same_but_streams (cmds w !!! a) (cmds (parsed w cmd l) !!! a).
Proof. rewrite parsed_cmds. apply inherited_same. Qed.

Lemma Execute_visited_streams path : forall a0 cmd w rest res w' n,
  linked (cmds w) ->
  descend (cmds w) cmd path = Some n ->
  Forall (fun p => is_flag_token p = false /\ p <> "help") path ->
  runnable (cmds w !!! n) = true ->
  Execute (a0 :: path ++ rest) cmd w = (res, w') ->
  streams (cmds w' !!! n) = effective_streams w cmd.
Proof.
  induction path as [|p path IH]; intros a0 cmd w rest res w' n Hl Hd Hp Hr H.
  - injection Hd as ->. by eapply Execute_own_streams.
  - cbn [descend] in Hd.
    destruct (children (cmds w !!! cmd) !! p) as [sub|] eqn:Hk; [|done].
    apply Forall_cons in Hp as [[Hflag Hhelp] Hp]. apply String.eqb_neq in Hhelp.
    cbn [app] in H. rewrite Execute_cons in H. cbv zeta in H.
    rewrite (has_child_runnable _ _ _ Hk), parseFlags_first_positional, Hhelp, Hk in H
      by done.
    set (W := parsed w cmd (p :: path ++ rest)) in *.
    rewrite (IH p sub W rest res w' n); first last.
    + exact H.
    + unfold runnable, hasNoFunc. unfold W. rewrite parsed_children, parsed_Func. exact Hr.
    + done.
    + rewrite <- Hd. apply descend_same. intros a. apply parsed_children.
    + eapply linked_same; [|exact Hl]. intros a. apply parsed_same.
    + unfold effective_streams at 1. unfold W.
      destruct (same_but_streams_fields _ _ (parsed_same w cmd (p :: path ++ rest) sub))
        as (_ & _ & _ & -> & _).
      rewrite (Hl _ _ _ Hk). apply parsed_streams.
Qed.

Lemma Root_Stdout_streams s w :
  (Root.Stdout s w).1 = Ok tt /\
  streams (cmds (Root.Stdout s w).2 !!! root) =
    (stdin (cmds w !!! root), s, stderr (cmds w !!! root)).
Proof.
  split; [done|]. unfold Root.Stdout, bind, getCommand, putCommand. cbn.
  by rewrite lookup_total_insert_eq.
Qed.

Lemma Execute_precondition args cmd w :
  args = [] \/ runnable (cmds w !!! cmd) = false ->
  exists v, Execute args cmd w = (Panic v, w).
Proof.
  intros [->|Hr]; [eexists; apply Execute_nil|].
  destruct args as [|a0 args1]; [eexists; apply Execute_nil|].
  rewrite Execute_cons. cbv zeta. rewrite Hr. by eexists.
Qed.

Lemma Execute_handler_streams a0 args1 cmd w f :
  Func (cmds w !!! cmd) = Some f ->
  (forall a1, head args1 = Some a1 ->
     is_flag_token a1 = false /\ a1 <> "help" /\
     children (cmds w !!! cmd) !! a1 = None) ->
  exists input,
    (Execute (a0 :: args1) cmd w).1 = f input /\
    trace (Execute (a0 :: args1) cmd w).2 = EvCall cmd input :: trace w /\
    input_streams input = effective_streams w cmd.
Proof.
  intros Hf Hhead.
  destruct (Execute_handler_call a0 args1 cmd w f Hf Hhead) as (input & -> & Hs & _).
  exists input. split_and!; [done| |done]. cbn. by rewrite parsed_trace.
Qed.

(** C8: a call of [Execute] that fails the check on its arguments or on
    the node panics before anything is inherited.  A call that passes it,
    on a node that has a parent, first overwrites the three streams of the
    node with the fields that the parent has at that moment, and only then
    parses the flags, calls the handler or renders help: the handler of
    the node receives the streams of the parent, and the help that the
    node shows of itself, on the word help or when its flags do not parse,
    is written to the output of the parent.  In a world in which every
    command that a children map lists has that command as its parent, the
    handler that a run calls receives the streams with which the run
    began, and so does every node that the run visits on its way down:
    for a run from a root without parent these are the streams of the
    root, as [Stdout] has set them before the run.  [RegisterChild] does
    not keep the worlds so: a command can be registered under a second
    parent.  It changes no stream field of any command. *)
Theorem C8_streams_inherited_at_execution :
  (forall args cmd w,
     args = [] \/ runnable (cmds w !!! cmd) = false ->
     exists v, Execute args cmd w = (Panic v, w)) /\
  (forall a0 args1 cmd w p,
     parent (cmds w !!! cmd) = Some p ->
     runnable (cmds w !!! cmd) = true ->
     let c := cmds w !!! cmd in
     let w1 :=
       World_set_cmds w
         (<[cmd := Command_set_streams c (stdin (cmds w !!! p))
                     (stdout (cmds w !!! p)) (stderr (cmds w !!! p))]> (cmds w)) in
     streams (cmds w1 !!! cmd) = streams (cmds w !!! p) /\
     (forall a, a <> cmd -> cmds w1 !!! a = cmds w !!! a) /\
     trace w1 = trace w /\
     Execute (a0 :: args1) cmd w =
       match parseFlags cmd args1 w1 with
       | (Ok (fs, None), w2) =>
           match args1 with
           | [] =>
               match Func c with
               | Some f => callFunc cmd f fs w2
               | None => helpForCommand cmd fs w2
               end
           | a1 :: _ =>
               if String.eqb a1 "help" then helpForCommand cmd fs w2
               else
                 match children c !! a1 with
                 | None =>
                     match Func c with
                     | Some f => callFunc cmd f fs w2
                     | None => helpForCommand cmd fs w2
                     end
                 | Some subcommand => Execute args1 subcommand w2
                 end
           end
       | (Ok (_, Some err), w2) => (Ok (ExitCodeSerious, Some err), w2)
       | (Panic v, w2) => (Panic v, w2)
       | (Exit code, w2) => (Exit code, w2)
       | (StackOverflow, w2) => (StackOverflow, w2)
       end) /\
  (forall a0 args1 cmd w p f,
     parent (cmds w !!! cmd) = Some p ->
     Func (cmds w !!! cmd) = Some f ->
     (forall a1, head args1 = Some a1 ->
        is_flag_token a1 = false /\ a1 <> "help" /\
        children (cmds w !!! cmd) !! a1 = None) ->
     exists input,
       (Execute (a0 :: args1) cmd w).1 = f input /\
       trace (Execute (a0 :: args1) cmd w).2 = EvCall cmd input :: trace w /\
       input_streams input = streams (cmds w !!! p)) /\
  (forall a0 cmd w p,
     parent (cmds w !!! cmd) = Some p ->
     runnable (cmds w !!! cmd) = true ->
     is_Some (getNames (cmds w) cmd) ->
     match stdout (cmds w !!! p) with
     | Some s =>
         exists text,
           (Execute [a0; "help"] cmd w).1 = Ok (ExitCodeSuccess, None) /\
           trace (Execute [a0; "help"] cmd w).2 = EvWrite s text :: trace w
     | None =>
         (Execute [a0; "help"] cmd w).1 = Panic nilDereference /\
         trace (Execute [a0; "help"] cmd w).2 = trace w
     end) /\
  (forall a0 args1 cmd w p f' e,
     parent (cmds w !!! cmd) = Some p ->
     runnable (cmds w !!! cmd) = true ->
     is_Some (getNames (cmds w) cmd) ->
     parseAll (nodeFlagSet w cmd) args1 = (f', Some e) ->
     match stdout (cmds w !!! p) with
     | Some s =>
         exists text rest,
           trace (Execute (a0 :: args1) cmd w).2 = EvWrite s text :: rest
     | None =>
         (Execute (a0 :: args1) cmd w).1 = Panic nilDereference /\
         calls (trace (Execute (a0 :: args1) cmd w).2) = calls (trace w)
     end) /\
  (forall args cmd w res w' c input,
     linked (cmds w) ->
     Execute args cmd w = (res, w') ->
     calls (trace w') = (c, input) :: calls (trace w) ->
     input_streams input = effective_streams w cmd /\
     (parent (cmds w !!! cmd) = None -> input_streams input = streams (cmds w !!! cmd))) /\
  (forall path a0 cmd w rest res w' n,
     linked (cmds w) ->
     descend (cmds w) cmd path = Some n ->
     Forall (fun p => is_flag_token p = false /\ p <> "help") path ->
     runnable (cmds w !!! n) = true ->
     Execute (a0 :: path ++ rest) cmd w = (res, w') ->
     streams (cmds w' !!! n) = effective_streams w cmd /\
     (parent (cmds w !!! cmd) = None ->
      streams (cmds w' !!! n) = streams (cmds w !!! cmd))) /\
  (forall s w,
     (Root.Stdout s w).1 = Ok tt /\
     streams (cmds (Root.Stdout s w).2 !!! root) =
       (stdin (cmds w !!! root), s, stderr (cmds w !!! root))) /\
  (forall c cmd w a,
     streams (cmds (RegisterChild c cmd w).2 !!! a) = streams (cmds w !!! a)).
Proof.
  split_and!.
  - apply Execute_precondition.
  - intros a0 args1 cmd w p Hp Hr c w1. split_and!.
    + subst w1. cbn. by rewrite lookup_total_insert_eq.
    + intros a Hne. subst w1. cbn. by rewrite lookup_total_insert_ne.
    + done.
    + rewrite Execute_cons. cbv zeta. rewrite Hr, (inherited_parent cmd w p Hp). done.
  - intros a0 args1 cmd w p f Hp Hf Hhead.
    rewrite <- (effective_parent w cmd p Hp). by apply Execute_handler_streams.
  - intros a0 cmd w p Hp Hr Hn.
    pose proof (Execute_help_outcome a0 cmd w Hr Hn) as H.
    rewrite (effective_parent w cmd p Hp) in H. exact H.
  - intros a0 args1 cmd w p f' e Hp Hr Hn Hparse.
    pose proof (Execute_usage_outcome a0 args1 cmd w f' e Hr Hn Hparse) as H.
    rewrite (effective_parent w cmd p Hp) in H. exact H.
  - intros args cmd w res w' c input Hl H Hc.
    pose proof (Execute_call_streams args cmd w res w' c input Hl H Hc) as Hs.
    split; [done|]. intros Hp. rewrite Hs. unfold effective_streams. by rewrite Hp.
  - intros path a0 cmd w rest res w' n Hl Hd Hp Hr H.
    pose proof (Execute_visited_streams path a0 cmd w rest res w' n Hl Hd Hp Hr H) as Hs.
    split; [done|]. intros Hpar. rewrite Hs. unfold effective_streams. by rewrite Hpar.
  - apply Root_Stdout_streams.
  - apply RegisterChild_streams.
Qed.

(** In [tree], with the output of the root set to the stream 7, the run
    of [prog x] visits [x], and [x] has the streams of the root when the
    run ends. *)
Lemma C8_streams_inherited_at_execution_witness :
  streams (cmds (Execute ["prog"; "x"] root (Root.Stdout (Some 7) tree).2).2 !!! 1) =
    (Some os_Stdin, Some 7, Some os_Stderr).
Proof.
  destruct C8_streams_inherited_at_execution as (_ & _ & _ & _ & _ & _ & Hv & _).
  destruct (Hv ["x"] "prog" root (Root.Stdout (Some 7) tree).2 []
              (Execute ["prog"; "x"] root (Root.Stdout (Some 7) tree).2).1
              (Execute ["prog"; "x"] root (Root.Stdout (Some 7) tree).2).2 1) as [_ Hs].
  - eapply linked_same; [|exact linked_tree]. intros a.
    destruct (decide (a = root)) as [->|Hne]; [by vm_compute|].
    unfold Root.Stdout, bind, getCommand, putCommand. cbn.
    rewrite lookup_total_insert_ne by done. unfold same_but_streams.
    by destruct (cmds tree !!! a).
  - by vm_compute.
  - repeat constructor; by vm_compute.
  - by vm_compute.
  - symmetry. apply surjective_pairing.
  - rewrite Hs by by vm_compute. by vm_compute.
Defined.

(** A command that is registered under a second parent stays in the
    children map of the first, and its parent is the second.  In [tree],
    [x] is registered once more, under the child named help, and the
    output of the root is then set to the stream 7: the run of [prog x]
    reaches [x] through the root, and the handler of [x] receives the nil
    streams of the child named help, not the stream 7. *)
Lemma C8_counterexample :
  (RegisterChild 2 1 tree).1 = Ok tt /\
  children (cmds (RegisterChild 2 1 tree).2 !!! root) !! "x" = Some 1 /\
  parent (cmds (RegisterChild 2 1 tree).2 !!! 1) = Some 2 /\
  streams (cmds (Root.Stdout (Some 7) (RegisterChild 2 1 tree).2).2 !!! root) =
    (Some os_Stdin, Some 7, Some os_Stderr) /\
  (input_streams <$>
     (calls (trace (Execute ["prog"; "x"] root
                      (Root.Stdout (Some 7) (RegisterChild 2 1 tree).2).2).2)).*2) =
    [(None, None, None)] /\
  streams (cmds (Execute ["prog"; "x"] root
                   (Root.Stdout (Some 7) (RegisterChild 2 1 tree).2).2).2 !!! 1) =
    (None, None, None).
Proof. by vm_compute. Qed.
